(** * angr CFG recovery core and simuvex action log: a shallow embedding

    The development follows two source files:
    - [simuvex/s_action.py]: [SimAction], [SimActionExit], [SimActionData];
    - [angr/analyses/cfg_base.py]: [CFGBase] (graph queries, [normalize],
      [_analyze_function_features]).

    Python values are modelled with explicit data types, Python exceptions
    with an error monad, [dict]s and [set]s with stdpp's [gmap] and [gset]. *)

From stdpp Require Import gmap strings list fin_maps sorting.
From Stdlib Require Import ZArith Lia.

Local Open Scope Z_scope.

(** ** Python exceptions and the error monad *)

Inductive exn :=
  | TypeError
  | KeyError
  | AttributeError
  | AngrCFGError
  | NetworkXError.

Inductive result (A : Type) :=
  | Ok (a : A)
  | Raise (e : exn).
Arguments Ok {A} a.
Arguments Raise {A} e.

Definition bind {A B} (r : result A) (k : A → result B) : result B :=
  match r with
  | Ok a => k a
  | Raise e => Raise e
  end.

Notation "'let*' x := r 'in' k" := (bind r (λ x, k))
  (at level 10, x pattern, r at level 200, k at level 200).

#[global] Instance exn_eq_dec : EqDecision exn.
Proof. solve_decision. Defined.

(** Python's [KeyError] derives from the built-in [LookupError];
    the other exceptions used here do not. *)
Definition is_LookupError (e : exn) : bool :=
  match e with
  | KeyError => true
  | _ => false
  end.

(** ** simuvex/s_action.py *)

Module Action.

(** A value handed to an action that is not yet a [SimActionObject]:
    a machine integer ([int], [long]) or any other expression. *)
Inductive raw :=
  | RInt (z : Z)
  | RExpr (name : string).

(** Modelled from the spec: [SimActionObject] lives in
    [s_action_object.py], which is not part of the sources.  It wraps a
    value with the register offsets and temporary slots it depends on. *)
Record SimActionObject := {
  ast : raw;
  reg_deps : gset Z;
  tmp_deps : gset Z
}.

(** Modelled from the spec: the constructor call
    [SimActionObject(v, reg_deps=None, tmp_deps=None)]; a dependency set
    that is not given is the empty frozenset. *)
Definition mkSimActionObject (v : raw) (rd td : option (gset Z))
  : SimActionObject :=
  {| ast := v; reg_deps := default ∅ rd; tmp_deps := default ∅ td |}.

Inductive arg :=
  | Raw (v : raw)
  | Obj (o : SimActionObject).

(** [isinstance(v, (int, long))] *)
Definition as_int (v : option arg) : option Z :=
  match v with
  | Some (Raw (RInt z)) => Some z
  | _ => None
  end.

(** [SimAction._make_object] *)
Definition _make_object (v : option arg) : option SimActionObject :=
  match v with
  | None => None
  | Some (Obj o) => Some o
  | Some (Raw r) => Some (mkSimActionObject r None None)
  end.

(** Modelled from the spec: the fields a [SimEvent] takes from the state
    ([s_event.py] is not part of the sources). *)
Record SimState := {
  st_bbl_addr : option Z;
  st_ins_addr : option Z;
  st_stmt_idx : option Z;
  st_sim_procedure : option string
}.

Definition REG : string := "reg".
Definition MEM : string := "mem".

Definition CONDITIONAL : string := "conditional".
Definition DEFAULT : string := "default".

Definition READ : string := "read".

Record SimActionExit := {
  x_state : SimState;
  x_type : string;
  exit_type : string;
  target : option SimActionObject;
  x_condition : option SimActionObject
}.

(** [SimActionExit.__init__(self, state, target, condition=None, exit_type=None)] *)
Definition SimActionExit_init (state : SimState) (tgt : option arg)
    (condition : option arg) (et : option string) : SimActionExit :=
  {| x_state := state;
     x_type := "exit";
     exit_type :=
       match et with
       | Some t => t
       | None =>
           match condition with
           | None => CONDITIONAL
           | Some _ => DEFAULT
           end
       end;
     target := _make_object tgt;
     x_condition := _make_object condition |}.

Record SimActionData := {
  d_state : SimState;
  d_type : string;
  action : string;
  _reg_dep : gset Z;
  _tmp_dep : gset Z;
  tmp : option Z;
  offset : option Z;
  addr : option SimActionObject;
  size : option SimActionObject;
  data : option SimActionObject;
  condition : option SimActionObject;
  fallback : option SimActionObject;
  fd : option SimActionObject;
  actual_addrs : option (list Z);
  actual_value : option raw;
  added_constraints : option (list raw)
}.

(** [SimActionData.__init__(self, state, region_type, action, tmp=None,
    addr=None, size=None, data=None, condition=None, fallback=None, fd=None)] *)
Definition SimActionData_init (state : SimState) (region_type act : string)
    (tmp_ : option Z) (addr_ size_ data_ condition_ fallback_ fd_ : option arg)
  : SimActionData :=
  {| d_state := state;
     d_type := region_type;
     action := act;
     _reg_dep :=
       match as_int addr_ with
       | Some z => if bool_decide (act ≠ READ) then ∅ else {[ z ]}
       | None => ∅
       end;
     _tmp_dep :=
       match tmp_ with
       | None => ∅
       | Some t => if bool_decide (act ≠ READ) then ∅ else {[ t ]}
       end;
     tmp := tmp_;
     offset :=
       match as_int addr_ with
       | Some z => if bool_decide (region_type = "reg") then Some z else None
       | None => None
       end;
     addr := _make_object addr_;
     size := _make_object size_;
     data := _make_object data_;
     condition := _make_object condition_;
     fallback := _make_object fallback_;
     fd := _make_object fd_;
     actual_addrs := None;
     actual_value := None;
     added_constraints := None |}.

(** [SimActionExit.all_objects] *)
Definition exit_all_objects (a : SimActionExit) : list SimActionObject :=
  omap id [target a; x_condition a].

(** [SimActionData.all_objects] *)
Definition all_objects (a : SimActionData) : list SimActionObject :=
  omap id [addr a; size a; data a; condition a; fallback a; fd a].

(** [frozenset.union( *sets )]: the unbound method needs its receiver, so
    an empty argument list is a [TypeError]. *)
Definition frozenset_union (sets : list (gset Z)) : result (gset Z) :=
  match sets with
  | [] => Raise TypeError
  | s :: rest => Ok (foldl (∪) s rest)
  end.

(** [SimAction.tmp_deps] and [SimAction.reg_deps] over a list of objects *)
Definition base_tmp_deps (objs : list SimActionObject) : result (gset Z) :=
  frozenset_union (tmp_deps <$> objs).

Definition base_reg_deps (objs : list SimActionObject) : result (gset Z) :=
  frozenset_union (reg_deps <$> objs).

(** [SimActionData.tmp_deps] and [SimActionData.reg_deps] *)
Definition data_tmp_deps (a : SimActionData) : result (gset Z) :=
  let* s := base_tmp_deps (all_objects a) in Ok (s ∪ _tmp_dep a).

Definition data_reg_deps (a : SimActionData) : result (gset Z) :=
  let* s := base_reg_deps (all_objects a) in Ok (s ∪ _reg_dep a).

(** [SimActionExit]'s properties are the inherited ones. *)
Definition exit_tmp_deps (a : SimActionExit) : result (gset Z) :=
  base_tmp_deps (exit_all_objects a).

Definition exit_reg_deps (a : SimActionExit) : result (gset Z) :=
  base_reg_deps (exit_all_objects a).

End Action.

(** ** networkx.DiGraph *)

(** Values of edge attributes. *)
Inductive attr :=
  | AStr (s : string)
  | AInt (z : Z).

#[global] Instance attr_eq_dec : EqDecision attr.
Proof. solve_decision. Defined.

Section digraph.
Context {V : Type} `{Countable V}.

(** A directed graph without parallel edges: a set of nodes and, for each
    edge, its attribute dictionary. *)
Record DiGraph := {
  nodes : gset V;
  edges : gmap (V * V) (gmap string attr)
}.

Definition empty_graph : DiGraph := {| nodes := ∅; edges := ∅ |}.

Definition has_edge (g : DiGraph) (u v : V) : bool :=
  bool_decide (is_Some (edges g !! (u, v))).

Definition add_node (g : DiGraph) (n : V) : DiGraph :=
  {| nodes := nodes g ∪ {[ n ]}; edges := edges g |}.

(** [add_edge(u, v, attr_dict)]: missing end points are added, and the
    attributes update the dictionary an existing edge already has. *)
Definition add_edge (g : DiGraph) (u v : V) (d : gmap string attr) : DiGraph :=
  {| nodes := nodes g ∪ {[ u ]} ∪ {[ v ]};
     edges := <[(u, v) := d ∪ default ∅ (edges g !! (u, v))]> (edges g) |}.

Definition remove_edge (g : DiGraph) (u v : V) : result DiGraph :=
  if has_edge g u v
  then Ok {| nodes := nodes g; edges := delete (u, v) (edges g) |}
  else Raise NetworkXError.

(** [remove_node(n)] also removes every edge at [n]. *)
Definition remove_node (g : DiGraph) (n : V) : result DiGraph :=
  if bool_decide (n ∈ nodes g)
  then Ok {| nodes := nodes g ∖ {[ n ]};
             edges := filter (λ e, e.1.1 ≠ n ∧ e.1.2 ≠ n) (edges g) |}
  else Raise NetworkXError.

Definition edge_list (g : DiGraph) : list (V * V * gmap string attr) :=
  map_to_list (edges g).

(** [in_edges([n], data=True)] and [out_edges([n], data=True)] *)
Definition in_edges (g : DiGraph) (n : V) : list (V * V * gmap string attr) :=
  filter (λ e, e.1.2 = n) (edge_list g).

Definition out_edges (g : DiGraph) (n : V) : list (V * V * gmap string attr) :=
  filter (λ e, e.1.1 = n) (edge_list g).

Definition predecessors (g : DiGraph) (n : V) : list V :=
  (λ e, e.1.1) <$> in_edges g n.

Definition successors (g : DiGraph) (n : V) : list V :=
  (λ e, e.1.2) <$> out_edges g n.

Definition out_degree (g : DiGraph) (n : V) : nat := length (out_edges g n).

End digraph.
Arguments DiGraph V {_ _}.

(** [for x in xs: acc = f(acc, x)] where [f] may raise. *)
Fixpoint foldM {A B} (f : A → B → result A) (a : A) (l : list B) : result A :=
  match l with
  | [] => Ok a
  | x :: l' => let* a' := f a x in foldM f a' l'
  end.

(** [for x in xs: if p(x): keep x] where [p] may raise. *)
Fixpoint filterM {A} (p : A → result bool) (l : list A) : result (list A) :=
  match l with
  | [] => Ok []
  | x :: l' =>
      let* b := p x in
      let* r := filterM p l' in
      Ok (if b : bool then x :: r else r)
  end.

(** ** The knowledge store and the project, as [cfg_base.py] uses them *)

Module Knowledge.

(** The kinds of node of a function's transition graph: an ordinary
    block, another function, or a hooked address.  A [FunctionNode]
    stands for the [Function] object the store holds at that address. *)
Inductive FuncNode :=
  | BlockNode (a : Z)
  | FunctionNode (a : Z)
  | HookNode (a : Z).

Definition node_addr (n : FuncNode) : Z :=
  match n with
  | BlockNode a | FunctionNode a | HookNode a => a
  end.

#[global] Instance FuncNode_eq_dec : EqDecision FuncNode.
Proof. solve_decision. Defined.

#[global] Instance FuncNode_countable : Countable FuncNode.
Proof.
  refine (inj_countable'
    (λ n, match n with
          | BlockNode a => (0%nat, a)
          | FunctionNode a => (1%nat, a)
          | HookNode a => (2%nat, a)
          end)
    (λ p, match p.1 with
          | O => BlockNode p.2
          | S O => FunctionNode p.2
          | _ => HookNode p.2
          end) _).
  by intros [].
Defined.

(** Modelled from the spec: [Function] lives in the knowledge package,
    which is not part of the sources.  The fields are the attributes
    [_analyze_function_features] reads and writes. *)
Record Function := {
  addr : Z;
  returning : option bool;
  endpoints : list FuncNode;
  graph : DiGraph FuncNode;
  transition_graph : DiGraph FuncNode;
  nodes : gset FuncNode;
  is_syscall : bool
}.

Definition set_returning (b : bool) (f : Function) : Function :=
  {| addr := addr f; returning := Some b; endpoints := endpoints f;
     graph := graph f; transition_graph := transition_graph f;
     nodes := nodes f; is_syscall := is_syscall f |}.

(** What hooks an address; [NO_RET] is [None] when the hooking object
    has no such attribute. *)
Record Hooker := {
  NO_RET : option bool
}.

End Knowledge.

(** ** angr/analyses/cfg_base.py *)

Module CFG.

(** Call-stack signatures and SimRun keys are tuples of optional
    addresses. *)
Abbreviation ckey := (list (option Z)).

(** Modelled from the spec: [CFGNode] lives in [cfg_node.py], which is not
    part of the sources.  The fields are the attributes [cfg_base.py]
    reads.  Two nodes are the same member of a set or the same graph node
    when all their fields agree: [normalize] itself expects one group to
    hold distinct nodes with the same address, call-stack key and size,
    and expects a shorter node with the same address and call-stack key
    to exist next to a longer one. *)
Record CFGNode := {
  addr : Z;
  size : option Z;
  callstack_key : ckey;
  looping_times : Z;
  is_simprocedure : bool;
  is_syscall : bool;
  no_ret : bool;
  has_return : bool;
  function_address : option Z;
  simrun_key : ckey;
  instruction_addrs : list Z
}.

#[global] Instance CFGNode_eq_dec : EqDecision CFGNode.
Proof. solve_decision. Defined.

(** A node as a list of tuples of optional integers, to count nodes. *)
Definition CFGNode_to_list (n : CFGNode) : list ckey :=
  [ [Some (addr n)]; [size n]; callstack_key n; [Some (looping_times n)];
    [Some (Z.b2z (is_simprocedure n)); Some (Z.b2z (is_syscall n));
     Some (Z.b2z (no_ret n)); Some (Z.b2z (has_return n))];
    [function_address n]; simrun_key n; Some <$> instruction_addrs n ].

Definition CFGNode_of_list (l : list ckey) : option CFGNode :=
  match l with
  | [ [Some a]; [s]; c; [Some lt]; [Some p; Some y; Some r; Some h];
      [fa]; k; i ] =>
      Some (Build_CFGNode a s c lt (Z.eqb p 1) (Z.eqb y 1) (Z.eqb r 1)
              (Z.eqb h 1) fa k (omap id i))
  | _ => None
  end.

Lemma omap_id_Some {A} (l : list A) : omap id (Some <$> l) = l.
Proof. induction l; simpl; by f_equal. Qed.

#[global] Instance CFGNode_countable : Countable CFGNode.
Proof.
  refine (inj_countable CFGNode_to_list CFGNode_of_list _).
  intros [a s c lt p y r h fa k i]. simpl. rewrite omap_id_Some.
  by destruct p, y, r, h.
Defined.

(** Modelled from the spec: the constructor call
    [CFGNode(addr, size, cfg, callstack_key=..., function_address=...,
    simrun_key=...)]; the node is an ordinary block (no SimProcedure, no
    syscall), in loop iteration zero, with no instruction addresses yet. *)
Definition CFGNode_init (a sz : Z) (ck : ckey) (fa : option Z) (sk : ckey)
  : CFGNode :=
  {| addr := a; size := Some sz; callstack_key := ck; looping_times := 0;
     is_simprocedure := false; is_syscall := false; no_ret := false;
     has_return := false; function_address := fa; simrun_key := sk;
     instruction_addrs := [] |}.

Definition set_instruction_addrs (n : CFGNode) (l : list Z) : CFGNode :=
  {| addr := addr n; size := size n; callstack_key := callstack_key n;
     looping_times := looping_times n;
     is_simprocedure := is_simprocedure n; is_syscall := is_syscall n;
     no_ret := no_ret n; has_return := has_return n;
     function_address := function_address n; simrun_key := simrun_key n;
     instruction_addrs := l |}.

(** The part of a [CFGBase] object, of its knowledge base and of its
    project that the graph queries, [normalize] and
    [_analyze_function_features] use. *)
Record CFGBase := {
  _graph : DiGraph CFGNode;
  _nodes : gmap ckey CFGNode;
  _nodes_by_addr : gmap Z (list CFGNode);
  _normalized : bool;
  _changed_functions : option (gset Z);
  (** [self.kb.functions] and its call graph *)
  functions : gmap Z Knowledge.Function;
  callgraph : DiGraph Z;
  (** [self.project.is_hooked], [self.project.hooked_by] *)
  hooks : gmap Z Knowledge.Hooker
}.

(** The end-address index of [normalize]:
    [defaultdict(set)] keyed by [(end_addr, callstack_key)]. *)
Abbreviation end_index := (gmap (Z * ckey) (gset CFGNode)).

Section queries.
(** The order in which a set of nodes is iterated.  Python does not
    specify it; everything below is parametric in it. *)
Variable enum : gset CFGNode → list CFGNode.

(** [get_any_node(addr, is_syscall=None, anyaddr=False)] *)
Definition get_any_node (g : DiGraph CFGNode) (a : Z)
    (is_sys : option bool) (anyaddr : bool) : option CFGNode :=
  let matches (n : CFGNode) : bool :=
    let cond := bool_decide (looping_times n = 0) in
    let cond :=
      match anyaddr, size n with
      | true, Some sz =>
          cond && (bool_decide (a >= addr n) && bool_decide (a < addr n + sz))
      | _, _ => cond && bool_decide (a = addr n)
      end in
    cond &&
      match is_sys with
      | None => true
      | Some b => bool_decide (is_syscall n = b)
      end in
  head (filter (λ n, matches n = true) (enum (nodes g))).

(** [get_all_nodes(addr, is_syscall=None)] *)
Definition get_all_nodes (g : DiGraph CFGNode) (a : Z)
    (is_sys : option bool) : list CFGNode :=
  foldl (λ results cfg_node,
           if bool_decide (addr cfg_node = a) then
             if bool_decide (is_sys = Some true) && is_syscall cfg_node
             then results ++ [cfg_node]
             else if bool_decide (is_sys = Some false)
                     && negb (is_syscall cfg_node)
             then results ++ [cfg_node]
             else results ++ [cfg_node]
           else results)
        [] (enum (nodes g)).
End queries.

(** [get_exit_stmt_idx(src_block, dst_block)] *)
Definition get_exit_stmt_idx (g : DiGraph CFGNode) (src_block dst_block : CFGNode)
  : result attr :=
  if negb (has_edge g src_block dst_block)
  then Raise AngrCFGError
  else
    match default ∅ (edges g !! (src_block, dst_block)) !! "exit_stmt_idx" with
    | Some i => Ok i
    | None => Raise KeyError
    end.

(** *** normalize *)

(** [n.addr + n.size]; a size that is still [None] cannot be added. *)
Definition end_addr_of (n : CFGNode) : result Z :=
  match size n with
  | Some sz => Ok (addr n + sz)
  | None => Raise TypeError
  end.

(** [end_addresses[t].add(n)] on a [defaultdict(set)] *)
Definition index_add (E : end_index) (t : Z * ckey) (n : CFGNode) : end_index :=
  <[t := default ∅ (E !! t) ∪ {[ n ]}]> E.

(** Python 2 orders [None] below every integer. *)
Definition size_le (a b : option Z) : bool :=
  match a, b with
  | None, _ => true
  | Some _, None => false
  | Some x, Some y => bool_decide (x ≤ y)
  end.

(** [sorted(..., key=lambda node: node.size)]: a stable sort. *)
Fixpoint insert_by_size (n : CFGNode) (l : list CFGNode) : list CFGNode :=
  match l with
  | [] => [n]
  | m :: l' =>
      if size_le (size n) (size m) then n :: m :: l'
      else m :: insert_by_size n l'
  end.

Definition sort_by_size (l : list CFGNode) : list CFGNode :=
  foldr insert_by_size [] l.

(** [list.remove(x)]: drops the first occurrence. *)
Fixpoint remove_first (x : CFGNode) (l : list CFGNode) : list CFGNode :=
  match l with
  | [] => []
  | y :: l' => if decide (x = y) then l' else y :: remove_first x l'
  end.

Definition Ijk_Boring : gmap string attr := {[ "jumpkind" := AStr "Ijk_Boring" ]}.

(** The local and object state [normalize] works on. *)
Record nstate := {
  ns_graph : DiGraph CFGNode;
  ns_end_addresses : end_index;
  ns_nodes : gmap ckey CFGNode;
  ns_nodes_by_addr : gmap Z (list CFGNode)
}.

Section normalize.
Variable enum : gset CFGNode → list CFGNode.
(** The first key found with more than one node, in the iteration order
    of the index. *)
Variable pick : end_index → option (Z * ckey).

(** The first loop: group the nodes that are not SimProcedures. *)
Definition build_end_addresses (g : DiGraph CFGNode) : result end_index :=
  foldM (λ E n,
           if is_simprocedure n then Ok E
           else let* end_addr := end_addr_of n in
                Ok (index_add E (end_addr, callstack_key n) n))
        ∅ (enum (nodes g)).

(** "Does it already exist?": the node of the group of the new end
    address that starts where [n] starts, or else a new node, which is
    also put into the index. *)
Definition find_or_create (end_addresses : end_index) (callstack_key_ : ckey)
    (n : CFGNode) (new_size : Z) : CFGNode * end_index :=
  let new_end_addr := addr n + new_size in
  let tpl := (new_end_addr, callstack_key n) in
  let existing :=
    match end_addresses !! tpl with
    | Some group => filter (λ i, addr i = addr n) (enum group)
    | None => []
    end in
  match existing with
  | i :: _ => (i, end_addresses)
  | [] =>
      let new_node := CFGNode_init (addr n) new_size callstack_key_
                        (function_address n) (simrun_key n) in
      let new_node := set_instruction_addrs new_node
                        (filter (λ ins_addr, ins_addr < addr n + new_size)
                                (instruction_addrs n)) in
      (new_node, index_add end_addresses tpl new_node)
  end.

(** "Modify the CFG": [new_node] takes the incoming edges of [n] and an
    edge to the first of [all_nodes] that starts where the smallest node
    starts. *)
Definition rewire (graph : DiGraph CFGNode) (n new_node : CFGNode)
    (all_nodes : list CFGNode) (smallest_node : CFGNode)
  : result (DiGraph CFGNode) :=
  let original_predecessors := in_edges graph n in
  let* graph := foldM (λ g e, remove_edge g e.1.1 n) graph original_predecessors in
  let* graph := remove_node graph n in
  let graph :=
    foldl (λ g e, add_edge g e.1.1 new_node e.2) graph original_predecessors in
  let new_successors :=
    filter (λ i, addr i = addr smallest_node) all_nodes in
  match new_successors with
  | new_successor :: _ => Ok (add_edge graph new_node new_successor Ijk_Boring)
  | [] => Ok graph
  end.

(** The body of [for n in other_nodes]. *)
Definition break_node (all_nodes : list CFGNode) (smallest_node : CFGNode)
    (callstack_key_ : ckey) (st : nstate) (n : CFGNode) : result nstate :=
  let new_size := addr smallest_node - addr n in
  if bool_decide (new_size = 0) then Ok st
  else
    let '(new_node, end_addresses) :=
      find_or_create (ns_end_addresses st) callstack_key_ n new_size in
    let* graph := rewire (ns_graph st) n new_node all_nodes smallest_node in
    let bucket := default [] (ns_nodes_by_addr st !! addr n) in
    Ok {| ns_graph := graph;
          ns_end_addresses := end_addresses;
          ns_nodes := <[simrun_key n := new_node]> (ns_nodes st);
          ns_nodes_by_addr :=
            <[addr n := if bool_decide (n ∈ bucket)
                        then remove_first n bucket ++ [new_node]
                        else bucket]> (ns_nodes_by_addr st) |}.

(** One iteration of the [while] loop, for the key [tpl_to_find]. *)
Definition round (tpl_to_find : Z * ckey) (st : nstate) : result nstate :=
  let callstack_key_ := tpl_to_find.2 in
  let all_nodes :=
    sort_by_size (enum (default ∅ (ns_end_addresses st !! tpl_to_find))) in
  match all_nodes with
  | [] => Raise TypeError
  | smallest_node :: other_nodes =>
      let* st := foldM (break_node all_nodes smallest_node callstack_key_) st other_nodes in
      Ok {| ns_graph := ns_graph st;
            ns_end_addresses :=
              <[tpl_to_find := {[ smallest_node ]}]> (ns_end_addresses st);
            ns_nodes := ns_nodes st;
            ns_nodes_by_addr := ns_nodes_by_addr st |}
  end.

(** The [while] loop; [None] when the fuel runs out first. *)
Fixpoint normalize_loop (fuel : nat) (st : nstate) : option (result nstate) :=
  match pick (ns_end_addresses st) with
  | None => Some (Ok st)
  | Some tpl_to_find =>
      match fuel with
      | O => None
      | S fuel' =>
          match round tpl_to_find st with
          | Ok st' => normalize_loop fuel' st'
          | Raise e => Some (Raise e)
          end
      end
  end.

(** [CFGBase.normalize] *)
Definition normalize (fuel : nat) (cfg : CFGBase) : option (result CFGBase) :=
  match build_end_addresses (_graph cfg) with
  | Raise e => Some (Raise e)
  | Ok end_addresses =>
      match normalize_loop fuel
              {| ns_graph := _graph cfg; ns_end_addresses := end_addresses;
                 ns_nodes := _nodes cfg;
                 ns_nodes_by_addr := _nodes_by_addr cfg |} with
      | None => None
      | Some (Raise e) => Some (Raise e)
      | Some (Ok st) =>
          Some (Ok {| _graph := ns_graph st; _nodes := ns_nodes st;
                      _nodes_by_addr := ns_nodes_by_addr st;
                      _normalized := true;
                      _changed_functions := _changed_functions cfg;
                      functions := functions cfg;
                      callgraph := callgraph cfg;
                      hooks := hooks cfg |})
      end
  end.
End normalize.

(** *** _analyze_function_features *)

(** The [changes] dictionary; functions are recorded by address. *)
Record changes := {
  functions_return : list Z;
  functions_do_not_return : list Z
}.

Definition with_functions (cfg : CFGBase) (fs : gmap Z Knowledge.Function) : CFGBase :=
  {| _graph := _graph cfg; _nodes := _nodes cfg;
     _nodes_by_addr := _nodes_by_addr cfg; _normalized := _normalized cfg;
     _changed_functions := _changed_functions cfg;
     functions := fs; callgraph := callgraph cfg; hooks := hooks cfg |}.

Definition with_changed_functions (cfg : CFGBase) (c : option (gset Z)) : CFGBase :=
  {| _graph := _graph cfg; _nodes := _nodes cfg;
     _nodes_by_addr := _nodes_by_addr cfg; _normalized := _normalized cfg;
     _changed_functions := c;
     functions := functions cfg; callgraph := callgraph cfg; hooks := hooks cfg |}.

(** [func.returning = True] / [False] on the object the store holds at
    [a], followed by the [append] to the matching list of [changes]. *)
Definition mark (cfg : CFGBase) (ch : changes) (a : Z) (b : bool)
  : CFGBase * changes :=
  (with_functions cfg (alter (Knowledge.set_returning b) a (functions cfg)),
   if b
   then {| functions_return := functions_return ch ++ [a];
           functions_do_not_return := functions_do_not_return ch |}
   else {| functions_return := functions_return ch;
           functions_do_not_return := functions_do_not_return ch ++ [a] |}).

(** [data['type']] *)
Definition edge_type (d : gmap string attr) : result attr :=
  match d !! "type" with
  | Some t => Ok t
  | None => Raise KeyError
  end.

Definition fake_return : attr := AStr "fake_return".

(** An element of [all_endpoints_returning]: a pair
    [(transition_type, returning)], or a bare value that is no pair. *)
Inductive endpoint_status :=
  | Pair (transition_type : option attr) (r : option bool)
  | Bare (r : option bool).

#[global] Instance endpoint_status_eq_dec : EqDecision endpoint_status.
Proof. solve_decision. Defined.

Section analyze.
Variable enum : gset CFGNode → list CFGNode.
(** The order in which a set of function addresses is iterated. *)
Variable enum_addrs : gset Z → list Z.

(** [self.kb.functions.function(addr=a)] *)
Definition function (cfg : CFGBase) (a : Z) : option Knowledge.Function :=
  functions cfg !! a.

(** Is a fake-return edge of [tmp_graph] to be removed? *)
Definition fakeret_of_noreturn (cfg : CFGBase) (func : Knowledge.Function)
    (e : Knowledge.FuncNode * Knowledge.FuncNode * gmap string attr) : result bool :=
  let* t := edge_type e.2 in
  if bool_decide (t = fake_return) then
    let* edges_ := filterM (λ e', let* t' := edge_type e'.2 in
                           Ok (bool_decide (t' ≠ fake_return)))
                     (out_edges (Knowledge.transition_graph func) e.1.1) in
    match edges_ with
    | [] => Ok false
    | e0 :: _ =>
        match function cfg (Knowledge.node_addr e0.1.2) with
        | None => Raise AttributeError
        | Some target_func =>
            Ok (bool_decide (Knowledge.returning target_func = Some false))
        end
    end
  else Ok false.

(** [in_edges[0][2]['type']], or [None] without incoming edges. *)
Definition first_in_edge_type (tg : DiGraph Knowledge.FuncNode)
    (n : Knowledge.FuncNode) : result (option attr) :=
  match in_edges tg n with
  | [] => Ok None
  | e :: _ => let* t := edge_type e.2 in Ok (Some t)
  end.

(** The temporary end points one local end point contributes. *)
Definition endpoints_of_local (func : Knowledge.Function) (local_endpoint : Knowledge.FuncNode)
  : result (list (option attr * Knowledge.FuncNode)) :=
  let tg := Knowledge.transition_graph func in
  if bool_decide (local_endpoint ∈ nodes tg) then
    let* transition_type := first_in_edge_type tg local_endpoint in
    match out_edges tg local_endpoint
          return result (list (option attr * Knowledge.FuncNode)) with
    | [] => Ok [(transition_type, local_endpoint)]
    | oes =>
        let* kept := filterM (λ e, let* t := edge_type e.2 in
                            Ok (bool_decide (t ≠ fake_return))) oes in
        Ok ((λ e : Knowledge.FuncNode * Knowledge.FuncNode * gmap string attr,
               (transition_type, e.1.2)) <$> kept)
    end
  else Ok [].

(** The entry of [all_endpoints_returning] for one temporary endpoint. *)
Definition classify_endpoint (cfg : CFGBase) (func : Knowledge.Function)
    (te : option attr * Knowledge.FuncNode) : result endpoint_status :=
  let '(transition_type, endpoint) := te in
  if bool_decide (endpoint ∈ Knowledge.nodes func) then
    match endpoint with
    | Knowledge.FunctionNode fa =>
        Ok (Pair transition_type (function cfg fa ≫= Knowledge.returning))
    | Knowledge.HookNode ha =>
        match hooks cfg !! ha ≫= Knowledge.NO_RET with
        | Some no_ret_ => Ok (Pair transition_type (Some (negb no_ret_)))
        | None => Raise AttributeError
        end
    | Knowledge.BlockNode ba =>
        let successors_ := successors (Knowledge.transition_graph func) endpoint in
        let all_noret :=
          foldl (λ all_noret suc,
                   match suc with
                   | Knowledge.FunctionNode sa =>
                       if bool_decide (function cfg sa ≫= Knowledge.returning ≠ Some false)
                       then false else all_noret
                   | _ =>
                       match get_any_node enum (_graph cfg) ba
                               (Some (Knowledge.is_syscall func)) false with
                       | Some n => if negb (no_ret n) then false else all_noret
                       | None => all_noret
                       end
                   end)
                true successors_ in
        Ok (Pair transition_type (if all_noret then Some true else None))
    end
  else
    match function cfg (Knowledge.node_addr endpoint) with
    | None => Ok (Bare None)
    | Some call_target_func => Ok (Bare (Knowledge.returning call_target_func))
    end.

(** [for _, i in all_endpoints_returning]: unpacking a bare value is a
    [TypeError]. *)
Definition unpack (x : endpoint_status) : result (option bool) :=
  match x with
  | Pair _ i => Ok i
  | Bare _ => Raise TypeError
  end.

Fixpoint mapM {A B} (f : A → result B) (l : list A) : result (list B) :=
  match l with
  | [] => Ok []
  | x :: l' => let* y := f x in let* r := mapM f l' in Ok (y :: r)
  end.

(** Lines 534-636: the inference from the transition graph, for a
    function without end points that no hook decides. *)
Definition infer_from_transition_graph (cfg : CFGBase) (ch : changes)
    (a : Z) (func : Knowledge.Function) : result (CFGBase * changes) :=
  let tmp_graph := Knowledge.graph func in
  let* edges_to_remove := filterM (fakeret_of_noreturn cfg func) (edge_list tmp_graph) in
  let* tmp_graph := foldM (λ g e, remove_edge g e.1.1 e.1.2) tmp_graph edges_to_remove in
  let temporary_local_endpoints :=
    filter (λ n, out_degree tmp_graph n = 0%nat)
           (elements (nodes tmp_graph)) in
  match temporary_local_endpoints with
  | [] => Ok (cfg, ch)
  | _ =>
      let* temporary_endpoints := mapM (endpoints_of_local func) temporary_local_endpoints in
      let* all_endpoints_returning :=
        mapM (classify_endpoint cfg func) (concat temporary_endpoints) in
      let* (cfg, ch) :=
        match all_endpoints_returning with
        | [] => Ok (cfg, ch)
        | _ =>
            let* flags := mapM unpack all_endpoints_returning in
            if forallb (λ i, bool_decide (i = Some false)) flags
            then Ok (mark cfg ch a false)
            else Ok (cfg, ch)
        end in
      match all_endpoints_returning with
      | [] => Ok (cfg, ch)
      | _ =>
          if forallb (λ tpl, bool_decide
                               (tpl = Pair (Some (AStr "transition")) (Some true)))
                     all_endpoints_returning
          then Ok (mark cfg ch a true)
          else Ok (cfg, ch)
      end
  end.

(** The body of [for func in all_functions], for the function the store
    holds at address [a]. *)
Definition analyze_function (cfg : CFGBase) (ch : changes) (a : Z)
  : result (CFGBase * changes) :=
  match function cfg a with
  | None => Raise AttributeError
  | Some func =>
      match Knowledge.returning func with
      | Some _ => Ok (cfg, ch)
      | None =>
          match Knowledge.endpoints func with
          | _ :: _ => Ok (mark cfg ch a true)
          | [] =>
              match hooks cfg !! Knowledge.addr func ≫= Knowledge.NO_RET with
              | Some true => Ok (mark cfg ch a false)
              | Some false => Ok (mark cfg ch a true)
              | None => infer_from_transition_graph cfg ch a func
              end
          end
      end
  end.

(** The [for] loop; an exception leaves the store as the functions
    analysed before it left it. *)
Fixpoint analyze_loop (cfg : CFGBase) (ch : changes) (l : list Z)
  : CFGBase * result changes :=
  match l with
  | [] => (cfg, Ok ch)
  | a :: l' =>
      match analyze_function cfg ch a with
      | Ok (cfg', ch') => analyze_loop cfg' ch' l'
      | Raise e => (cfg, Raise e)
      end
  end.

(** The callers, in the call graph, of the changed functions. *)
Definition caller_functions (cfg : CFGBase) (changed : gset Z) : gset Z :=
  foldl (λ acc func_addr,
           if bool_decide (func_addr ∈ nodes (callgraph cfg))
           then acc ∪ list_to_set (predecessors (callgraph cfg) func_addr)
           else acc)
        ∅ (enum_addrs changed).

(** The addresses of [all_functions]; [all_functions |= caller_functions]
    also updates the set [_changed_functions] refers to. *)
Definition all_functions (cfg : CFGBase) : gset Z :=
  match _changed_functions cfg with
  | Some changed => changed ∪ caller_functions cfg changed
  | None => dom (functions cfg)
  end.

(** [CFGBase._analyze_function_features] *)
Definition _analyze_function_features (cfg : CFGBase)
  : CFGBase * result changes :=
  let all := all_functions cfg in
  let cfg' :=
    match _changed_functions cfg with
    | Some _ => with_changed_functions cfg (Some all)
    | None => cfg
    end in
  analyze_loop cfg'
    {| functions_return := []; functions_do_not_return := [] |}
    (enum_addrs all).
End analyze.

(** The canonical iteration orders used to run the model on examples. *)
Definition enum0 (X : gset CFGNode) : list CFGNode := elements X.

Definition pick0 (E : end_index) : option (Z * ckey) :=
  fst <$> head (filter (λ kv, (1 < base.size (kv.2))%nat) (map_to_list E)).

Definition enum_addrs0 (X : gset Z) : list Z := elements X.

End CFG.

(** ** Small control-flow graphs and stores to run the model on *)

Module Examples.
Import CFG.

(** An ordinary block [[a, a + sz)] in the empty calling context, with
    the given instruction addresses. *)
Definition block (a sz : Z) (ins : list Z) : CFGNode :=
  {| addr := a; size := Some sz; callstack_key := []; looping_times := 0;
     is_simprocedure := false; is_syscall := false; no_ret := false;
     has_return := false; function_address := Some 0;
     simrun_key := [Some a; Some sz]; instruction_addrs := ins |}.

Definition edge_data (jumpkind : string) (stmt_idx : Z) : gmap string attr :=
  {[ "jumpkind" := AStr jumpkind; "exit_stmt_idx" := AInt stmt_idx ]}.

Definition cfg_of (g : DiGraph CFGNode) : CFGBase :=
  {| _graph := g; _nodes := ∅; _nodes_by_addr := ∅; _normalized := false;
     _changed_functions := None; functions := ∅;
     callgraph := empty_graph; hooks := ∅ |}.

Definition A := block 0 10 [0; 2; 5; 7].
Definition B := block 5 5 [5; 7].
Definition X := block 0 5 [0].
Definition P := block 20 4 [20].
Definition Q := block 5 10 [5; 7; 10].

(** [A] is entered from [P]; [B] is the tail of [A]. *)
Definition g_split : DiGraph CFGNode :=
  add_edge (add_node (add_node empty_graph A) B) P A (edge_data "Ijk_Boring" 3).

(** [A] loops back to its own start; [B], its tail, jumps there too. *)
Definition g_loop : DiGraph CFGNode :=
  add_edge (add_edge empty_graph A A (edge_data "Ijk_Boring" 3))
           B A (edge_data "Ijk_Boring" 3).

(** [A] and [Q] overlap on [[5, 10)] but end at different addresses. *)
Definition g_overlap : DiGraph CFGNode :=
  add_node (add_node empty_graph A) Q.


(** [normalize] run in the canonical iteration orders; the object itself
    when the run raises or runs out of fuel. *)
Definition normalize0 (fuel : nat) (cfg : CFGBase) : CFGBase :=
  match normalize enum0 pick0 fuel cfg with
  | Some (Ok cfg') => cfg'
  | _ => cfg
  end.



(** The head of [A] that [normalize] makes when it splits [A] at [B]. *)
Definition A_head : CFGNode :=
  set_instruction_addrs (CFGNode_init 0 5 [] (Some 0) [Some 0; Some 10]) [0; 2].

(** A syscall node and an ordinary node at the same address. *)
Definition sys_node : CFGNode :=
  {| addr := 4096; size := Some 0; callstack_key := []; looping_times := 0;
     is_simprocedure := true; is_syscall := true; no_ret := false;
     has_return := false; function_address := Some 4096;
     simrun_key := [Some 4096]; instruction_addrs := [] |}.

Definition g_sys : DiGraph CFGNode :=
  add_node (add_node empty_graph sys_node) (block 4096 8 [4096]).

(** A function made of one block that ends in a return. *)
Definition f_single : Knowledge.Function :=
  {| Knowledge.addr := 4096; Knowledge.returning := None;
     Knowledge.endpoints := [Knowledge.BlockNode 4096];
     Knowledge.graph := add_node empty_graph (Knowledge.BlockNode 4096);
     Knowledge.transition_graph := add_node empty_graph (Knowledge.BlockNode 4096);
     Knowledge.nodes := {[ Knowledge.BlockNode 4096 ]};
     Knowledge.is_syscall := false |}.

(** The same function, already found not to return. *)
Definition f_decided : Knowledge.Function :=
  Knowledge.set_returning false f_single.

(** A hooked function of which no block has been analysed. *)
Definition f_hooked : Knowledge.Function :=
  {| Knowledge.addr := 8192; Knowledge.returning := None;
     Knowledge.endpoints := [];
     Knowledge.graph := empty_graph;
     Knowledge.transition_graph := empty_graph;
     Knowledge.nodes := ∅;
     Knowledge.is_syscall := false |}.

Definition store_of (fs : gmap Z Knowledge.Function)
    (hs : gmap Z Knowledge.Hooker) : CFGBase :=
  {| _graph := empty_graph; _nodes := ∅; _nodes_by_addr := ∅;
     _normalized := false; _changed_functions := None; functions := fs;
     callgraph := empty_graph; hooks := hs |}.

Definition store_single : CFGBase :=
  store_of {[ 4096 := f_single ]} ∅.

Definition store_decided : CFGBase :=
  store_of {[ 4096 := f_decided ]} ∅.

(** The hook declares [NO_RET = True]. *)
Definition store_noret : CFGBase :=
  store_of {[ 8192 := f_hooked ]} {[ 8192 := {| Knowledge.NO_RET := Some true |} ]}.

(** The hooking object has no [NO_RET] attribute. *)
Definition store_plain_hook : CFGBase :=
  store_of {[ 8192 := f_hooked ]} {[ 8192 := {| Knowledge.NO_RET := None |} ]}.

End Examples.

(** ** angr/analyses/cfg_base.py: neighbours and branching nodes *)

Module Neighbours.
Import CFG.

(** [data['jumpkind']] *)
Definition jumpkind_of (data : gmap string attr) : result attr :=
  match data !! "jumpkind" with
  | Some j => Ok j
  | None => Raise KeyError
  end.

Definition Ijk_FakeRet : attr := AStr "Ijk_FakeRet".

(** [get_predecessors(cfgnode, excluding_fakeret=True)] *)
Definition get_predecessors (g : DiGraph CFGNode) (cfgnode : CFGNode)
    (excluding_fakeret : bool) : result (list CFGNode) :=
  if negb excluding_fakeret then
    if bool_decide (cfgnode ∈ nodes g) then Ok (predecessors g cfgnode)
    else Ok []
  else
    foldM (λ predecessors_ e,
             let* jumpkind := jumpkind_of e.2 in
             Ok (if bool_decide (jumpkind ≠ Ijk_FakeRet)
                 then predecessors_ ++ [e.1.1] else predecessors_))
          [] (in_edges g cfgnode).

(** [get_successors(basic_block, excluding_fakeret=True)] *)
Definition get_successors (g : DiGraph CFGNode) (basic_block : CFGNode)
    (excluding_fakeret : bool) : result (list CFGNode) :=
  if negb excluding_fakeret then
    if bool_decide (basic_block ∈ nodes g) then Ok (successors g basic_block)
    else Ok []
  else
    foldM (λ successors_ e,
             let* jumpkind := jumpkind_of e.2 in
             Ok (if bool_decide (jumpkind ≠ Ijk_FakeRet)
                 then successors_ ++ [e.1.2] else successors_))
          [] (out_edges g basic_block).

(** [get_successors_and_jumpkind(basic_block, excluding_fakeret=True)];
    [or] looks at the jump kind only when fake returns are excluded, the
    pair that is appended looks at it in any case. *)
Definition get_successors_and_jumpkind (g : DiGraph CFGNode)
    (basic_block : CFGNode) (excluding_fakeret : bool)
  : result (list (CFGNode * attr)) :=
  foldM (λ successors_ e,
           let* keep :=
             if negb excluding_fakeret then Ok true
             else let* jumpkind := jumpkind_of e.2 in
                  Ok (bool_decide (jumpkind ≠ Ijk_FakeRet)) in
           if keep : bool then
             let* jumpkind := jumpkind_of e.2 in
             Ok (successors_ ++ [(e.1.2, jumpkind)])
           else Ok successors_)
        [] (out_edges g basic_block).

(** [get_node(addr_tuple)] *)
Definition get_node (cfg : CFGBase) (addr_tuple : ckey) : option CFGNode :=
  _nodes cfg !! addr_tuple.

Section branching.
Variable enum : gset CFGNode → list CFGNode.

(** [get_branching_nodes()] *)
Definition get_branching_nodes (g : DiGraph CFGNode) : gset CFGNode :=
  foldl (λ nodes_ n, if bool_decide (2 ≤ out_degree g n)%nat
                     then nodes_ ∪ {[ n ]} else nodes_)
        ∅ (enum (nodes g)).
End branching.

End Neighbours.

(** ** angr/analyses/cfg_base.py: the traversal of make_functions *)

Module Traversal.
Import CFG.

(** [data.get('jumpkind', "")] *)
Definition jumpkind_or_empty (data : gmap string attr) : attr :=
  default (AStr "") (data !! "jumpkind").

(** [jumpkind == 'Ijk_Call' or jumpkind.startswith('Ijk_Sys')]; a jump
    kind that is no string has no [startswith]. *)
Definition is_call_or_syscall (jumpkind : attr) : result bool :=
  match jumpkind with
  | AStr s => Ok (bool_decide (s = "Ijk_Call") || String.prefix "Ijk_Sys" s)
  | AInt _ => Raise AttributeError
  end.

Definition Ijk_Ret : gmap string attr := {[ "jumpkind" := AStr "Ijk_Ret" ]}.

Section bfs.
(** What the callback works on ([blockaddr_to_function], the knowledge
    base), and the callback:
    [callback(src, dst, data, blockaddr_to_function, known_functions)]. *)
Context {St : Type}.
Variable callback :
  St → CFGNode → option CFGNode → option (gmap string attr) → result St.

(** The body of [for src, dst, data in g.out_edges_iter(nbunch=[n], data=True)]. *)
Definition visit_edge (g : DiGraph CFGNode) (traversed : gset CFGNode)
    (n : CFGNode) (acc : St * list CFGNode)
    (e : CFGNode * CFGNode * gmap string attr) : result (St * list CFGNode) :=
  let* st := callback acc.1 e.1.1 (Some e.1.2) (Some e.2) in
  let* call := is_call_or_syscall (jumpkind_or_empty e.2) in
  if call : bool then Ok (st, acc.2)
  else Ok (st, acc.2 ++ filter (λ m, m ∉ traversed) (successors g n)).

(** The body of the [while] loop for a node [n] that is met for the
    first time; [traversed] already holds [n].  [g.out_degree(n)]
    raises for a node that is not in the graph. *)
Definition visit (g : DiGraph CFGNode) (traversed : gset CFGNode)
    (stack : list CFGNode) (st : St) (n : CFGNode)
  : result (St * list CFGNode) :=
  if has_return n then
    let* st := callback st n None (Some Ijk_Ret) in Ok (st, stack)
  else if bool_decide (n ∈ nodes g) then
    if bool_decide (out_degree g n = 0%nat) then
      let* st := callback st n None None in Ok (st, stack)
    else foldM (visit_edge g traversed n) (st, stack) (out_edges g n)
  else Raise NetworkXError.

(** The [while] loop; [None] when the fuel runs out first.  The set
    [traversed] is returned with the state of the callback. *)
Fixpoint bfs_loop (fuel : nat) (g : DiGraph CFGNode) (stack : list CFGNode)
    (traversed : gset CFGNode) (st : St)
  : option (result (St * gset CFGNode)) :=
  match stack with
  | [] => Some (Ok (st, traversed))
  | n :: stack =>
      match fuel with
      | O => None
      | S fuel' =>
          if bool_decide (n ∈ traversed) then bfs_loop fuel' g stack traversed st
          else
            let traversed := traversed ∪ {[ n ]} in
            match visit g traversed stack st n with
            | Ok (st, stack) => bfs_loop fuel' g stack traversed st
            | Raise e => Some (Raise e)
            end
      end
  end.

(** [_graph_bfs_custom(g, starts, callback, blockaddr_to_function,
    known_functions)] *)
Definition _graph_bfs_custom (fuel : nat) (g : DiGraph CFGNode)
    (starts : list CFGNode) (st : St) : option (result (St * gset CFGNode)) :=
  bfs_loop fuel g starts ∅ st.
End bfs.

(** A callback that only keeps what it is called with. *)
Definition event : Type := CFGNode * option CFGNode * option (gmap string attr).

Definition record_call (st : list event) (src : CFGNode) (dst : option CFGNode)
    (data : option (gmap string attr)) : result (list event) :=
  Ok (st ++ [(src, dst, data)]).

End Traversal.

(** ** angr/analyses/cfg_base.py: the handler of the traversal *)

Module Builder.
Import CFG Neighbours Traversal.

Section handler.
(** The knowledge base and the project are not part of the sources:
    the function manager is a parameter, with the methods the handler
    calls.  A [Function] object is stood for by the address it is kept
    under; [returning] reads the attribute of that name. *)
Context {KB : Type}.
(** [project.is_hooked(addr)], with a hooker that is a [SimProcedure]
    with [IS_SYSCALL] set *)
Variable hooked_by_syscall : Z → bool.
Variable _add_node : KB → Z → Z → bool → KB.
Variable returning : KB → Z → option bool.
Variable set_returning : KB → Z → option bool → KB.
Variable _add_return_from : KB → Z → Z → KB.
Variable _add_call_to : KB → Z → Z → Z → bool → KB.
Variable _add_fakeret_to : KB → Z → Z → Z → bool → KB.
Variable _add_transition_to : KB → Z → Z → Z → KB.
Variable _add_outside_transition_to : KB → Z → Z → Z → KB.

(** [known_functions]: the functions recovered before, each with its
    [returning] attribute. *)
Variable known_functions : gmap Z (option bool).

(** The knowledge base and [blockaddr_to_function]. *)
Definition bstate : Type := KB * gmap Z Z.

(** [_addr_to_function(addr, blockaddr_to_function, known_functions)] *)
Definition _addr_to_function (st : bstate) (addr : Z) : bstate * Z :=
  match st.2 !! addr with
  | Some f => (st, f)
  | None =>
      let kb := _add_node st.1 addr addr (hooked_by_syscall addr) in
      let blockaddr_to_function := <[addr := addr]> st.2 in
      let kb :=
        match known_functions !! addr with
        | Some r => set_returning kb addr r
        | None => kb
        end in
      ((kb, blockaddr_to_function), addr)
  end.

(** [if a not in blockaddr_to_function: blockaddr_to_function[a] = f] *)
Definition claim (blockaddr_to_function : gmap Z Z) (a f : Z) : gmap Z Z :=
  match blockaddr_to_function !! a with
  | Some _ => blockaddr_to_function
  | None => <[a := f]> blockaddr_to_function
  end.

(** [not blockaddr_to_function[a] is f] *)
Definition outside (blockaddr_to_function : gmap Z Z) (a f : Z) : bool :=
  negb (bool_decide (blockaddr_to_function !! a = Some f)).

(** [_graph_traversal_handler(src, dst, data, blockaddr_to_function,
    known_functions)] *)
Definition _graph_traversal_handler (st : bstate) (src : CFGNode)
    (dst : option CFGNode) (data : option (gmap string attr))
  : result bstate :=
  let src_addr := addr src in
  let '(st, src_function) := _addr_to_function st src_addr in
  match data with
  | None => Ok st
  | Some data =>
      let* jumpkind := jumpkind_of data in
      let st :=
        if bool_decide (jumpkind = AStr "Ijk_Ret")
        then (_add_return_from st.1 src_function src_addr, st.2)
        else st in
      match dst with
      | None => Ok st
      | Some dst =>
          let dst_addr := addr dst in
          let* call := is_call_or_syscall jumpkind in
          if call : bool then
            let is_syscall :=
              match jumpkind with
              | AStr s => String.prefix "Ijk_Sys" s
              | AInt _ => false
              end in
            let '(st, dst_function) := _addr_to_function st dst_addr in
            let kb := _add_call_to st.1 src_function src_addr dst_addr
                        is_syscall in
            if bool_decide (returning kb dst_function = Some true) then
              let* returning_target := end_addr_of src in
              let blockaddr_to_function :=
                claim st.2 returning_target src_function in
              let to_outside :=
                outside blockaddr_to_function returning_target src_function in
              Ok (_add_fakeret_to kb src_function src_addr returning_target
                    to_outside,
                  blockaddr_to_function)
            else Ok (kb, st.2)
          else if bool_decide (jumpkind = AStr "Ijk_Boring") then
            if bool_decide (is_Some (known_functions !! dst_addr))
               || match st.2 !! dst_addr with
                  | Some f => bool_decide (f ≠ src_function)
                  | None => false
                  end
            then
              let kb := _add_outside_transition_to st.1 src_function src_addr
                          dst_addr in
              Ok (_addr_to_function (kb, st.2) dst_addr).1
            else
              let blockaddr_to_function := claim st.2 dst_addr src_function in
              Ok (_add_transition_to st.1 src_function src_addr dst_addr,
                  blockaddr_to_function)
          else if bool_decide (jumpkind = AStr "Ijk_FakeRet") then
            let blockaddr_to_function := claim st.2 dst_addr src_function in
            let to_outside :=
              outside blockaddr_to_function dst_addr src_function in
            Ok (_add_fakeret_to st.1 src_function src_addr dst_addr to_outside,
                blockaddr_to_function)
          else Ok st
      end
  end.
End handler.

End Builder.

(** ** angr/analyses/cfg_base.py: the PLT stubs of make_functions *)

Module Stubs.
Import CFG.

Section stubs.
(** [Function.is_plt]; the knowledge package is not part of the
    sources. *)
Variable is_plt : Knowledge.Function → bool.
(** The order in which the set [to_remove] is iterated. *)
Variable enum_addrs : gset Z → list Z.

(** "Remove all stubs after PLT entries": the set [to_remove]. *)
Definition to_remove (functions_ : gmap Z Knowledge.Function) : gset Z :=
  foldl (λ to_remove_ fn,
           let addr_ := Knowledge.addr fn - Knowledge.addr fn `mod` 16 in
           if bool_decide (addr_ ≠ Knowledge.addr fn)
              && match functions_ !! addr_ with
                 | Some f => is_plt f
                 | None => false
                 end
           then to_remove_ ∪ {[ Knowledge.addr fn ]} else to_remove_)
        ∅ (map_to_list functions_).*2.

(** [for addr in to_remove: del self.kb.functions[addr]] *)
Definition remove_stubs (functions_ : gmap Z Knowledge.Function)
  : result (gmap Z Knowledge.Function) :=
  foldM (λ fs a, if bool_decide (is_Some (fs !! a)) then Ok (delete a fs)
                 else Raise KeyError)
        functions_ (enum_addrs (to_remove functions_)).
End stubs.

End Stubs.

(** ** angr/analyses/cfg_base.py: executable memory regions *)

Module Regions.

(** The attributes of a section or a segment of a loaded binary that
    [cfg_base.py] reads. *)
Record Region := {
  is_executable : bool;
  min_addr : Z;
  max_addr : Z;
  vaddr : Z;
  memsize : Z
}.

(** [isinstance(b, ELF)], [isinstance(b, PE)], or neither. *)
Inductive backend := ELF | PE | OtherBackend.

Record Binary := {
  kind : backend;
  rebase_addr : Z;
  sections : list Region;
  segments : list Region
}.

(** [self.project.loader]: its objects, its main binary and the
    [cbackers] of its memory, each a start and the length of its
    bytes. *)
Record Loader := {
  all_objects : list Binary;
  main_bin : Binary;
  cbackers : list (Z * Z)
}.

(** The regions one binary contributes. *)
Definition regions_of (force_segment : bool) (b : Binary) : list (Z * Z) :=
  let executable (rs : list Region) :=
    (λ r, (rebase_addr b + min_addr r, rebase_addr b + max_addr r))
      <$> filter (λ r, is_executable r = true) rs in
  match kind b with
  | ELF =>
      if negb force_segment && bool_decide (sections b ≠ [])
      then executable (sections b)
      else executable (segments b)
  | PE => executable (sections b)
  | OtherBackend => []
  end.

(** [sorted(memory_regions, key=lambda x: x[0])]: a stable sort. *)
Fixpoint insert_by_start (x : Z * Z) (l : list (Z * Z)) : list (Z * Z) :=
  match l with
  | [] => [x]
  | y :: l' =>
      if bool_decide (x.1 ≤ y.1)%Z then x :: y :: l'
      else y :: insert_by_start x l'
  end.

Definition sort_by_start (l : list (Z * Z)) : list (Z * Z) :=
  foldr insert_by_start [] l.

(** [_executable_memory_regions(binary=None, force_segment=False)] *)
Definition _executable_memory_regions (loader : Loader)
    (binary : option Binary) (force_segment : bool) : list (Z * Z) :=
  let binaries :=
    match binary with
    | None => all_objects loader
    | Some b => [b]
    end in
  let memory_regions := binaries ≫= regions_of force_segment in
  let memory_regions :=
    match memory_regions with
    | [] => (λ c : Z * Z, (rebase_addr (main_bin loader) + c.1,
                           rebase_addr (main_bin loader) + c.1 + c.2))
              <$> cbackers loader
    | _ => memory_regions
    end in
  sort_by_start memory_regions.

(** [_addr_in_exec_memory_regions(addr)] over [self._exec_mem_regions] *)
Fixpoint _addr_in_exec_memory_regions (_exec_mem_regions : list (Z * Z))
    (addr : Z) : bool :=
  match _exec_mem_regions with
  | [] => false
  | (start, end_) :: rest =>
      if bool_decide (start ≤ addr)%Z && bool_decide (addr < end_)%Z then true
      else _addr_in_exec_memory_regions rest addr
  end.

(** [sum([(end - start) for start, end in self._exec_mem_regions])] *)
Definition _exec_mem_region_size (_exec_mem_regions : list (Z * Z)) : Z :=
  foldr Z.add 0%Z ((λ r : Z * Z, r.2 - r.1)%Z <$> _exec_mem_regions).

(** [_addr_belongs_to_section(addr)] and [_addr_belongs_to_segment(addr)],
    given the object [loader.addr_belongs_to_object(addr)] returns and
    its sections or segments. *)
Fixpoint first_region_at (rebase : Z) (rs : list Region) (addr : Z)
  : option Region :=
  match rs with
  | [] => None
  | r :: rest =>
      let start := (vaddr r + rebase)%Z in
      let end_ := (vaddr r + memsize r + rebase)%Z in
      if bool_decide (start ≤ addr)%Z && bool_decide (addr < end_)%Z
      then Some r else first_region_at rebase rest addr
  end.

Definition _addr_belongs_to_section (obj : option Binary) (addr : Z)
  : option Region :=
  match obj with
  | None => None
  | Some o => first_region_at (rebase_addr o) (sections o) addr
  end.

Definition _addr_belongs_to_segment (obj : option Binary) (addr : Z)
  : option Region :=
  match obj with
  | None => None
  | Some o => first_region_at (rebase_addr o) (segments o) addr
  end.

End Regions.

(** ** More graphs to run the model on *)

Module MoreExamples.
Import CFG Examples.

(** A block whose size is not known yet. *)
Definition unsized : CFGNode :=
  {| addr := 64; size := None; callstack_key := []; looping_times := 0;
     is_simprocedure := false; is_syscall := false; no_ret := false;
     has_return := false; function_address := Some 0;
     simrun_key := [Some 64]; instruction_addrs := [] |}.

Definition g_unsized : DiGraph CFGNode :=
  add_node (add_node empty_graph A) unsized.

(** [P] calls [A]; [B] is where the call returns to. *)
Definition g_call : DiGraph CFGNode :=
  add_edge (add_edge empty_graph P A (edge_data "Ijk_Call" 3))
           P B (edge_data "Ijk_FakeRet" 3).

(** The traversal from [P], with the callback that records its
    calls; nothing when the run raises or runs out of fuel. *)
Definition bfs_from_P : list Traversal.event * gset CFGNode :=
  match Traversal._graph_bfs_custom Traversal.record_call 16 g_call [P] [] with
  | Some (Ok r) => r
  | _ => ([], ∅)
  end.

(** An ELF binary loaded at 4096, with two executable sections out of
    order and one that is not executable. *)
Definition elf_binary : Regions.Binary :=
  {| Regions.kind := Regions.ELF; Regions.rebase_addr := 4096;
     Regions.sections :=
       [ {| Regions.is_executable := true; Regions.min_addr := 512;
            Regions.max_addr := 767; Regions.vaddr := 512;
            Regions.memsize := 256 |};
         {| Regions.is_executable := false; Regions.min_addr := 256;
            Regions.max_addr := 511; Regions.vaddr := 256;
            Regions.memsize := 256 |};
         {| Regions.is_executable := true; Regions.min_addr := 0;
            Regions.max_addr := 255; Regions.vaddr := 0;
            Regions.memsize := 256 |} ];
     Regions.segments := [] |}.

Definition elf_loader : Regions.Loader :=
  {| Regions.all_objects := [elf_binary]; Regions.main_bin := elf_binary;
     Regions.cbackers := [(0, 768)] |}.

(** The handler of the traversal on a knowledge base that keeps
    nothing and takes every function to return. *)
Definition plain_handler :=
  Builder._graph_traversal_handler (KB := unit)
    (λ _, false) (λ kb _ _ _, kb) (λ _ _, Some true) (λ kb _ _, kb)
    (λ kb _ _, kb) (λ kb _ _ _ _, kb) (λ kb _ _ _ _, kb) (λ kb _ _ _, kb)
    (λ kb _ _ _, kb) ∅.

(** The traversal from [P] with that handler. *)
Definition functions_from_P : (unit * gmap Z Z) * gset CFGNode :=
  match Traversal._graph_bfs_custom plain_handler 16 g_call [P] (tt, ∅) with
  | Some (Ok r) => r
  | _ => ((tt, ∅), ∅)
  end.

(** A PLT entry at 4096 and a stub behind it at 4102. *)
Definition plt_entry : Knowledge.Function :=
  {| Knowledge.addr := 4096; Knowledge.returning := None;
     Knowledge.endpoints := []; Knowledge.graph := empty_graph;
     Knowledge.transition_graph := empty_graph; Knowledge.nodes := ∅;
     Knowledge.is_syscall := false |}.

Definition plt_stub : Knowledge.Function :=
  {| Knowledge.addr := 4102; Knowledge.returning := None;
     Knowledge.endpoints := []; Knowledge.graph := empty_graph;
     Knowledge.transition_graph := empty_graph; Knowledge.nodes := ∅;
     Knowledge.is_syscall := false |}.

Definition plt_functions : gmap Z Knowledge.Function :=
  {[ 4096 := plt_entry; 4102 := plt_stub ]}.

End MoreExamples.

(** * Properties *)

(** ** The action log *)

Module ActionFacts.
Import Action.

Lemma foldl_union (s : gset Z) (l : list (gset Z)) :
  foldl (∪) s l = s ∪ ⋃ l.
Proof.
  revert s. induction l as [|x l IH]; intros s; simpl.
  - by rewrite (right_id_L ∅ (∪)).
  - by rewrite IH, (assoc_L (∪)).
Qed.

Lemma frozenset_union_nonempty (l : list (gset Z)) :
  l ≠ [] → frozenset_union l = Ok (⋃ l).
Proof.
  destruct l as [|s l]; [done|]. intros _. simpl.
  by rewrite foldl_union.
Qed.


Definition own_reg_dep (act : string) (addr_ : option arg) : gset Z :=
  match as_int addr_ with
  | Some z => if bool_decide (act = READ) then {[ z ]} else ∅
  | None => ∅
  end.


Lemma _reg_dep_init state region act tmp_ a s d c f fd_ :
  _reg_dep (SimActionData_init state region act tmp_ a s d c f fd_)
  = own_reg_dep act a.
Proof.
  unfold own_reg_dep; simpl. destruct (as_int a); [|done].
  repeat case_bool_decide; done.
Qed.

Lemma data_deps_nonempty (act_ : SimActionData) :
  all_objects act_ ≠ [] →
  data_tmp_deps act_ = Ok (⋃ (tmp_deps <$> all_objects act_) ∪ _tmp_dep act_)
  ∧ data_reg_deps act_ = Ok (⋃ (reg_deps <$> all_objects act_) ∪ _reg_dep act_).
Proof.
  intros Hne.
  unfold data_tmp_deps, data_reg_deps, base_tmp_deps, base_reg_deps.
  by rewrite !frozenset_union_nonempty by (by destruct (all_objects act_)).
Qed.

(** C9: without an explicit exit type, a [SimActionExit] is
    ['conditional'] when no guard condition is given and ['default'] when
    one is given; an explicit exit type is stored as it is. *)
Theorem SimActionExit_exit_type state tgt :
  exit_type (SimActionExit_init state tgt None None) = "conditional"
  ∧ (∀ c, exit_type (SimActionExit_init state tgt (Some c) None) = "default")
  ∧ (∀ cond t, exit_type (SimActionExit_init state tgt cond (Some t)) = t).
Proof. done. Qed.







End ActionFacts.

(** ** Graph queries *)

Module QueryFacts.
Import CFG Examples.

(** A decidable proposition about concrete data, by evaluation. *)
Ltac by_computation := apply (bool_decide_unpack _); vm_compute; exact I.

(** Reading off the result of a run of the model. *)
Definition returns {A} (r : option (result A)) : bool :=
  match r with
  | Some (Ok _) => true
  | _ => false
  end.


Lemma normalize0_run fuel cfg :
  returns (normalize enum0 pick0 fuel cfg) = true →
  normalize enum0 pick0 fuel cfg = Some (Ok (normalize0 fuel cfg)).
Proof.
  unfold normalize0. by destruct (normalize enum0 pick0 fuel cfg) as [[]|].
Qed.

Lemma Ok_inj {A} (a b : A) : Ok a = Ok b → a = b.
Proof. by intros [=]. Qed.

Lemma get_all_nodes_fold (l : list CFGNode) a is_sys acc :
  foldl (λ results cfg_node,
           if bool_decide (addr cfg_node = a) then
             if bool_decide (is_sys = Some true) && is_syscall cfg_node
             then results ++ [cfg_node]
             else if bool_decide (is_sys = Some false)
                     && negb (is_syscall cfg_node)
             then results ++ [cfg_node]
             else results ++ [cfg_node]
           else results) acc l
  = acc ++ filter (λ n, addr n = a) l.
Proof.
  revert acc. induction l as [|n l IH]; intros acc; simpl.
  - by rewrite app_nil_r.
  - rewrite IH, filter_cons.
    destruct (decide (addr n = a)) as [Ha|Ha].
    + rewrite (bool_decide_eq_true_2 _ Ha).
      assert (∀ b1 b2 : bool,
                (if b1 then acc ++ [n] else if b2 then acc ++ [n] else acc ++ [n])
                = acc ++ [n]) as -> by (by intros [] []).
      by rewrite <- (assoc_L (++)).
    + by rewrite (bool_decide_eq_false_2 _ Ha).
Qed.

(** Whatever [is_syscall] is, [get_all_nodes] returns all the nodes at
    the address: also [is_syscall=True] does not filter. *)
Lemma get_all_nodes_unfiltered enum g a is_sys :
  get_all_nodes enum g a is_sys = filter (λ n, addr n = a) (enum (nodes g)).
Proof. unfold get_all_nodes. by rewrite get_all_nodes_fold. Qed.

(** C10: with [is_syscall=False], a syscall node at the address is
    returned all the same: the last [else] branch appends what the two
    guarded branches turn down. *)
Theorem get_all_nodes_False_returns_syscall_node :
  is_syscall sys_node = true
  ∧ sys_node ∈ get_all_nodes enum0 g_sys 4096 (Some false).
Proof.
  split; [done|]. rewrite get_all_nodes_unfiltered.
  apply list_elem_of_filter. split; [done|].
  unfold enum0. apply elem_of_elements. unfold g_sys. simpl. set_solver.
Qed.

(** C7: on the graph [normalize] returns for [g_split], the edge from the
    head of the split block to its tail [B] is a direct edge of the
    graph, the one [normalize] added with a jump kind only, and asking
    for its exit statement index raises [KeyError] (a [LookupError]):
    the lookup fails although the direct edge exists, and no index is
    returned. *)
Lemma get_exit_stmt_idx_on_split_edge :
  normalize enum0 pick0 1 (cfg_of g_split)
    = Some (Ok (normalize0 1 (cfg_of g_split)))
  ∧ has_edge (_graph (normalize0 1 (cfg_of g_split))) A_head B = true
  ∧ get_exit_stmt_idx (_graph (normalize0 1 (cfg_of g_split))) A_head B
    = Raise KeyError
  ∧ is_LookupError KeyError = true.
Proof.
  split; [apply normalize0_run; vm_compute; reflexivity|].
  repeat split; vm_compute; reflexivity.
Qed.

(** X28: The three outcomes of [get_exit_stmt_idx]: it raises [AngrCFGError]
    exactly when there is no direct edge, raises [KeyError] exactly
    when the edge exists and carries no exit statement index, and
    returns [i] exactly when the edge exists and carries the index
    [i]. *)
Theorem get_exit_stmt_idx_spec g src dst :
  (get_exit_stmt_idx g src dst = Raise AngrCFGError
   ↔ has_edge g src dst = false)
  ∧ (get_exit_stmt_idx g src dst = Raise KeyError
     ↔ ∃ d, edges g !! (src, dst) = Some d ∧ d !! "exit_stmt_idx" = None)
  ∧ (∀ i, get_exit_stmt_idx g src dst = Ok i
          ↔ ∃ d, edges g !! (src, dst) = Some d
                 ∧ d !! "exit_stmt_idx" = Some i).
Proof.
  unfold get_exit_stmt_idx, has_edge.
  destruct (edges g !! (src, dst)) as [d|] eqn:He; simpl.
  - destruct (d !! "exit_stmt_idx") as [j|] eqn:Hd.
    + split; [split; intros; discriminate|]. split.
      * split; [discriminate|]. intros (d' & [= <-] & Hn). congruence.
      * intros i. split.
        -- intros [= <-]. by exists d.
        -- intros (d' & [= <-] & Hi). congruence.
    + split; [split; intros; discriminate|]. split.
      * split; [|done]. intros _. by exists d.
      * intros i. split; [discriminate|].
        intros (d' & [= <-] & Hi). congruence.
  - split; [done|]. split.
    + split; [discriminate|]. by intros (d' & ? & _).
    + intros i. split; [discriminate|]. by intros (d' & ? & _).
Qed.

End QueryFacts.

(** ** The return analysis *)

Module ReturnFacts.
Import CFG Examples.

(** Successive passes; before each one the caller sets
    [_changed_functions]. *)
Fixpoint passes (enum : gset CFGNode → list CFGNode)
    (enum_addrs : gset Z → list Z)
    (schedule : list (option (gset Z))) (cfg : CFGBase) : CFGBase :=
  match schedule with
  | [] => cfg
  | c :: schedule' =>
      passes enum enum_addrs schedule'
        (_analyze_function_features enum enum_addrs
           (with_changed_functions cfg c)).1
  end.

(** [cfg'] differs from [cfg] at most in the function at [a]. *)
Definition touches_only (a : Z) (cfg cfg' : CFGBase) : Prop :=
  hooks cfg' = hooks cfg
  ∧ ∀ a', a' ≠ a → functions cfg' !! a' = functions cfg !! a'.

Lemma touches_only_refl a cfg : touches_only a cfg cfg.
Proof. by split. Qed.

Lemma touches_only_trans a cfg1 cfg2 cfg3 :
  touches_only a cfg1 cfg2 → touches_only a cfg2 cfg3 →
  touches_only a cfg1 cfg3.
Proof.
  intros [H1 H2] [H3 H4]. split; [congruence|].
  intros a' Ha. by rewrite H4, H2.
Qed.

Lemma touches_only_mark a cfg b :
  touches_only a cfg
    (with_functions cfg (alter (Knowledge.set_returning b) a (functions cfg))).
Proof.
  split; [done|]. intros a' Ha. simpl. by rewrite lookup_alter_ne.
Qed.

Lemma mark_returning a cfg ch b f :
  functions cfg !! a = Some f →
  functions (mark cfg ch a b).1 !! a = Some (Knowledge.set_returning b f).
Proof. intros Hf. simpl. by rewrite lookup_alter_eq, Hf. Qed.

Ltac case_bind H x :=
  match type of H with
  | bind ?r _ = _ =>
      let E := fresh "E" in
      destruct r as [x|] eqn:E; simpl in H; [|discriminate H]
  end.

Lemma infer_touches_only enum cfg ch a func cfg' ch' :
  infer_from_transition_graph enum cfg ch a func = Ok (cfg', ch') →
  touches_only a cfg cfg'.
Proof.
  unfold infer_from_transition_graph. intros H.
  case_bind H etr. case_bind H tg.
  destruct (filter _ _) as [|le les];
    [by injection H as <- _; apply touches_only_refl|].
  case_bind H tes. case_bind H aer.
  match type of H with
  | bind ?r _ = _ =>
      assert (∃ cfg1 ch1, r = Ok (cfg1, ch1) ∧ touches_only a cfg cfg1)
        as (cfg1 & ch1 & E3 & Ht1)
  end.
  { destruct aer as [|x xs];
      [by eexists _, _; split; [|apply touches_only_refl]|].
    destruct (mapM unpack (x :: xs)); simpl in H; [|discriminate H].
    simpl. destruct (forallb _ _).
    - eexists _, _; split; [done|]. apply touches_only_mark.
    - eexists _, _; split; [done|apply touches_only_refl]. }
  rewrite E3 in H. simpl in H.
  destruct aer as [|x xs]; [by injection H as <- _|].
  destruct (forallb _ _).
  - injection H as <- _. eapply touches_only_trans; [exact Ht1|].
    apply touches_only_mark.
  - by injection H as <- _.
Qed.

(** One function is analysed: the others and the hooks are left alone,
    and nothing happens when the flag is already set. *)
Lemma analyze_function_frame enum cfg ch a cfg' ch' :
  analyze_function enum cfg ch a = Ok (cfg', ch') →
  touches_only a cfg cfg'
  ∧ (∀ f, functions cfg !! a = Some f → is_Some (Knowledge.returning f) →
          cfg' = cfg).
Proof.
  unfold analyze_function, function. intros H.
  destruct (functions cfg !! a) as [func|] eqn:Hf; [|discriminate H].
  destruct (Knowledge.returning func) as [b|] eqn:Hr.
  { injection H as <- _. split; [apply touches_only_refl|done]. }
  split; [|by intros f [= <-] [? ?]; congruence].
  destruct (Knowledge.endpoints func).
  - destruct (hooks cfg !! Knowledge.addr func ≫= Knowledge.NO_RET) as [[]|].
    + injection H as <- _. apply touches_only_mark.
    + injection H as <- _. apply touches_only_mark.
    + by eapply infer_touches_only.
  - injection H as <- _. apply touches_only_mark.
Qed.

(** A function whose flag is set is the same after the loop. *)
Lemma analyze_loop_keeps enum l cfg ch a f :
  functions cfg !! a = Some f → is_Some (Knowledge.returning f) →
  functions (analyze_loop enum cfg ch l).1 !! a = Some f.
Proof.
  revert cfg ch. induction l as [|a0 l IH]; intros cfg ch Hf Hr; [done|].
  simpl. destruct (analyze_function enum cfg ch a0) as [[cfg1 ch1]|e] eqn:Hs;
    [|done].
  apply IH; [|done].
  destruct (analyze_function_frame _ _ _ _ _ _ Hs) as [[_ Hother] Hsame].
  destruct (decide (a = a0)) as [->|Hne].
  - by rewrite (Hsame f Hf Hr).
  - by rewrite Hother.
Qed.

Lemma pass_keeps enum enum_addrs cfg a f :
  functions cfg !! a = Some f → is_Some (Knowledge.returning f) →
  functions (_analyze_function_features enum enum_addrs cfg).1 !! a = Some f.
Proof.
  intros Hf Hr. unfold _analyze_function_features.
  apply analyze_loop_keeps; [|done]. by destruct (_changed_functions cfg).
Qed.

(** C3: a function whose returning flag is set to true or to false has
    the same flag after a pass of [_analyze_function_features], and after
    any number of further passes, whatever functions they are told have
    changed. *)
Theorem returning_flag_never_flips enum enum_addrs cfg a f b :
  functions cfg !! a = Some f →
  Knowledge.returning f = Some b →
  Knowledge.returning <$>
    functions (_analyze_function_features enum enum_addrs cfg).1 !! a
    = Some (Some b)
  ∧ ∀ schedule,
      Knowledge.returning <$>
        functions (passes enum enum_addrs schedule cfg) !! a = Some (Some b).
Proof.
  intros Hf Hr. split.
  - rewrite (pass_keeps _ _ _ _ f); [by rewrite <- Hr|done|by rewrite Hr].
  - intros schedule. revert cfg Hf.
    induction schedule as [|c s IH]; intros cfg Hf; simpl.
    + by rewrite Hf, <- Hr.
    + apply IH. apply pass_keeps; [done|by rewrite Hr].
Qed.

(** A function with an end point that was found not to return stays
    so. *)
Lemma returning_flag_never_flips_witness :
  functions store_decided !! 4096 = Some f_decided
  ∧ Knowledge.returning f_decided = Some false
  ∧ Knowledge.returning <$>
      functions (_analyze_function_features enum0 enum_addrs0 store_decided).1
        !! 4096 = Some (Some false).
Proof.
  split; [reflexivity|]. split; [reflexivity|].
  exact (proj1 (returning_flag_never_flips enum0 enum_addrs0 store_decided
                  4096 f_decided false eq_refl eq_refl)).
Defined.

(** Up to the first visit of [a], the function at [a] is as it was; the
    visit then decides the flag, and it is kept. *)
Lemma analyze_loop_decides enum l cfg ch a f b cfg' ch' :
  a ∈ l →
  functions cfg !! a = Some f →
  (∀ cfg0 ch0, hooks cfg0 = hooks cfg → functions cfg0 !! a = Some f →
     analyze_function enum cfg0 ch0 a = Ok (mark cfg0 ch0 a b)) →
  analyze_loop enum cfg ch l = (cfg', Ok ch') →
  Knowledge.returning <$> functions cfg' !! a = Some (Some b).
Proof.
  revert cfg ch. induction l as [|a0 l IH]; intros cfg ch Hin Hf Hstep Hloop.
  { by apply elem_of_nil in Hin. }
  simpl in Hloop.
  destruct (decide (a0 = a)) as [->|Hne].
  - rewrite (Hstep cfg ch eq_refl Hf) in Hloop.
    destruct (mark cfg ch a b) as [cfg1 ch1'] eqn:Em.
    assert (Hf1 : functions cfg1 !! a = Some (Knowledge.set_returning b f)).
    { change cfg1 with ((cfg1, ch1').1). rewrite <- Em. by apply mark_returning. }
    pose proof (analyze_loop_keeps enum l cfg1 ch1' a _ Hf1
                  (ltac:(by eexists))) as Hk.
    rewrite Hloop in Hk. simpl in Hk. by rewrite Hk.
  - apply elem_of_cons in Hin as [->|Hin]; [done|].
    destruct (analyze_function enum cfg ch a0) as [[cfg1 ch1]|e] eqn:Hs;
      [|by injection Hloop].
    destruct (analyze_function_frame _ _ _ _ _ _ Hs) as [[Hh Hother] _].
    apply (IH cfg1 ch1); [done| |  |done].
    + by rewrite Hother.
    + intros cfg0 ch0 Hh0. apply Hstep. congruence.
Qed.

Lemma pass_decides enum enum_addrs cfg a f b cfg' ch' :
  (∀ X x, x ∈ enum_addrs X ↔ x ∈ X) →
  a ∈ all_functions enum_addrs cfg →
  functions cfg !! a = Some f →
  (∀ cfg0 ch0, hooks cfg0 = hooks cfg → functions cfg0 !! a = Some f →
     analyze_function enum cfg0 ch0 a = Ok (mark cfg0 ch0 a b)) →
  _analyze_function_features enum enum_addrs cfg = (cfg', Ok ch') →
  Knowledge.returning <$> functions cfg' !! a = Some (Some b).
Proof.
  intros Henum Hin Hf Hstep. unfold _analyze_function_features.
  apply analyze_loop_decides with (f := f).
  - by apply Henum.
  - by destruct (_changed_functions cfg).
  - intros cfg0 ch0 Hh. apply Hstep. rewrite Hh.
    by destruct (_changed_functions cfg).
Qed.


Lemma enum_addrs0_spec X x : x ∈ enum_addrs0 X ↔ x ∈ X.
Proof. apply elem_of_elements. Qed.


(** C5, as stated, fails: a function hooked by an object that has no
    [NO_RET] attribute is hooked and not flagged no-return, yet the pass
    goes on to its transition graph, and here leaves the flag unknown. *)
Lemma plain_hook_stays_unknown :
  is_Some (hooks store_plain_hook !! 8192)
  ∧ (_analyze_function_features enum0 enum_addrs0 store_plain_hook).2
    = Ok {| functions_return := []; functions_do_not_return := [] |}
  ∧ Knowledge.returning <$>
      functions (_analyze_function_features enum0 enum_addrs0 store_plain_hook).1
        !! 8192 = Some None.
Proof. split; [by eexists|]. by vm_compute. Qed.

(** C5, amended: for a function with unknown return status and no end
    points whose address is hooked by an object that declares
    [NO_RET], the visit of the function by the analyzer raises nothing
    and sets its flag, to false when [NO_RET] is set and to true when
    it is not, and so does a pass that has the function among its
    candidates. *)
Theorem hooked_function_returning enum enum_addrs cfg a f h no_ret_ :
  functions cfg !! a = Some f →
  Knowledge.returning f = None →
  Knowledge.endpoints f = [] →
  hooks cfg !! Knowledge.addr f = Some h →
  Knowledge.NO_RET h = Some no_ret_ →
  (∀ ch, ∃ cfg1 ch1,
     analyze_function enum cfg ch a = Ok (cfg1, ch1)
     ∧ Knowledge.returning <$> functions cfg1 !! a
       = Some (Some (negb no_ret_)))
  ∧ (∀ cfg' ch',
       (∀ X x, x ∈ enum_addrs X ↔ x ∈ X) →
       a ∈ all_functions enum_addrs cfg →
       _analyze_function_features enum enum_addrs cfg = (cfg', Ok ch') →
       Knowledge.returning <$> functions cfg' !! a
       = Some (Some (negb no_ret_))).
Proof.
  intros Hf Hr He Hh Hn.
  assert (Hstep : ∀ cfg0 ch0, hooks cfg0 = hooks cfg →
            functions cfg0 !! a = Some f →
            analyze_function enum cfg0 ch0 a
            = Ok (mark cfg0 ch0 a (negb no_ret_))).
  { intros cfg0 ch0 Hh0 Hf0. unfold analyze_function, function.
    rewrite Hf0, Hr, He, Hh0, Hh. simpl. rewrite Hn. by destruct no_ret_. }
  split.
  - intros ch.
    exists (mark cfg ch a (negb no_ret_)).1, (mark cfg ch a (negb no_ret_)).2.
    split; [by rewrite Hstep|].
    by rewrite (mark_returning _ _ _ _ f).
  - intros cfg' ch' Henum Hin Hpass.
    eapply pass_decides; [done|done|exact Hf|exact Hstep|exact Hpass].
Qed.

Lemma hooked_function_returning_witness :
  Knowledge.returning <$>
    functions (_analyze_function_features enum0 enum_addrs0 store_noret).1
      !! 8192 = Some (Some false).
Proof.
  destruct (_analyze_function_features enum0 enum_addrs0 store_noret)
    as [cfg' r] eqn:Hpass.
  assert (∃ ch', r = Ok ch') as [ch' ->].
  { apply (f_equal snd) in Hpass. vm_compute in Hpass. rewrite <- Hpass. eauto. }
  assert (Hf : functions store_noret !! 8192 = Some f_hooked)
    by reflexivity.
  assert (Hr : Knowledge.returning f_hooked = None) by reflexivity.
  assert (He : Knowledge.endpoints f_hooked = []) by reflexivity.
  assert (Hh : hooks store_noret !! Knowledge.addr f_hooked
               = Some {| Knowledge.NO_RET := Some true |}) by reflexivity.
  apply (proj2 (hooked_function_returning enum0 enum_addrs0 store_noret 8192
                  f_hooked _ true Hf Hr He Hh eq_refl)
           cfg' ch' enum_addrs0_spec).
  - apply elem_of_dom. by eexists.
  - exact Hpass.
Defined.

End ReturnFacts.

(** ** networkx graphs *)

Section graph_facts.
Context {V : Type} `{Countable V}.
Implicit Types (g : DiGraph V) (n u v : V).
Implicit Types (e : V * V * gmap string attr) (l : list (V * V * gmap string attr)).

(** Every edge joins two nodes of the graph. *)
Definition graph_wf g : Prop :=
  ∀ u v, is_Some (edges g !! (u, v)) → u ∈ nodes g ∧ v ∈ nodes g.

Lemma elem_of_in_edges g n e :
  e ∈ in_edges g n ↔ edges g !! e.1 = Some e.2 ∧ e.1.2 = n.
Proof.
  unfold in_edges, edge_list. rewrite list_elem_of_filter.
  destruct e as [k d]. rewrite elem_of_map_to_list. simpl. tauto.
Qed.

Lemma NoDup_in_edges g n : NoDup ((in_edges g n).*1).
Proof.
  apply NoDup_fmap_fst.
  - intros k d1 d2 H1%elem_of_in_edges H2%elem_of_in_edges. simpl in *.
    destruct H1 as [H1 _], H2 as [H2 _]. congruence.
  - apply NoDup_filter, NoDup_map_to_list.
Qed.

Lemma elem_of_predecessors g n u :
  u ∈ predecessors g n ↔ is_Some (edges g !! (u, n)).
Proof.
  unfold predecessors. rewrite list_elem_of_fmap. split.
  - intros ([[u' v'] d] & -> & [He Hv]%elem_of_in_edges). simpl in *.
    subst v'. eauto.
  - intros [d Hd]. exists (u, n, d). split; [done|].
    by apply elem_of_in_edges.
Qed.

(** The loop [for p, _, _ in original_predecessors: graph.remove_edge(p, n)]
    never raises, and removes the edges it is given. *)
Lemma remove_edges_fold g n l :
  NoDup (l.*1) →
  (∀ e, e ∈ l → is_Some (edges g !! e.1) ∧ e.1.2 = n) →
  ∃ g', foldM (λ g e, remove_edge g e.1.1 n) g l = Ok g'
        ∧ nodes g' = nodes g
        ∧ ∀ k, edges g' !! k = if decide (k ∈ l.*1) then None else edges g !! k.
Proof.
  revert g. induction l as [|e l IH]; intros g Hnd Hl.
  { exists g. split; [done|]. split; [done|]. intros k.
    by rewrite decide_False by apply not_elem_of_nil. }
  rewrite fmap_cons in Hnd. apply NoDup_cons in Hnd as [Hnotin Hnd].
  destruct (Hl e) as [[d Hd] Hn]; [by left|].
  destruct e as [[u v] d']. simpl in *. subst v.
  unfold remove_edge at 1, has_edge.
  rewrite bool_decide_eq_true_2 by eauto. simpl.
  destruct (IH {| nodes := nodes g; edges := delete (u, n) (edges g) |} Hnd)
    as (g' & Hg' & Hnodes & Hedges).
  { intros e He. destruct (Hl e) as [Hsome ?]; [by right|]. split; [|done].
    simpl. rewrite lookup_delete_ne; [done|].
    intros Heq. apply Hnotin. rewrite Heq.
    by apply list_elem_of_fmap_2. }
  exists g'. split; [done|]. split; [done|].
  intros k. rewrite Hedges. simpl.
  destruct (decide (k = (u, n))) as [->|Hk].
  - rewrite lookup_delete_eq.
    rewrite (decide_True (P := (u, n) ∈ _ :: _)) by (by left).
    by case_decide.
  - rewrite lookup_delete_ne by done.
    destruct (decide (k ∈ l.*1)).
    + by rewrite (decide_True (P := k ∈ _ :: _)) by (by right).
    + rewrite (decide_False (P := k ∈ _ :: _)); [done|].
      intros [?|?]%elem_of_cons; done.
Qed.

Lemma remove_node_lookup g n g' :
  remove_node g n = Ok g' →
  n ∈ nodes g ∧ nodes g' = nodes g ∖ {[ n ]}
  ∧ ∀ u v, edges g' !! (u, v)
           = if decide (u = n ∨ v = n) then None else edges g !! (u, v).
Proof.
  unfold remove_node. case_bool_decide; [|done]. intros [= <-]. simpl.
  split; [done|]. split; [done|]. intros u v.
  destruct (decide (u = n ∨ v = n)) as [Hor|Hnor].
  - apply map_lookup_filter_None. right. intros d _ [? ?]. simpl in *.
    destruct Hor; done.
  - destruct (edges g !! (u, v)) as [d|] eqn:He.
    + apply map_lookup_filter_Some. split; [done|]. simpl. tauto.
    + apply map_lookup_filter_None. by left.
Qed.

(** The loop [for p, _, data in original_predecessors:
    graph.add_edge(p, new_node, data)]. *)
Lemma add_edges_fold_nodes g r l :
  nodes (foldl (λ g e, add_edge g e.1.1 r e.2) g l)
  = nodes g ∪ list_to_set ((λ e, e.1.1) <$> l)
    ∪ (if l is [] then ∅ else {[ r ]}).
Proof.
  revert g. induction l as [|e l IH]; intros g; simpl.
  - set_solver.
  - rewrite IH. simpl. destruct l; set_solver.
Qed.

Lemma add_edges_fold_other g r l u v :
  v ≠ r ∨ u ∉ (λ e, e.1.1) <$> l →
  edges (foldl (λ g e, add_edge g e.1.1 r e.2) g l) !! (u, v)
  = edges g !! (u, v).
Proof.
  revert g. induction l as [|e l IH]; intros g Hor; simpl; [done|].
  rewrite IH.
  - simpl. apply lookup_insert_ne. intros [= Hu Hv].
    destruct Hor as [?|Hnotin]; [done|]. apply Hnotin. rewrite <- Hu. by left.
  - destruct Hor as [?|Hnotin]; [by left|]. right.
    intros ?. apply Hnotin. by right.
Qed.

Lemma add_edges_fold_edge g r l u d :
  NoDup ((λ e, e.1.1) <$> l) →
  (∃ v, (u, v, d) ∈ l) →
  edges (foldl (λ g e, add_edge g e.1.1 r e.2) g l) !! (u, r)
  = Some (d ∪ default ∅ (edges g !! (u, r))).
Proof.
  revert g. induction l as [|e l IH]; intros g Hnd [v Hin].
  { by apply elem_of_nil in Hin. }
  rewrite fmap_cons in Hnd. apply NoDup_cons in Hnd as [Hnotin Hnd].
  simpl. apply elem_of_cons in Hin as [<-|Hin].
  - rewrite add_edges_fold_other by (by right). simpl.
    by rewrite lookup_insert_eq.
  - rewrite IH by eauto. simpl. rewrite lookup_insert_ne; [done|].
    intros [= Heq]. apply Hnotin. rewrite Heq.
    by apply (list_elem_of_fmap_2 (λ e, e.1.1) _ (u, v, d)).
Qed.

Lemma NoDup_in_edges_sources g n :
  NoDup ((λ e, e.1.1) <$> in_edges g n).
Proof.
  assert (((λ e, e.1.1) <$> in_edges g n) = fst <$> (in_edges g n).*1) as ->.
  { by rewrite <- list_fmap_compose. }
  apply NoDup_fmap_2_strong; [|apply NoDup_in_edges].
  intros [u1 v1] [u2 v2] H1 H2 Heq. simpl in Heq. subst u2.
  apply list_elem_of_fmap in H1 as ([? ?] & [= <-] & [_ ?]%elem_of_in_edges).
  apply list_elem_of_fmap in H2 as ([? ?] & [= <-] & [_ ?]%elem_of_in_edges).
  simpl in *. congruence.
Qed.

End graph_facts.

(** ** normalize *)

Module NormalizeFacts.
Import CFG Examples.

(** *** Sorting by size *)

Definition by_size (n m : CFGNode) : Prop := size_le (size n) (size m) = true.

Lemma size_le_total a b : size_le a b = false → size_le b a = true.
Proof.
  destruct a, b; simpl; try done.
  intros Hf%bool_decide_eq_false. apply bool_decide_eq_true. lia.
Qed.

Lemma size_le_trans a b c :
  size_le a b = true → size_le b c = true → size_le a c = true.
Proof.
  destruct a, b, c; simpl; try done.
  intros H1%bool_decide_eq_true H2%bool_decide_eq_true.
  apply bool_decide_eq_true. lia.
Qed.

Lemma insert_by_size_perm n l : insert_by_size n l ≡ₚ n :: l.
Proof.
  induction l as [|m l IH]; simpl; [done|].
  destruct (size_le (size n) (size m)); [done|].
  by rewrite IH, Permutation_swap.
Qed.

Lemma sort_by_size_perm l : sort_by_size l ≡ₚ l.
Proof.
  induction l as [|n l IH]; simpl; [done|].
  by rewrite insert_by_size_perm, IH.
Qed.

Lemma insert_by_size_sorted n l :
  StronglySorted by_size l → StronglySorted by_size (insert_by_size n l).
Proof.
  induction 1 as [|m l Hs IH Hall]; simpl.
  { repeat constructor. }
  destruct (size_le (size n) (size m)) eqn:Hle.
  - constructor; [by constructor|]. constructor; [done|].
    eapply Forall_impl; [exact Hall|]. intros x Hx.
    by eapply size_le_trans.
  - constructor; [done|].
    rewrite insert_by_size_perm. constructor; [|done].
    by apply size_le_total.
Qed.

Lemma sort_by_size_sorted l : StronglySorted by_size (sort_by_size l).
Proof.
  induction l as [|n l IH]; simpl; [constructor|].
  by apply insert_by_size_sorted.
Qed.

(** *** Geometry of nodes *)

Definition end_of (n : CFGNode) : Z := addr n + default 0 (size n).

Definition overlap (n m : CFGNode) : Prop :=
  addr n < end_of m ∧ addr m < end_of n.

Definition disjoint_ranges (n m : CFGNode) : Prop :=
  end_of n ≤ addr m ∨ end_of m ≤ addr n.

Definition group (E : end_index) (t : Z * ckey) : gset CFGNode :=
  default ∅ (E !! t).

Lemma group_index_add E t c t' :
  group (index_add E t c) t'
  = if decide (t = t') then group E t ∪ {[ c ]} else group E t'.
Proof.
  unfold group, index_add. case_decide as Ht.
  - subst. by rewrite lookup_insert_eq.
  - by rewrite lookup_insert_ne.
Qed.

Lemma group_insert E t X t' :
  group (<[t := X]> E) t' = if decide (t = t') then X else group E t'.
Proof.
  unfold group. case_decide as Ht.
  - subst. by rewrite lookup_insert_eq.
  - by rewrite lookup_insert_ne.
Qed.

(** *** One member of a round *)

Section with_order.
Variable enum : gset CFGNode → list CFGNode.
Hypothesis enum_spec : ∀ X, enum X ≡ₚ elements X.

Lemma elem_of_enum X n : n ∈ enum X ↔ n ∈ X.
Proof. by rewrite enum_spec, elem_of_elements. Qed.

(** What [rewire] does to the graph. *)
Lemma rewire_spec g n r others s :
  n ∈ nodes g →
  ∃ g', rewire g n r (s :: others) s = Ok g'
    ∧ nodes g'
      = nodes g ∖ {[ n ]} ∪ list_to_set (predecessors g n) ∪ {[ r ]} ∪ {[ s ]}
    ∧ (∀ u v, is_Some (edges g' !! (u, v)) →
         (is_Some (edges g !! (u, v)) ∧ u ≠ n ∧ v ≠ n)
         ∨ (v = r ∧ is_Some (edges g !! (u, n)))
         ∨ (u = r ∧ v = s))
    ∧ (∀ p d, edges g !! (p, n) = Some d → (p, r) ≠ (r, s) →
         ∃ d', edges g' !! (p, r) = Some d' ∧ d ⊆ d')
    ∧ (∃ d, edges g' !! (r, s) = Some d
            ∧ d !! "jumpkind" = Some (AStr "Ijk_Boring")).
Proof.
  intros Hn. unfold rewire.
  destruct (remove_edges_fold g n (in_edges g n)) as (g1 & -> & Hn1 & He1).
  { apply NoDup_in_edges. }
  { intros e [He ?]%elem_of_in_edges. split; [by rewrite He|done]. }
  simpl.
  destruct (remove_node g1 n) as [g2|] eqn:Hg2; cycle 1.
  { exfalso. unfold remove_node in Hg2.
    rewrite bool_decide_eq_true_2 in Hg2 by (by rewrite Hn1). done. }
  apply remove_node_lookup in Hg2 as (_ & Hn2 & He2). simpl.
  rewrite filter_cons, decide_True by done.
  set (g3 := foldl (λ g0 e, add_edge g0 e.1.1 r e.2) g2 (in_edges g n)).
  eexists. split; [done|].
  assert (Hn3 : nodes g3 = nodes g2 ∪ list_to_set (predecessors g n)
                            ∪ (if in_edges g n is [] then ∅ else {[ r ]})).
  { apply add_edges_fold_nodes. }
  split; [|split; [|split]].
  - simpl. rewrite Hn3, Hn2, Hn1. destruct (in_edges g n); set_solver.
  - intros u v Huv. simpl in Huv.
    destruct (decide ((r, s) = (u, v))) as [[= <- <-]|Hne]; [by auto|].
    rewrite lookup_insert_ne in Huv by done.
    destruct (decide (v = r ∧ u ∈ predecessors g n)) as [[-> Hu]|Hnot].
    { right; left. split; [done|]. by apply elem_of_predecessors. }
    subst g3. rewrite add_edges_fold_other in Huv; cycle 1.
    { destruct (decide (v = r)); [|by left]. right. intros ?. by apply Hnot. }
    rewrite He2 in Huv. case_decide as Hor; [by destruct Huv|].
    rewrite He1 in Huv. case_decide; [by destruct Huv|].
    left. split; [done|]. tauto.
  - intros p d Hd Hne. simpl. rewrite lookup_insert_ne by done.
    subst g3. rewrite (add_edges_fold_edge _ _ _ p d).
    + eexists. split; [done|]. apply map_union_subseteq_l.
    + apply NoDup_in_edges_sources.
    + exists n. by apply elem_of_in_edges.
  - simpl. rewrite lookup_insert_eq. eexists. split; [done|].
    apply lookup_union_Some_l. done.
Qed.

(** The node [find_or_create] returns. *)
Lemma find_or_create_spec E ck n new_size :
  let tpl := (addr n + new_size, callstack_key n) in
  let r := (find_or_create enum E ck n new_size).1 in
  let E' := (find_or_create enum E ck n new_size).2 in
  addr r = addr n
  ∧ ((r ∈ group E tpl ∧ E' = E)
     ∨ ((∀ i, i ∈ group E tpl → addr i ≠ addr n)
        ∧ r = set_instruction_addrs
                (CFGNode_init (addr n) new_size ck (function_address n)
                   (simrun_key n))
                (filter (λ ins_addr, ins_addr < addr n + new_size)
                   (instruction_addrs n))
        ∧ E' = index_add E tpl r)).
Proof.
  intros tpl r E'. subst r E'. unfold find_or_create. fold tpl.
  destruct (match E !! tpl with
            | Some group => filter (λ i, addr i = addr n) (enum group)
            | None => []
            end) as [|i l] eqn:Hex; simpl.
  - split; [done|]. right. split; [|done].
    intros i Hi Ha. unfold group in Hi.
    destruct (E !! tpl) as [X|]; simpl in Hi; [|set_solver].
    assert (i ∈ filter (λ i, addr i = addr n) (enum X)) as Hin.
    { apply list_elem_of_filter. split; [done|]. by apply elem_of_enum. }
    rewrite Hex in Hin. by apply elem_of_nil in Hin.
  - assert (i ∈ i :: l) as Hin by left. rewrite <- Hex in Hin.
    destruct (E !! tpl) as [X|] eqn:HX; [|by apply elem_of_nil in Hin].
    apply list_elem_of_filter in Hin as [Ha Hin%elem_of_enum].
    split; [done|]. left. split; [|done]. unfold group. by rewrite HX.
Qed.

Lemma rewire_ok_inv g n r all s g' :
  rewire g n r all s = Ok g' → n ∈ nodes g.
Proof.
  unfold rewire.
  destruct (remove_edges_fold g n (in_edges g n)) as (g1 & -> & Hn1 & _).
  { apply NoDup_in_edges. }
  { intros e [He ?]%elem_of_in_edges. split; [by rewrite He|done]. }
  simpl. unfold remove_node. case_bool_decide as Hn; [|done].
  by rewrite <- Hn1.
Qed.

(** What [break_node] does for one member [n] of the group. *)
Lemma break_node_spec smallest others ck st0 n st1 :
  break_node enum (smallest :: others) smallest ck st0 n = Ok st1 →
  (addr smallest - addr n = 0 → st1 = st0)
  ∧ (addr smallest - addr n ≠ 0 →
     ∃ r, addr r = addr n
       ∧ ((r ∈ group (ns_end_addresses st0) (addr smallest, callstack_key n)
           ∧ ns_end_addresses st1 = ns_end_addresses st0)
          ∨ ((∀ i, i ∈ group (ns_end_addresses st0)
                       (addr smallest, callstack_key n) → addr i ≠ addr n)
             ∧ size r = Some (addr smallest - addr n)
             ∧ callstack_key r = ck
             ∧ is_simprocedure r = false
             ∧ instruction_addrs r
               = filter (λ ins_addr, ins_addr < addr smallest)
                        (instruction_addrs n)
             ∧ ns_end_addresses st1
               = index_add (ns_end_addresses st0)
                   (addr smallest, callstack_key n) r))
       ∧ nodes (ns_graph st1)
         = nodes (ns_graph st0) ∖ {[ n ]}
           ∪ list_to_set (predecessors (ns_graph st0) n)
           ∪ {[ r ]} ∪ {[ smallest ]}
       ∧ (∀ p d, edges (ns_graph st0) !! (p, n) = Some d →
            ∃ d', edges (ns_graph st1) !! (p, r) = Some d' ∧ d ⊆ d')
       ∧ (∃ d, edges (ns_graph st1) !! (r, smallest) = Some d
               ∧ d !! "jumpkind" = Some (AStr "Ijk_Boring"))).
Proof.
  unfold break_node. case_bool_decide as Hz.
  { intros [= <-]. split; [done|]. by intros []. }
  intros Hrun. split; [done|]. intros _.
  pose proof (find_or_create_spec (ns_end_addresses st0) ck n
                (addr smallest - addr n)) as Hfc.
  destruct (find_or_create enum (ns_end_addresses st0) ck n
              (addr smallest - addr n)) as [r E'] eqn:Hfoc.
  simpl in Hfc.
  replace (addr n + (addr smallest - addr n)) with (addr smallest) in Hfc by lia.
  destruct Hfc as [Har Hcase].
  destruct (rewire (ns_graph st0) n r (smallest :: others) smallest)
    as [g'|] eqn:Hrw; [|done].
  simpl in Hrun. injection Hrun as <-. simpl.
  pose proof (rewire_ok_inv _ _ _ _ _ _ Hrw) as Hn.
  destruct (rewire_spec (ns_graph st0) n r others smallest Hn)
    as (g'' & Hrw' & Hnodes & _ & Hin & Hout).
  rewrite Hrw in Hrw'. injection Hrw' as <-.
  exists r. split; [done|]. split; [|split; [done|split; [|done]]].
  - destruct Hcase as [[Hr ->]|(Hfresh & -> & ->)]; [by left|].
    right. simpl.
    replace (addr n + (addr smallest - addr n)) with (addr smallest) by lia.
    done.
  - intros p d Hd. apply Hin; [done|]. intros [= -> Hrs].
    apply Hz. rewrite <- Hrs, Har. lia.
Qed.



(** *** The invariant of the [while] loop *)

(** A node of the index sits in the group of its own end address and
    call-stack key, has a positive size and is no SimProcedure. *)
Definition member_ok (n : CFGNode) (t : Z * ckey) : Prop :=
  is_simprocedure n = false
  ∧ ∃ z, size n = Some z ∧ 0 < z ∧ t = (addr n + z, callstack_key n).

Lemma member_ok_inj n t t' : member_ok n t → member_ok n t' → t = t'.
Proof. intros (_ & z & Hz & _ & ->) (_ & z' & Hz' & _ & ->). congruence. Qed.

Lemma member_ok_end n t :
  member_ok n t → end_of n = t.1 ∧ callstack_key n = t.2 ∧ addr n < t.1.
Proof.
  intros (_ & z & Hz & Hpos & ->). unfold end_of. rewrite Hz. simpl.
  split; [done|]. split; [done|]. lia.
Qed.

(** No edge joins two nodes that start at the same address in the same
    context; in particular no node is its own predecessor. *)
Definition no_loop_edges (g : DiGraph CFGNode) : Prop :=
  ∀ u v, is_Some (edges g !! (u, v)) →
         ¬ (addr u = addr v ∧ callstack_key u = callstack_key v).

Definition indexed (g : DiGraph CFGNode) (E : end_index) : Prop :=
  ∀ n, n ∈ nodes g → is_simprocedure n = false →
       ∃ z, size n = Some z ∧ n ∈ group E (addr n + z, callstack_key n).

Definition one_per_start (E : end_index) : Prop :=
  ∀ t n m, n ∈ group E t → m ∈ group E t → addr n = addr m → n = m.

(** Nodes of one context overlap only when they end at the same
    address. *)
Definition overlaps_share_end (g : DiGraph CFGNode) : Prop :=
  ∀ n m, n ∈ nodes g → m ∈ nodes g →
         is_simprocedure n = false → is_simprocedure m = false →
         callstack_key n = callstack_key m →
         overlap n m → end_of n = end_of m.

Record inv (g : DiGraph CFGNode) (E : end_index) : Prop := {
  inv_wf : graph_wf g;
  inv_loop : no_loop_edges g;
  inv_indexed : indexed g E;
  inv_member : ∀ t n, n ∈ group E t → member_ok n t ∧ n ∈ nodes g;
  inv_unique : one_per_start E;
  inv_suffix : overlaps_share_end g
}.

(** Within a round for the group [G] with smallest node [s]: the end a
    node has once the round is over. *)
Definition vend (G : gset CFGNode) (s x : CFGNode) : Z :=
  if decide (x ∈ G ∧ x ≠ s) then addr s else end_of x.

Definition mid_overlaps (G : gset CFGNode) (s : CFGNode)
    (g : DiGraph CFGNode) : Prop :=
  ∀ n m, n ∈ nodes g → m ∈ nodes g →
         is_simprocedure n = false → is_simprocedure m = false →
         callstack_key n = callstack_key m →
         addr n < vend G s m → addr m < vend G s n →
         vend G s n = vend G s m.

(** The invariant of the loop over [other_nodes]; [R] holds the members
    of the group already replaced. *)
Record mid (t : Z * ckey) (G : gset CFGNode) (s : CFGNode)
    (g : DiGraph CFGNode) (E : end_index) (R : gset CFGNode) : Prop := {
  mid_wf : graph_wf g;
  mid_loop : no_loop_edges g;
  mid_group : group E t = G;
  mid_indexed : indexed g E;
  mid_member : ∀ t' m, m ∈ group E t' → member_ok m t' ∧ (m ∈ nodes g ∨ m ∈ R);
  mid_done : ∀ m, m ∈ R → m ∈ G ∧ m ≠ s ∧ m ∉ nodes g;
  mid_unique : one_per_start E;
  mid_smallest : s ∈ nodes g;
  mid_suffix : mid_overlaps G s g
}.

Lemma break_node_mid t G s others st R n :
  s ∈ G →
  mid t G s (ns_graph st) (ns_end_addresses st) R →
  n ∈ G → n ≠ s → n ∉ R → by_size s n →
  ∃ st', break_node enum (s :: others) s t.2 st n = Ok st'
         ∧ mid t G s (ns_graph st') (ns_end_addresses st') (R ∪ {[ n ]}).
Proof.
  intros HsG Hmid HnG Hns HnR Hsz.
  destruct st as [g E nd nba]. simpl in *.
  destruct Hmid as [Hwf Hloop Hgroup Hidx Hmem Hdone Huniq Hsg Hsuf].
  assert (Hmn : member_ok n t ∧ n ∈ nodes g).
  { destruct (Hmem t n) as [? [?|?]]; [by rewrite Hgroup|done|done]. }
  destruct Hmn as [Hmn Hng].
  assert (Hms : member_ok s t).
  { apply Hmem. by rewrite Hgroup. }
  assert (Hadr : addr n ≠ addr s).
  { intros Heq. apply Hns. apply (Huniq t); by rewrite ?Hgroup. }
  pose proof Hmn as (Hpn & zn & Hzn & Hzn0 & Htn).
  pose proof Hms as (Hps & zs & Hzs & Hzs0 & Hts).
  assert (Hle : zs ≤ zn).
  { unfold by_size in Hsz. rewrite Hzs, Hzn in Hsz. simpl in Hsz.
    by apply bool_decide_eq_true in Hsz. }
  assert (Hkey : callstack_key n = t.2) by (by rewrite Htn).
  assert (Hkeys : callstack_key s = t.2) by (by rewrite Hts).
  assert (Hends : addr n + zn = addr s + zs) by congruence.
  set (new_size := addr s - addr n).
  assert (Hnew : 0 < new_size) by (unfold new_size; lia).
  set (tpl := (addr n + new_size, callstack_key n)).
  assert (Htpl : tpl ≠ t).
  { unfold tpl. rewrite Hts. intros [= ? ?]. unfold new_size in *. lia. }
  unfold break_node. fold new_size.
  cbn [ns_graph ns_end_addresses ns_nodes ns_nodes_by_addr].
  rewrite bool_decide_eq_false_2 by lia.
  pose proof (find_or_create_spec E t.2 n new_size) as Hfc.
  destruct (find_or_create enum E t.2 n new_size) as [r E'] eqn:Hfoc.
  simpl in Hfc. fold tpl in Hfc. destruct Hfc as [Har Hcase].
  destruct (rewire_spec g n r others s Hng)
    as (g' & Hrw & Hnodes & Hkeys' & _ & _).
  rewrite Hrw. simpl. eexists. split; [done|]. simpl.
  (* the replacement is a member of the group of [tpl] *)
  assert (Hmr : member_ok r tpl).
  { destruct Hcase as [[Hr ->]|(_ & -> & _)]; [by apply Hmem|].
    split; [done|]. exists new_size. unfold tpl. simpl. by rewrite Hkey. }
  assert (HrE' : r ∈ group E' tpl).
  { destruct Hcase as [[Hr ->]|(_ & _ & ->)]; [done|].
    rewrite group_index_add, decide_True by done. set_solver. }
  assert (HE' : ∀ t' m, m ∈ group E' t' ↔
                        m ∈ group E t' ∨ (t' = tpl ∧ m = r)).
  { intros t' m. destruct Hcase as [[Hr ->]|(_ & _ & ->)].
    - split; [by left|]. intros [?|[-> ->]]; done.
    - rewrite group_index_add. case_decide; [subst t'|]; set_solver. }
  assert (HrG : r ∉ G).
  { intros HrG. apply Htpl. apply (member_ok_inj r); [done|].
    apply Hmem. by rewrite Hgroup. }
  assert (Hrn : r ≠ n) by (by intros ->).
  assert (Hrs : r ≠ s) by (by intros ->).
  assert (Hpred : ∀ p, p ∈ predecessors g n → p ∈ nodes g ∧ p ≠ n).
  { intros p Hp%elem_of_predecessors. split; [by apply (Hwf p n)|].
    intros ->. by apply (Hloop n n). }
  assert (Hin' : ∀ x, x ∈ nodes g' ↔ (x ∈ nodes g ∧ x ≠ n) ∨ x = r).
  { intros x.
    rewrite Hnodes, !elem_of_union, elem_of_difference, !elem_of_singleton,
      elem_of_list_to_set.
    split.
    - intros [[[[? ?]|Hp]|?]|?]; [tauto|apply Hpred in Hp; tauto|tauto|].
      subst x. left. split; [done|congruence].
    - intros [[? ?]| ->]; tauto. }
  assert (Hkr : callstack_key r = callstack_key n).
  { destruct Hmr as (_ & z & _ & _ & [= _ ?]). done. }
  assert (Hendr : end_of r = addr s).
  { destruct (member_ok_end _ _ Hmr) as [-> _]. unfold tpl, new_size.
    simpl. lia. }
  split.
  - (* graph_wf *)
    intros u v [(Huv & ? & ?)|[[-> Hu]|[-> ->]]]%Hkeys'.
    + destruct (Hwf u v Huv). split; apply Hin'; by left.
    + split; apply Hin'; [left|by right].
      apply Hpred. by apply elem_of_predecessors.
    + split; apply Hin'; [by right|by left].
  - (* no_loop_edges *)
    intros u v [(Huv & ? & ?)|[[-> Hu]|[-> ->]]]%Hkeys'.
    + by apply Hloop.
    + rewrite Har, Hkr. by apply Hloop.
    + rewrite Har. tauto.
  - (* the group of the round *)
    rewrite <- Hgroup. apply set_eq. intros m. rewrite HE'. naive_solver.
  - (* indexed *)
    intros x [[Hx Hxn]| ->]%Hin' Hpx.
    + destruct (Hidx x Hx Hpx) as (z & Hz & Hxi). exists z. split; [done|].
      apply HE'. by left.
    + destruct Hmr as (_ & z & Hz & _ & Ht). exists z. split; [done|].
      by rewrite <- Ht.
  - (* members *)
    intros t' m [Hm|[-> ->]]%HE'.
    + destruct (Hmem t' m Hm) as [Hok Hor]. split; [done|].
      destruct (decide (m = n)) as [->|Hmn']; [right; set_solver|].
      destruct Hor; [left; apply Hin'; by left|right; set_solver].
    + split; [done|]. left. apply Hin'. by right.
  - (* replaced members *)
    intros m [Hm| ->%elem_of_singleton]%elem_of_union.
    + destruct (Hdone m Hm) as (? & ? & ?). split; [done|]. split; [done|].
      rewrite Hin'. intros [[? _]| ->]; done.
    + split; [done|]. split; [done|].
      rewrite Hin'. intros [[_ ?]|?]; done.
  - (* one node per start address *)
    intros t' m1 m2 [H1|[-> ->]]%HE' [H2|[Ht2 ->]]%HE' Ha.
    + by apply (Huniq t').
    + subst t'. destruct Hcase as [[Hr _]|(Hfresh & _ & _)].
      * by apply (Huniq tpl).
      * exfalso. apply (Hfresh m1 H1). congruence.
    + destruct Hcase as [[Hr _]|(Hfresh & _ & _)].
      * by apply (Huniq tpl).
      * exfalso. apply (Hfresh m2 H2). congruence.
    + done.
  - (* the smallest node *)
    apply Hin'. by left.
  - (* overlaps *)
    assert (Hback : ∀ x, x ∈ nodes g' → is_simprocedure x = false →
              ∃ x0, x0 ∈ nodes g ∧ is_simprocedure x0 = false
                    ∧ callstack_key x0 = callstack_key x
                    ∧ addr x0 = addr x ∧ vend G s x0 = vend G s x).
    { intros x [[Hx Hxn]| ->]%Hin' Hpx.
      - exists x. done.
      - exists n. split; [done|]. split; [done|]. split; [done|].
        split; [done|]. unfold vend.
        rewrite decide_True by done. rewrite decide_False by tauto. done. }
    intros x y Hx Hy Hpx Hpy Hk Hxy Hyx.
    destruct (Hback x Hx Hpx) as (x0 & ? & ? & Hkx & Hax & Hvx).
    destruct (Hback y Hy Hpy) as (y0 & ? & ? & Hky & Hay & Hvy).
    rewrite <- Hvx, <- Hvy. apply Hsuf; try done; congruence.
Qed.

Lemma break_nodes_mid t G s others l st R :
  s ∈ G →
  mid t G s (ns_graph st) (ns_end_addresses st) R →
  NoDup l →
  (∀ n, n ∈ l → n ∈ G ∧ n ≠ s ∧ n ∉ R ∧ by_size s n) →
  ∃ st', foldM (break_node enum (s :: others) s t.2) st l = Ok st'
         ∧ mid t G s (ns_graph st') (ns_end_addresses st') (R ∪ list_to_set l).
Proof.
  intros HsG. revert st R. induction l as [|n l IH]; intros st R Hmid Hnd Hl.
  { exists st. split; [done|]. simpl. by rewrite (right_id_L ∅ (∪)). }
  apply NoDup_cons in Hnd as [Hnl Hnd].
  destruct (Hl n) as (HnG & Hns & HnR & Hsz); [by left|].
  destruct (break_node_mid t G s others st R n HsG Hmid HnG Hns HnR Hsz)
    as (st1 & Hst1 & Hmid1).
  destruct (IH st1 (R ∪ {[ n ]}) Hmid1 Hnd) as (st' & Hst' & Hmid').
  { intros m Hm. destruct (Hl m) as (? & ? & ? & ?); [by right|].
    repeat split; try done. set_solver. }
  exists st'. split.
  - simpl. by rewrite Hst1.
  - simpl. by rewrite (assoc_L (∪)).
Qed.

Lemma inv_mid_overlaps g E t s :
  inv g E → s ∈ group E t → mid_overlaps (group E t) s g.
Proof.
  intros [Hwf Hloop Hidx Hmem Huniq Hsuf] Hs x y Hx Hy Hpx Hpy Hk.
  assert (Hpend : ∀ u w, u ∈ group E t → u ≠ s →
            w ∈ nodes g → is_simprocedure w = false →
            callstack_key u = callstack_key w →
            ¬ (w ∈ group E t ∧ w ≠ s) →
            addr u < end_of w → addr w < addr s → False).
  { intros u w Hu Hus Hw Hpw Hkw Hnp H1 H2.
    destruct (Hmem t u Hu) as [Hmu Hug].
    destruct (Hmem t s Hs) as [Hms _].
    destruct (member_ok_end _ _ Hmu) as (Heu & Hku & _).
    destruct (member_ok_end _ _ Hms) as (Hes & _ & Hlt).
    assert (end_of u = end_of w) as Heq.
    { apply Hsuf; try done. by destruct Hmu. split; [done|]. lia. }
    destruct (Hidx w Hw Hpw) as (z & Hz & Hwg).
    assert (end_of w = addr w + z) as Hew.
    { unfold end_of. by rewrite Hz. }
    assert (w ∈ group E t) as HwG.
    { replace t with (addr w + z, callstack_key w); [done|].
      destruct t as [e k]. simpl in Heu, Hku. f_equal; [lia|congruence]. }
    destruct (decide (w = s)) as [->|?]; [lia|]. by apply Hnp. }
  unfold vend.
  destruct (decide (x ∈ group E t ∧ x ≠ s)) as [[HxG Hxs]|Hnx];
    destruct (decide (y ∈ group E t ∧ y ≠ s)) as [[HyG Hys]|Hny];
    intros H1 H2.
  - done.
  - exfalso. by apply (Hpend x y).
  - exfalso. apply (Hpend y x); try done.
  - by apply Hsuf.
Qed.

Lemma inv_mid g E t s :
  inv g E → s ∈ group E t → mid t (group E t) s g E ∅.
Proof.
  intros Hinv Hs. pose proof (inv_mid_overlaps g E t s Hinv Hs).
  destruct Hinv as [Hwf Hloop Hidx Hmem Huniq Hsuf].
  split; try done.
  - intros t' m Hm. destruct (Hmem t' m Hm). auto.
  - by destruct (Hmem t s Hs).
Qed.

(** One round keeps the invariant, and raises nothing. *)
Lemma round_inv t st :
  inv (ns_graph st) (ns_end_addresses st) →
  (1 < base.size (group (ns_end_addresses st) t))%nat →
  ∃ st', round enum t st = Ok st'
         ∧ inv (ns_graph st') (ns_end_addresses st').
Proof.
  intros Hinv Hsize. unfold round.
  set (G := group (ns_end_addresses st) t) in *.
  change (default ∅ (ns_end_addresses st !! t)) with G.
  assert (Hperm : sort_by_size (enum G) ≡ₚ elements G).
  { etrans; [apply sort_by_size_perm|apply enum_spec]. }
  pose proof (sort_by_size_sorted (enum G)) as Hsorted.
  destruct (sort_by_size (enum G)) as [|s others] eqn:Hall.
  { exfalso. apply Permutation_nil_l in Hperm.
    apply (f_equal length) in Hperm. simpl in Hperm.
    unfold base.size, set_size in Hsize. simpl in Hsize. lia. }
  assert (Hin : ∀ x, x ∈ G ↔ x = s ∨ x ∈ others).
  { intros x. by rewrite <- elem_of_elements, <- Hperm, elem_of_cons. }
  assert (Hnd : NoDup (s :: others)).
  { rewrite Hperm. apply NoDup_elements. }
  apply NoDup_cons in Hnd as [Hs_others Hnd].
  apply StronglySorted_inv in Hsorted as [_ Hmin].
  assert (HsG : s ∈ G) by (apply Hin; by left).
  destruct (break_nodes_mid t G s others others st ∅ HsG) as (st1 & -> & Hmid).
  { by apply inv_mid. }
  { done. }
  { intros n Hn. split; [apply Hin; by right|]. split; [by intros ->|].
    split; [set_solver|]. by eapply Forall_forall in Hmin. }
  eexists. split; [done|]. simpl.
  rewrite (left_id_L ∅ (∪)) in Hmid.
  destruct Hmid as [Hwf Hloop Hgroup Hidx Hmem Hdone Huniq Hsg Hsuf].
  assert (Hgone : ∀ x, x ∈ nodes (ns_graph st1) → x ∈ G → x = s).
  { intros x Hx [->|Hxo]%Hin; [done|].
    destruct (Hdone x) as (_ & _ & ?); [by apply elem_of_list_to_set|done]. }
  split; try done.
  - intros x Hx Hpx. destruct (Hidx x Hx Hpx) as (z & Hz & Hxi).
    exists z. split; [done|]. rewrite group_insert. case_decide as Ht; [|done].
    rewrite <- Ht, Hgroup in Hxi. apply elem_of_singleton. by apply Hgone.
  - intros t' n. rewrite group_insert. case_decide as Ht.
    + intros ->%elem_of_singleton. subst t'. split; [|done].
      apply Hmem. by rewrite Hgroup.
    + intros Hn. destruct (Hmem t' n Hn) as [Hok [?|HR]]; [done|].
      exfalso. apply Ht. destruct (Hdone n HR) as (HnG & _ & _).
      apply (member_ok_inj n); [|done]. apply Hmem. by rewrite Hgroup.
  - intros t' n m. rewrite !group_insert. case_decide as Ht.
    + intros ->%elem_of_singleton ->%elem_of_singleton. done.
    + apply Huniq.
  - intros x y Hx Hy Hpx Hpy Hk [Ho1 Ho2].
    assert (Hv : ∀ w, w ∈ nodes (ns_graph st1) → vend G s w = end_of w).
    { intros w Hw. unfold vend. case_decide as Hd; [|done].
      destruct Hd as [HwG Hws]. by destruct (Hws (Hgone w Hw HwG)). }
    rewrite <- (Hv x Hx), <- (Hv y Hy).
    apply Hsuf; try done; by rewrite Hv.
Qed.

(** *** The first loop *)

Lemma group_empty t : group ∅ t = ∅.
Proof. unfold group. by rewrite lookup_empty. Qed.

Definition build_step (E : end_index) (n : CFGNode) : result end_index :=
  if is_simprocedure n then Ok E
  else let* end_addr := end_addr_of n in
       Ok (index_add E (end_addr, callstack_key n) n).

Lemma build_fold l E0 :
  (∀ n, n ∈ l → is_simprocedure n = false → is_Some (size n)) →
  ∃ E, foldM build_step E0 l = Ok E
       ∧ ∀ t n, n ∈ group E t ↔
                n ∈ group E0 t
                ∨ (n ∈ l ∧ is_simprocedure n = false
                   ∧ ∃ z, size n = Some z ∧ t = (addr n + z, callstack_key n)).
Proof.
  revert E0. induction l as [|x l IH]; intros E0 Hl.
  { exists E0. split; [done|]. intros t n. split; [by left|].
    intros [?|[[]%elem_of_nil _]]. done. }
  cbn [foldM]. unfold build_step at 1.
  destruct (is_simprocedure x) eqn:Hpx.
  - destruct (IH E0) as (E & HE' & HE).
    { intros n Hn. apply Hl. by right. }
    exists E. split; [done|]. intros t n. rewrite HE. split.
    + intros [?|(? & ? & ?)]; [by left|]. right. split; [by right|done].
    + intros [?|([->|?]%elem_of_cons & Hp & ?)]; [by left|congruence|].
      right. done.
  - destruct (Hl x) as [z Hz]; [by left|done|].
    unfold end_addr_of. rewrite Hz. cbn [bind].
    destruct (IH (index_add E0 (addr x + z, callstack_key x) x))
      as (E & HE' & HE).
    { intros n Hn. apply Hl. by right. }
    exists E. split; [done|]. intros t n. rewrite HE, group_index_add.
    split.
    + intros [Hn|(? & ? & ?)].
      * case_decide as Ht; [|by left].
        apply elem_of_union in Hn as [?| ->%elem_of_singleton].
        { left. by rewrite <- Ht. }
        right. split; [by left|]. split; [done|]. eauto.
      * right. split; [by right|done].
    + intros [Hn|([->|?]%elem_of_cons & Hp & z' & Hz' & Ht)].
      * left. case_decide as Ht; [|done]. subst t. set_solver.
      * left. rewrite Hz in Hz'. injection Hz' as <-.
        rewrite decide_True by done. set_solver.
      * right. eauto.
Qed.

(** Where a node has a size, it is positive. *)
Definition positive_size (n : CFGNode) : Prop :=
  match size n with
  | Some z => 0 < z
  | None => False
  end.

(** The graphs [normalize] is shown to make free of overlaps: every
    edge joins two nodes, and none joins two nodes that start at the same
    address in the same context; the nodes that are no SimProcedures
    have a positive size, differ in their start address, size or
    context, and overlap within a context only when they end at the
    same address. *)
Definition normalizable (g : DiGraph CFGNode) : Prop :=
  map_Forall (λ k _, k.1 ∈ nodes g ∧ k.2 ∈ nodes g) (edges g)
  ∧ map_Forall (λ k _, ¬ (addr k.1 = addr k.2
                          ∧ callstack_key k.1 = callstack_key k.2))
               (edges g)
  ∧ set_Forall (λ n, is_simprocedure n = false → positive_size n) (nodes g)
  ∧ set_Forall (λ n, set_Forall (λ m,
        is_simprocedure n = false → is_simprocedure m = false →
        addr n = addr m → size n = size m →
        callstack_key n = callstack_key m → n = m) (nodes g)) (nodes g)
  ∧ set_Forall (λ n, set_Forall (λ m,
        is_simprocedure n = false → is_simprocedure m = false →
        callstack_key n = callstack_key m →
        overlap n m → end_of n = end_of m) (nodes g)) (nodes g).

Lemma build_end_addresses_inv g :
  normalizable g →
  ∃ E, build_end_addresses enum g = Ok E ∧ inv g E.
Proof.
  intros (Hwf & Hloop & Hsized & Hdist & Hsuf).
  destruct (build_fold (enum (nodes g)) ∅) as (E & HE & Hgroup).
  { intros n Hn%elem_of_enum Hp. specialize (Hsized n Hn Hp).
    unfold positive_size in Hsized. by destruct (size n). }
  exists E. split; [done|].
  assert (Hg : ∀ t n, n ∈ group E t ↔
             n ∈ nodes g ∧ is_simprocedure n = false
             ∧ ∃ z, size n = Some z ∧ t = (addr n + z, callstack_key n)).
  { intros t n. rewrite Hgroup, group_empty, elem_of_enum. set_solver. }
  split.
  - intros u v [d Hd]. apply (Hwf (u, v) d Hd).
  - intros u v [d Hd]. apply (Hloop (u, v) d Hd).
  - intros n Hn Hp. specialize (Hsized n Hn Hp). unfold positive_size in Hsized.
    destruct (size n) as [z|] eqn:Hz; [|done]. exists z. split; [done|].
    apply Hg. eauto.
  - intros t n (Hn & Hp & z & Hz & ->)%Hg. split; [|done]. split; [done|].
    exists z. split; [done|]. split; [|done].
    specialize (Hsized n Hn Hp). unfold positive_size in Hsized.
    by rewrite Hz in Hsized.
  - intros t n m (Hn & Hpn & zn & Hzn & ->)%Hg (Hm & Hpm & zm & Hzm & [= He Hk])%Hg Ha.
    apply (Hdist n Hn m Hm); try done.
    rewrite Hzn, Hzm. f_equal. lia.
  - intros n m Hn Hm. apply (Hsuf n Hn m Hm).
Qed.

(** *** The [while] loop and [normalize] *)

Variable pick : end_index → option (Z * ckey).
Hypothesis pick_some :
  ∀ E t, pick E = Some t → (1 < base.size (group E t))%nat.
Hypothesis pick_none :
  ∀ E, pick E = None → ∀ t, (base.size (group E t) ≤ 1)%nat.

Lemma normalize_loop_inv fuel st r :
  inv (ns_graph st) (ns_end_addresses st) →
  normalize_loop enum pick fuel st = Some r →
  ∃ st', r = Ok st' ∧ inv (ns_graph st') (ns_end_addresses st')
         ∧ pick (ns_end_addresses st') = None.
Proof.
  revert st. induction fuel as [|fuel IH]; intros st Hinv; simpl.
  - destruct (pick (ns_end_addresses st)) eqn:Hp; [done|].
    intros [= <-]. eauto.
  - destruct (pick (ns_end_addresses st)) as [t|] eqn:Hp.
    + destruct (round_inv t st Hinv (pick_some _ _ Hp)) as (st1 & -> & Hinv1).
      by apply IH.
    + intros [= <-]. eauto.
Qed.

Lemma inv_disjoint g E n m :
  inv g E → (∀ t, (base.size (group E t) ≤ 1)%nat) →
  n ∈ nodes g → m ∈ nodes g →
  is_simprocedure n = false → is_simprocedure m = false →
  n ≠ m → callstack_key n = callstack_key m →
  disjoint_ranges n m.
Proof.
  intros [Hwf Hloop Hidx Hmem Huniq Hsuf] Hone Hn Hm Hpn Hpm Hne Hk.
  destruct (decide (overlap n m)) as [Hov|Hno]; cycle 1.
  { unfold overlap, disjoint_ranges in *. lia. }
  exfalso. apply Hne.
  pose proof (Hsuf n m Hn Hm Hpn Hpm Hk Hov) as Hend.
  destruct (Hidx n Hn Hpn) as (zn & Hzn & Hng).
  destruct (Hidx m Hm Hpm) as (zm & Hzm & Hmg).
  unfold end_of in Hend. rewrite Hzn, Hzm in Hend. simpl in Hend.
  rewrite <- Hend, <- Hk in Hmg.
  set (X := group E (addr n + zn, callstack_key n)) in *.
  specialize (Hone (addr n + zn, callstack_key n)). fold X in Hone.
  destruct (decide (n = m)) as [|Hnm]; [done|].
  assert ({[ n; m ]} ⊆ X) as Hsub by set_solver.
  apply subseteq_size in Hsub.
  rewrite size_union, !size_singleton in Hsub by set_solver. lia.
Qed.

(** X27: On a graph whose edges join nodes of the graph and never two
    nodes with the same start address and context, and whose nodes,
    SimProcedures apart, have a positive size, are told apart by start
    address, size and context, and overlap within a context only when
    they share their end address, [normalize] raises no exception, and
    when it returns, any two distinct nodes of the same context that
    are no SimProcedures have disjoint address ranges.  This holds for
    every iteration order of the sets and of the index. *)
Theorem normalize_disjoint fuel cfg r :
  normalizable (_graph cfg) →
  normalize enum pick fuel cfg = Some r →
  ∃ cfg', r = Ok cfg'
    ∧ ∀ n m, n ∈ nodes (_graph cfg') → m ∈ nodes (_graph cfg') →
             is_simprocedure n = false → is_simprocedure m = false →
             n ≠ m → callstack_key n = callstack_key m →
             disjoint_ranges n m.
Proof.
  intros Hnz. unfold normalize.
  destruct (build_end_addresses_inv _ Hnz) as (E & -> & Hinv).
  destruct (normalize_loop _ _ _ _) as [r'|] eqn:Hloop; [|done].
  apply normalize_loop_inv in Hloop as (st' & -> & Hinv' & Hpick); [|done].
  intros [= <-]. eexists. split; [done|]. simpl.
  intros n m. eapply inv_disjoint; [done|]. by apply pick_none.
Qed.

End with_order.

(** The canonical orders are iteration orders. *)
Lemma enum0_spec X : enum0 X ≡ₚ elements X.
Proof. done. Qed.

Lemma pick0_some E t : pick0 E = Some t → (1 < base.size (group E t))%nat.
Proof.
  unfold pick0.
  destruct (filter _ (map_to_list E)) as [|[t' X] l] eqn:Hf; [done|].
  intros [= <-].
  assert ((t', X) ∈ filter (λ kv, (1 < base.size kv.2)%nat) (map_to_list E))
    as [Hsz Hin%elem_of_map_to_list]%list_elem_of_filter
    by (rewrite Hf; left).
  unfold group. by rewrite Hin.
Qed.

Lemma pick0_none E : pick0 E = None → ∀ t, (base.size (group E t) ≤ 1)%nat.
Proof.
  unfold pick0.
  destruct (filter _ (map_to_list E)) as [|[t' X] l] eqn:Hf; [|done].
  intros _ t. unfold group. destruct (E !! t) as [X|] eqn:Ht; simpl.
  - destruct (decide (1 < base.size X)%nat) as [Hlt|]; [|lia].
    assert ((t, X) ∈ filter (λ kv, (1 < base.size kv.2)%nat) (map_to_list E))
      as Hin.
    { apply list_elem_of_filter. split; [done|]. by apply elem_of_map_to_list. }
    rewrite Hf in Hin. by apply elem_of_nil in Hin.
  - change (base.size (∅ : gset CFGNode) ≤ 1)%nat. rewrite size_empty. lia.
Qed.

#[global] Instance positive_size_dec n : Decision (positive_size n).
Proof. unfold positive_size. destruct (size n); apply _. Defined.

#[global] Instance overlap_dec n m : Decision (overlap n m).
Proof. unfold overlap. apply _. Defined.

#[global] Instance normalizable_dec g : Decision (normalizable g).
Proof. unfold normalizable. apply _. Defined.

Import QueryFacts.

(** C1: on [g_overlap], [normalize] returns with [A] = [[0, 10)] and
    [Q] = [[5, 15)] both in the graph: two distinct nodes of the same
    context, no SimProcedures, whose ranges overlap.  They end at
    different addresses, so no group of the index has more than one
    node and the loop is not entered. *)
Lemma normalize_keeps_overlap :
  normalize enum0 pick0 0 (cfg_of g_overlap)
    = Some (Ok (normalize0 0 (cfg_of g_overlap)))
  ∧ A ∈ nodes (_graph (normalize0 0 (cfg_of g_overlap)))
  ∧ Q ∈ nodes (_graph (normalize0 0 (cfg_of g_overlap)))
  ∧ is_simprocedure A = false ∧ is_simprocedure Q = false
  ∧ A ≠ Q ∧ callstack_key A = callstack_key Q
  ∧ ¬ disjoint_ranges A Q.
Proof.
  split; [apply normalize0_run; vm_compute; reflexivity|].
  split; [by_computation|]. split; [by_computation|].
  repeat split; try done.
  unfold disjoint_ranges, end_of. simpl. lia.
Qed.

Lemma normalize_disjoint_witness :
  normalizable g_split
  ∧ normalize enum0 pick0 1 (cfg_of g_split)
    = Some (Ok (normalize0 1 (cfg_of g_split)))
  ∧ disjoint_ranges A_head B.
Proof.
  assert (Hnz : normalizable g_split) by by_computation.
  assert (Hrun : normalize enum0 pick0 1 (cfg_of g_split)
                 = Some (Ok (normalize0 1 (cfg_of g_split))))
    by (apply normalize0_run; vm_compute; reflexivity).
  split; [exact Hnz|]. split; [exact Hrun|].
  destruct (normalize_disjoint enum0 enum0_spec pick0 pick0_some pick0_none
              1 (cfg_of g_split) _ Hnz Hrun) as (cfg' & Heq & Hdis).
  apply Ok_inj in Heq. subst cfg'.
  apply Hdis; [by_computation|by_computation|reflexivity|reflexivity
              |discriminate|reflexivity].
Defined.

(** C2: on [g_loop], where [A] is its own predecessor, the first run
    leaves [A] in the graph next to its head and its tail [B], with which
    it overlaps, and the second run takes [A] away: the two graphs
    differ. *)
Theorem normalize_twice_on_loop :
  normalize enum0 pick0 1 (cfg_of g_loop)
    = Some (Ok (normalize0 1 (cfg_of g_loop)))
  ∧ normalize enum0 pick0 1 (normalize0 1 (cfg_of g_loop))
    = Some (Ok (normalize0 1 (normalize0 1 (cfg_of g_loop))))
  ∧ A ∈ nodes (_graph (normalize0 1 (cfg_of g_loop)))
  ∧ B ∈ nodes (_graph (normalize0 1 (cfg_of g_loop)))
  ∧ ¬ disjoint_ranges A B
  ∧ A ∉ nodes (_graph (normalize0 1 (normalize0 1 (cfg_of g_loop))))
  ∧ _graph (normalize0 1 (normalize0 1 (cfg_of g_loop)))
    ≠ _graph (normalize0 1 (cfg_of g_loop)).
Proof.
  assert (HA1 : A ∈ nodes (_graph (normalize0 1 (cfg_of g_loop))))
    by by_computation.
  assert (HA2 : A ∉ nodes (_graph (normalize0 1 (normalize0 1 (cfg_of g_loop)))))
    by by_computation.
  split; [apply normalize0_run; vm_compute; reflexivity|].
  split; [apply normalize0_run; vm_compute; reflexivity|].
  split; [exact HA1|].
  split; [by_computation|].
  split; [unfold disjoint_ranges, end_of; simpl; lia|].
  split; [exact HA2|].
  intros Heq. apply HA2. rewrite Heq. exact HA1.
Qed.




End NormalizeFacts.

(** ** normalize: termination, fixed points, start addresses *)

Module NormalizeTotal.
Import CFG Examples NormalizeFacts.

(** *** A measure for the [while] loop: the sizes of all nodes *)

Definition wt (n : CFGNode) : nat := Z.to_nat (default 0 (size n)).

Definition weight (X : gset CFGNode) : nat := sum_list_with wt (elements X).

Lemma weight_disj_union X Y :
  X ## Y → weight (X ∪ Y) = (weight X + weight Y)%nat.
Proof.
  intros Hd. unfold weight.
  by rewrite (elements_disj_union X Y Hd), sum_list_with_app.
Qed.

Lemma weight_singleton n : weight {[ n ]} = wt n.
Proof. unfold weight. rewrite elements_singleton. simpl. lia. Qed.

Lemma weight_mono X Y : X ⊆ Y → (weight X ≤ weight Y)%nat.
Proof.
  intros Hsub. rewrite (union_difference_L X Y Hsub).
  rewrite weight_disj_union by set_solver. lia.
Qed.

Lemma weight_remove X n :
  n ∈ X → weight X = (wt n + weight (X ∖ {[ n ]}))%nat.
Proof.
  intros Hn.
  rewrite (union_difference_L {[ n ]} X) at 1 by set_solver.
  rewrite weight_disj_union by set_solver. by rewrite weight_singleton.
Qed.

Lemma weight_add_le X r : (weight (X ∪ {[ r ]}) ≤ weight X + wt r)%nat.
Proof.
  destruct (decide (r ∈ X)) as [Hr|Hr].
  - replace (X ∪ {[ r ]}) with X by set_solver. lia.
  - rewrite weight_disj_union by set_solver. by rewrite weight_singleton.
Qed.

(** Replacing [n] by a node [r] of a smaller size. *)
Lemma weight_replace X n r :
  n ∈ X → (wt r < wt n)%nat →
  (weight (X ∖ {[ n ]} ∪ {[ r ]}) < weight X)%nat.
Proof.
  intros Hn Hlt. pose proof (weight_add_le (X ∖ {[ n ]}) r).
  rewrite (weight_remove X n Hn). lia.
Qed.

(** The start addresses of a set of nodes, each with its context. *)
Definition starts (X : gset CFGNode) : gset (Z * ckey) :=
  set_map (λ n, (addr n, callstack_key n)) X.

(** [Y] comes from [X] by [k] or more replacements of a node that is no
    SimProcedure by a smaller node with the same start and context. *)
Definition shrinks (k : nat) (X Y : gset CFGNode) : Prop :=
  (weight Y + k ≤ weight X)%nat
  ∧ starts Y = starts X
  ∧ ∀ x, is_simprocedure x = true → x ∈ Y ↔ x ∈ X.

Lemma shrinks_refl X : shrinks 0 X X.
Proof. unfold shrinks. split; [lia|done]. Qed.

Lemma shrinks_trans j k X Y Z :
  shrinks j X Y → shrinks k Y Z → shrinks (j + k) X Z.
Proof.
  intros (H1 & H2 & H3) (H1' & H2' & H3'). split; [lia|]. split; [congruence|].
  intros x Hx. by rewrite H3', H3.
Qed.

Lemma shrinks_replace X n r :
  n ∈ X → is_simprocedure n = false → is_simprocedure r = false →
  addr r = addr n → callstack_key r = callstack_key n → (wt r < wt n)%nat →
  shrinks 1 X (X ∖ {[ n ]} ∪ {[ r ]}).
Proof.
  intros Hn Hpn Hpr Ha Hk Hlt. split; [|split].
  - pose proof (weight_replace X n r Hn Hlt). lia.
  - unfold starts. apply set_eq. intros [a k]. rewrite !elem_of_map. split.
    + intros (x & Heq & Hx). destruct (decide (x = r)) as [->|Hne].
      * exists n. split; [congruence|done].
      * exists x. split; [done|set_solver].
    + intros (x & Heq & Hx). destruct (decide (x = n)) as [->|Hne].
      * exists r. split; [congruence|set_solver].
      * exists x. split; [done|set_solver].
  - intros x Hx. rewrite elem_of_union, elem_of_difference, !elem_of_singleton.
    split; [intros [[? _]| ->]; [done|congruence]|].
    intros Hin. left. split; [done|]. intros ->. congruence.
Qed.

Section with_order.
Variable enum : gset CFGNode → list CFGNode.
Hypothesis enum_spec : ∀ X, enum X ≡ₚ elements X.

(** What replacing one member of the group does to the nodes of the
    graph: [n] goes, and a node that starts where [n] starts, in the
    same context and of a smaller size, is there instead. *)
Lemma break_node_nodes t G s others st R n st' :
  s ∈ G →
  mid t G s (ns_graph st) (ns_end_addresses st) R →
  n ∈ G → n ≠ s → n ∉ R →
  break_node enum (s :: others) s t.2 st n = Ok st' →
  n ∈ nodes (ns_graph st) ∧ is_simprocedure n = false
  ∧ ∃ r, nodes (ns_graph st') = nodes (ns_graph st) ∖ {[ n ]} ∪ {[ r ]}
         ∧ addr r = addr n ∧ callstack_key r = callstack_key n
         ∧ is_simprocedure r = false
         ∧ (wt r < wt n)%nat.
Proof.
  intros HsG [Hwf Hloop Hgroup Hidx Hmem Hdone Huniq Hsg Hsuf] HnG Hns HnR Hbn.
  destruct (Hmem t n) as [Hmn [Hng|?]]; [by rewrite Hgroup| |done].
  destruct (Hmem t s) as [Hms _]; [by rewrite Hgroup|].
  split; [done|]. split; [by destruct Hmn|].
  assert (Hadr : addr n ≠ addr s).
  { intros Heq. apply Hns. apply (Huniq t); by rewrite ?Hgroup. }
  destruct Hmn as (Hpn & zn & Hzn & Hzn0 & Htn).
  destruct Hms as (Hps & zs & Hzs & Hzs0 & Hts).
  assert (Hends : addr n + zn = addr s + zs ∧ callstack_key n = callstack_key s)
    by (split; congruence).
  destruct Hends as [Hends Hks].
  destruct (break_node_spec enum enum_spec _ _ _ _ _ _ Hbn) as [_ Hnz].
  destruct Hnz as (r & Har & Hcase & Hnodes & _); [lia|].
  exists r.
  assert (Hr : size r = Some (addr s - addr n)
               ∧ callstack_key r = callstack_key n
               ∧ is_simprocedure r = false).
  { destruct Hcase as [[Hrg _]|(_ & Hsz & Hk & Hp & _)].
    - destruct (Hmem _ _ Hrg) as [(Hpr & zr & Hzr & _ & Htr) _].
      injection Htr as Htr1 Htr2. rewrite Hzr.
      repeat split; [f_equal; lia|done|done].
    - repeat split; [done| |done]. rewrite Hk, Htn. done. }
  destruct Hr as (Hsr & Hkr & Hpr).
  split; [|repeat split; try done].
  - rewrite Hnodes.
    assert (list_to_set (predecessors (ns_graph st) n) ⊆ nodes (ns_graph st) ∖ {[ n ]}).
    { intros p Hp%elem_of_list_to_set%elem_of_predecessors.
      apply elem_of_difference. split; [by apply (Hwf p n)|].
      intros ->%elem_of_singleton. by apply (Hloop n n). }
    assert (s ∈ nodes (ns_graph st) ∖ {[ n ]}) by set_solver.
    set_solver.
  - unfold wt. rewrite Hsr, Hzn. simpl. lia.
Qed.

Lemma break_nodes_shrink t G s others l st R st' :
  s ∈ G →
  mid t G s (ns_graph st) (ns_end_addresses st) R →
  NoDup l →
  (∀ n, n ∈ l → n ∈ G ∧ n ≠ s ∧ n ∉ R ∧ by_size s n) →
  foldM (break_node enum (s :: others) s t.2) st l = Ok st' →
  shrinks (length l) (nodes (ns_graph st)) (nodes (ns_graph st')).
Proof.
  intros HsG. revert st R.
  induction l as [|n l IH]; intros st R Hmid Hnd Hl; simpl.
  { intros [= <-]. apply shrinks_refl. }
  apply NoDup_cons in Hnd as [Hnl Hnd].
  destruct (Hl n) as (HnG & Hns & HnR & Hsz); [by left|].
  destruct (break_node_mid enum enum_spec t G s others st R n
              HsG Hmid HnG Hns HnR Hsz) as (st1 & Hst1 & Hmid1).
  rewrite Hst1. simpl. intros Hrest.
  destruct (break_node_nodes t G s others st R n st1 HsG Hmid HnG Hns HnR Hst1)
    as (Hng & Hpn & r & Hnodes & Har & Hkr & Hpr & Hlt).
  apply (shrinks_trans 1 (length l) _ (nodes (ns_graph st1))).
  - rewrite Hnodes. by apply shrinks_replace.
  - apply (IH st1 (R ∪ {[ n ]})); [done|done| |done].
    intros m Hm. destruct (Hl m) as (? & ? & ? & ?); [by right|].
    repeat split; try done. set_solver.
Qed.

(** One round replaces at least one node. *)
Lemma round_shrinks t st st' :
  inv (ns_graph st) (ns_end_addresses st) →
  (1 < base.size (group (ns_end_addresses st) t))%nat →
  round enum t st = Ok st' →
  shrinks 1 (nodes (ns_graph st)) (nodes (ns_graph st')).
Proof.
  intros Hinv Hsize. unfold round.
  set (G := group (ns_end_addresses st) t) in *.
  change (default ∅ (ns_end_addresses st !! t)) with G.
  assert (Hperm : sort_by_size (enum G) ≡ₚ elements G).
  { etrans; [apply sort_by_size_perm|apply enum_spec]. }
  pose proof (sort_by_size_sorted (enum G)) as Hsorted.
  destruct (sort_by_size (enum G)) as [|s others] eqn:Hall.
  { done. }
  assert (Hin : ∀ x, x ∈ G ↔ x = s ∨ x ∈ others).
  { intros x. by rewrite <- elem_of_elements, <- Hperm, elem_of_cons. }
  assert (Hnd : NoDup (s :: others)).
  { rewrite Hperm. apply NoDup_elements. }
  assert (Hlen : (1 ≤ length others)%nat).
  { apply Permutation_length in Hperm. simpl in Hperm.
    unfold base.size, set_size in Hsize. simpl in Hsize. lia. }
  apply NoDup_cons in Hnd as [Hs_others Hnd].
  apply StronglySorted_inv in Hsorted as [_ Hmin].
  assert (HsG : s ∈ G) by (apply Hin; by left).
  destruct (foldM _ st others) as [st1|] eqn:Hfold; [|done].
  simpl. intros [= <-]. simpl.
  pose proof (break_nodes_shrink t G s others others st ∅ st1 HsG) as Hsh.
  destruct Hsh as (Hw & Hrest).
  - by apply inv_mid.
  - done.
  - intros n Hn. split; [apply Hin; by right|]. split; [by intros ->|].
    split; [set_solver|]. by eapply Forall_forall in Hmin.
  - done.
  - split; [lia|done].
Qed.

(** *** The first loop *)

Lemma build_fold_raises l E0 :
  (∃ n, n ∈ l ∧ is_simprocedure n = false ∧ size n = None) →
  foldM build_step E0 l = Raise TypeError.
Proof.
  revert E0. induction l as [|x l IH]; intros E0 (n & Hn & Hp & Hz).
  { by apply elem_of_nil in Hn. }
  cbn [foldM]. unfold build_step at 1.
  destruct (decide (is_simprocedure x = false ∧ size x = None)) as [[Hpx Hzx]|Hx].
  { rewrite Hpx. unfold end_addr_of. by rewrite Hzx. }
  assert (∃ n, n ∈ l ∧ is_simprocedure n = false ∧ size n = None) as Hrest.
  { apply elem_of_cons in Hn as [->|Hn]; [by destruct Hx|]. eauto. }
  destruct (is_simprocedure x); [by apply IH|].
  unfold end_addr_of. destruct (size x); [|by destruct Hx].
  cbn [bind]. by apply IH.
Qed.

(** The groups of the index, when every node that is no SimProcedure
    has a size. *)
Lemma build_end_addresses_groups g :
  (∀ n, n ∈ nodes g → is_simprocedure n = false → is_Some (size n)) →
  ∃ E, build_end_addresses enum g = Ok E
       ∧ ∀ t n, n ∈ group E t ↔
                n ∈ nodes g ∧ is_simprocedure n = false
                ∧ ∃ z, size n = Some z ∧ t = (addr n + z, callstack_key n).
Proof.
  intros Hsized.
  destruct (build_fold enum enum_spec (enum (nodes g)) ∅) as (E & HE & Hgroup).
  { intros n Hn%(elem_of_enum enum enum_spec). by apply Hsized. }
  exists E. split; [done|].
  intros t n. rewrite Hgroup, group_empty, (elem_of_enum enum enum_spec).
  set_solver.
Qed.

(** *** The [while] loop *)

Variable pick : end_index → option (Z * ckey).
Hypothesis pick_some :
  ∀ E t, pick E = Some t → (1 < base.size (group E t))%nat.
Hypothesis pick_none :
  ∀ E, pick E = None → ∀ t, (base.size (group E t) ≤ 1)%nat.

Lemma pick_none_intro E :
  (∀ t, (base.size (group E t) ≤ 1)%nat) → pick E = None.
Proof.
  intros Hone. destruct (pick E) as [t|] eqn:Hp; [|done].
  specialize (pick_some _ _ Hp). specialize (Hone t). lia.
Qed.

(** More fuel does not change the result. *)
Lemma normalize_loop_fuel fuel fuel' st r :
  normalize_loop enum pick fuel st = Some r → (fuel ≤ fuel')%nat →
  normalize_loop enum pick fuel' st = Some r.
Proof.
  revert fuel' st. induction fuel as [|fuel IH]; intros fuel' st; simpl.
  - destruct (pick (ns_end_addresses st)) eqn:Hp; [done|].
    intros Hr _. destruct fuel'; simpl; by rewrite Hp.
  - destruct (pick (ns_end_addresses st)) as [t|] eqn:Hp.
    + intros Hr Hle. destruct fuel' as [|fuel']; [lia|]. simpl. rewrite Hp.
      destruct (round enum t st); [|done]. apply IH; [done|lia].
    + intros Hr _. destruct fuel'; simpl; by rewrite Hp.
Qed.

Lemma normalize_loop_shrinks fuel st st' :
  inv (ns_graph st) (ns_end_addresses st) →
  normalize_loop enum pick fuel st = Some (Ok st') →
  shrinks 0 (nodes (ns_graph st)) (nodes (ns_graph st')).
Proof.
  revert st. induction fuel as [|fuel IH]; intros st Hinv; simpl.
  - destruct (pick (ns_end_addresses st)) eqn:Hp; [done|].
    intros [= <-]. apply shrinks_refl.
  - destruct (pick (ns_end_addresses st)) as [t|] eqn:Hp.
    + destruct (round_inv enum enum_spec t st Hinv (pick_some _ _ Hp))
        as (st1 & Hst1 & Hinv1).
      rewrite Hst1. intros Hrest.
      pose proof (round_shrinks t st st1 Hinv (pick_some _ _ Hp) Hst1) as Hsh.
      destruct (shrinks_trans 1 0 _ _ _ Hsh (IH st1 Hinv1 Hrest)) as (Hw & Hs).
      split; [lia|done].
    + intros [= <-]. apply shrinks_refl.
Qed.

(** The loop needs no more rounds than the sizes of the nodes add up
    to. *)
Lemma normalize_loop_total fuel st :
  inv (ns_graph st) (ns_end_addresses st) →
  (weight (nodes (ns_graph st)) ≤ fuel)%nat →
  ∃ st', normalize_loop enum pick fuel st = Some (Ok st').
Proof.
  revert st. induction fuel as [|fuel IH]; intros st Hinv Hle; simpl.
  - destruct (pick (ns_end_addresses st)) as [t|] eqn:Hp; [|eauto].
    destruct (round_inv enum enum_spec t st Hinv (pick_some _ _ Hp))
      as (st1 & Hst1 & _).
    pose proof (round_shrinks t st st1 Hinv (pick_some _ _ Hp) Hst1) as [Hw _].
    lia.
  - destruct (pick (ns_end_addresses st)) as [t|] eqn:Hp; [|eauto].
    destruct (round_inv enum enum_spec t st Hinv (pick_some _ _ Hp))
      as (st1 & Hst1 & Hinv1).
    pose proof (round_shrinks t st st1 Hinv (pick_some _ _ Hp) Hst1) as [Hw _].
    rewrite Hst1. apply IH; [done|lia].
Qed.

(** *** [normalize] *)

(** The object with its [_normalized] flag set. *)
Definition normalized_of (cfg : CFGBase) : CFGBase :=
  {| _graph := _graph cfg; _nodes := _nodes cfg;
     _nodes_by_addr := _nodes_by_addr cfg; _normalized := true;
     _changed_functions := _changed_functions cfg;
     functions := functions cfg; callgraph := callgraph cfg;
     hooks := hooks cfg |}.

Lemma size_le_1_intro (X : gset CFGNode) :
  (∀ x y, x ∈ X → y ∈ X → x = y) → (base.size X ≤ 1)%nat.
Proof.
  intros Heq. destruct (set_choose_or_empty X) as [[x Hx]|Hempty].
  - assert (X = {[ x ]}) as ->.
    { apply set_eq. intros y. rewrite elem_of_singleton. split.
      + intros Hy. by apply Heq.
      + by intros ->. }
    rewrite size_singleton. lia.
  - apply leibniz_equiv in Hempty. subst X. rewrite size_empty. lia.
Qed.

Lemma size_le_1_elim (X : gset CFGNode) x y :
  (base.size X ≤ 1)%nat → x ∈ X → y ∈ X → x = y.
Proof.
  intros Hsz Hx Hy. destruct (decide (x = y)) as [|Hne]; [done|].
  assert ({[ x; y ]} ⊆ X) as Hsub by set_solver.
  apply subseteq_size in Hsub.
  rewrite size_union, !size_singleton in Hsub by set_solver. lia.
Qed.

(** Without two nodes of one context that end at the same address,
    the [while] loop is not entered. *)
Lemma normalize_no_conflict cfg fuel :
  (∀ n, n ∈ nodes (_graph cfg) → is_simprocedure n = false → is_Some (size n)) →
  (∀ n m, n ∈ nodes (_graph cfg) → m ∈ nodes (_graph cfg) →
          is_simprocedure n = false → is_simprocedure m = false →
          callstack_key n = callstack_key m → end_of n = end_of m → n = m) →
  normalize enum pick fuel cfg = Some (Ok (normalized_of cfg)).
Proof.
  intros Hsized Hone.
  destruct (build_end_addresses_groups _ Hsized) as (E & HE & Hg).
  assert (Hp : pick E = None).
  { apply pick_none_intro. intros t. apply size_le_1_intro.
    intros x y (Hx & Hpx & zx & Hzx & ->)%Hg (Hy & Hpy & zy & Hzy & [= He Hk])%Hg.
    apply Hone; try done. unfold end_of. rewrite Hzx, Hzy. simpl. lia. }
  unfold normalize. rewrite HE.
  destruct fuel; simpl; by rewrite Hp.
Qed.

(** X1: [normalize] returns: on a graph as described by [normalizable], as
    many rounds as the sizes of the nodes add up to are enough for the
    [while] loop to end, and no exception is raised. *)
Theorem normalize_terminates cfg fuel :
  normalizable (_graph cfg) →
  (weight (nodes (_graph cfg)) ≤ fuel)%nat →
  ∃ cfg', normalize enum pick fuel cfg = Some (Ok cfg')
          ∧ _normalized cfg' = true.
Proof.
  intros Hnz Hle. unfold normalize.
  destruct (build_end_addresses_inv enum enum_spec _ Hnz) as (E & -> & Hinv).
  destruct (normalize_loop_total fuel
              {| ns_graph := _graph cfg; ns_end_addresses := E;
                 ns_nodes := _nodes cfg;
                 ns_nodes_by_addr := _nodes_by_addr cfg |} Hinv Hle)
    as (st' & ->).
  eauto.
Qed.

(** X2: [normalize] neither adds nor loses a block start: the pairs of a
    start address and a context are the same before and after; the
    SimProcedure nodes are the same; and the sizes of the nodes add up
    to no more than before. *)
Theorem normalize_keeps_starts cfg fuel cfg' :
  normalizable (_graph cfg) →
  normalize enum pick fuel cfg = Some (Ok cfg') →
  starts (nodes (_graph cfg')) = starts (nodes (_graph cfg))
  ∧ (∀ x, is_simprocedure x = true →
          x ∈ nodes (_graph cfg') ↔ x ∈ nodes (_graph cfg))
  ∧ (weight (nodes (_graph cfg')) ≤ weight (nodes (_graph cfg)))%nat.
Proof.
  intros Hnz. unfold normalize.
  destruct (build_end_addresses_inv enum enum_spec _ Hnz) as (E & -> & Hinv).
  destruct (normalize_loop _ _ _ _) as [[st'|]|] eqn:Hloop; [|done|done].
  intros [= <-]. simpl.
  apply normalize_loop_shrinks in Hloop as (Hw & Hs & Hp); [|done].
  simpl in *. split; [done|]. split; [done|lia].
Qed.

(** X3: A graph in which no two nodes of one context end at the same
    address (SimProcedures apart, and every other node having a size)
    is left as it is: [normalize] only sets the flag [_normalized]. *)
Theorem normalize_without_conflict cfg fuel :
  (∀ n, n ∈ nodes (_graph cfg) → is_simprocedure n = false → is_Some (size n)) →
  (∀ n m, n ∈ nodes (_graph cfg) → m ∈ nodes (_graph cfg) →
          is_simprocedure n = false → is_simprocedure m = false →
          callstack_key n = callstack_key m → end_of n = end_of m → n = m) →
  normalize enum pick fuel cfg = Some (Ok (normalized_of cfg))
  ∧ _graph (normalized_of cfg) = _graph cfg
  ∧ _nodes (normalized_of cfg) = _nodes cfg.
Proof. intros Hsized Hone. split; [by apply normalize_no_conflict|done]. Qed.

(** X4: On a graph as described by [normalizable], a second run of
    [normalize] changes nothing: it returns the object the first run
    returned. *)
Theorem normalize_twice cfg fuel cfg' :
  normalizable (_graph cfg) →
  normalize enum pick fuel cfg = Some (Ok cfg') →
  ∀ fuel', normalize enum pick fuel' cfg' = Some (Ok cfg').
Proof.
  intros Hnz. unfold normalize at 1.
  destruct (build_end_addresses_inv enum enum_spec _ Hnz) as (E & -> & Hinv).
  destruct (normalize_loop _ _ _ _) as [r|] eqn:Hloop; [|done].
  apply (normalize_loop_inv enum enum_spec pick pick_some) in Hloop
    as (st' & -> & Hinv' & Hpick); [|done].
  intros [= <-] fuel'.
  destruct Hinv' as [_ _ Hidx Hmem _ _].
  rewrite normalize_no_conflict; [done| |]; simpl.
  - intros n Hn Hp. destruct (Hidx n Hn Hp) as (z & -> & _). by eexists.
  - intros n m Hn Hm Hpn Hpm Hk He.
    destruct (Hidx n Hn Hpn) as (zn & Hzn & Hng).
    destruct (Hidx m Hm Hpm) as (zm & Hzm & Hmg).
    unfold end_of in He. rewrite Hzn, Hzm in He. simpl in He.
    rewrite <- He, <- Hk in Hmg.
    by apply (size_le_1_elim _ n m
                (pick_none _ Hpick (addr n + zn, callstack_key n))).
Qed.

(** X5: What [normalize] asks of a graph still holds of the graph it
    returns. *)
Theorem normalize_keeps_normalizable cfg fuel cfg' :
  normalizable (_graph cfg) →
  normalize enum pick fuel cfg = Some (Ok cfg') →
  normalizable (_graph cfg').
Proof.
  intros Hnz. unfold normalize.
  destruct (build_end_addresses_inv enum enum_spec _ Hnz) as (E & -> & Hinv).
  destruct (normalize_loop _ _ _ _) as [r|] eqn:Hloop; [|done].
  apply (normalize_loop_inv enum enum_spec pick pick_some) in Hloop
    as (st' & -> & Hinv' & Hpick); [|done].
  intros [= <-]. simpl.
  destruct Hinv' as [Hwf Hloop Hidx Hmem Huniq Hsuf].
  split; [|split; [|split; [|split]]].
  - intros [u v] d Hd. apply (Hwf u v). by eexists.
  - intros [u v] d Hd. apply (Hloop u v). by eexists.
  - intros n Hn Hp. destruct (Hidx n Hn Hp) as (z & Hz & Hg).
    destruct (Hmem _ _ Hg) as [(_ & z' & Hz' & Hpos & _) _].
    unfold positive_size. rewrite Hz'. done.
  - intros n Hn m Hm Hpn Hpm Ha Hs Hk.
    destruct (Hidx n Hn Hpn) as (zn & Hzn & Hng).
    destruct (Hidx m Hm Hpm) as (zm & Hzm & Hmg).
    apply (Huniq (addr n + zn, callstack_key n)); [done| |done].
    rewrite Hzn, Hzm in Hs. injection Hs as ->. by rewrite Ha, Hk.
  - intros n Hn m Hm. apply (Hsuf n m Hn Hm).
Qed.

(** X6: A node that is no SimProcedure and has no size makes [normalize]
    raise [TypeError] in its first loop, and the first loop raises
    nothing otherwise. *)
Theorem normalize_needs_sizes cfg :
  ((∃ n, n ∈ nodes (_graph cfg) ∧ is_simprocedure n = false ∧ size n = None)
   → ∀ fuel, normalize enum pick fuel cfg = Some (Raise TypeError))
  ∧ ((∀ n, n ∈ nodes (_graph cfg) → is_simprocedure n = false →
           is_Some (size n))
     → ∃ E, build_end_addresses enum (_graph cfg) = Ok E).
Proof.
  split.
  - intros (n & Hn & Hp & Hz) fuel. unfold normalize, build_end_addresses.
    change (λ E n, if is_simprocedure n then Ok E
                   else let* end_addr := end_addr_of n in
                        Ok (index_add E (end_addr, callstack_key n) n))
      with build_step.
    rewrite build_fold_raises; [done|].
    exists n. by rewrite (elem_of_enum enum enum_spec).
  - intros Hsized.
    destruct (build_end_addresses_groups _ Hsized) as (E & HE & _). eauto.
Qed.

End with_order.

Import QueryFacts MoreExamples.

Lemma normalize_terminates_witness :
  ∃ cfg', normalize enum0 pick0 19 (cfg_of g_split) = Some (Ok cfg')
          ∧ _normalized cfg' = true.
Proof.
  apply (normalize_terminates enum0 enum0_spec pick0 pick0_some).
  - by_computation.
  - by_computation.
Defined.

Lemma normalize_keeps_starts_witness :
  starts (nodes (_graph (normalize0 1 (cfg_of g_split)))) = starts (nodes g_split).
Proof.
  assert (Hnz : normalizable g_split) by by_computation.
  assert (Hrun : normalize enum0 pick0 1 (cfg_of g_split)
                 = Some (Ok (normalize0 1 (cfg_of g_split))))
    by (apply normalize0_run; vm_compute; reflexivity).
  exact (proj1 (normalize_keeps_starts enum0 enum0_spec pick0 pick0_some
                  (cfg_of g_split) 1 _ Hnz Hrun)).
Defined.

Lemma normalize_without_conflict_witness :
  normalize enum0 pick0 0 (cfg_of g_overlap)
  = Some (Ok (normalized_of (cfg_of g_overlap))).
Proof.
  assert (H1 : set_Forall (λ n, is_simprocedure n = false → is_Some (size n))
                 (nodes g_overlap)) by by_computation.
  assert (H2 : set_Forall (λ n, set_Forall (λ m,
                 is_simprocedure n = false → is_simprocedure m = false →
                 callstack_key n = callstack_key m → end_of n = end_of m →
                 n = m) (nodes g_overlap)) (nodes g_overlap)) by by_computation.
  apply (normalize_without_conflict enum0 enum0_spec pick0 pick0_some
           (cfg_of g_overlap) 0).
  - intros n Hn. exact (H1 n Hn).
  - intros n m Hn Hm. exact (H2 n Hn m Hm).
Defined.

Lemma normalize_twice_witness :
  normalize enum0 pick0 5 (normalize0 1 (cfg_of g_split))
  = Some (Ok (normalize0 1 (cfg_of g_split))).
Proof.
  assert (Hnz : normalizable g_split) by by_computation.
  assert (Hrun : normalize enum0 pick0 1 (cfg_of g_split)
                 = Some (Ok (normalize0 1 (cfg_of g_split))))
    by (apply normalize0_run; vm_compute; reflexivity).
  exact (normalize_twice enum0 enum0_spec pick0 pick0_some pick0_none
           (cfg_of g_split) 1 _ Hnz Hrun 5).
Defined.

Lemma normalize_keeps_normalizable_witness :
  normalizable (_graph (normalize0 1 (cfg_of g_split))).
Proof.
  assert (Hnz : normalizable g_split) by by_computation.
  assert (Hrun : normalize enum0 pick0 1 (cfg_of g_split)
                 = Some (Ok (normalize0 1 (cfg_of g_split))))
    by (apply normalize0_run; vm_compute; reflexivity).
  exact (normalize_keeps_normalizable enum0 enum0_spec pick0 pick0_some
           (cfg_of g_split) 1 _ Hnz Hrun).
Defined.

Lemma normalize_needs_sizes_witness :
  normalize enum0 pick0 3 (cfg_of g_unsized) = Some (Raise TypeError).
Proof.
  apply (proj1 (normalize_needs_sizes enum0 enum0_spec pick0 (cfg_of g_unsized))).
  exists unsized. split; [by_computation|done].
Defined.

End NormalizeTotal.

(** ** Neighbours of a node *)

Module NeighbourFacts.
Import CFG Examples MoreExamples Neighbours QueryFacts.

Implicit Types (g : DiGraph CFGNode) (n p s : CFGNode).
Implicit Types (e : CFGNode * CFGNode * gmap string attr).

Lemma elem_of_out_edges g n e :
  e ∈ out_edges g n ↔ edges g !! e.1 = Some e.2 ∧ e.1.1 = n.
Proof.
  unfold out_edges, edge_list. rewrite list_elem_of_filter.
  destruct e as [k d]. rewrite elem_of_map_to_list. simpl. tauto.
Qed.

Lemma NoDup_out_edges_targets g n :
  NoDup ((λ e, e.1.2) <$> out_edges g n).
Proof.
  assert (((λ e, e.1.2) <$> out_edges g n) = snd <$> (out_edges g n).*1) as ->.
  { by rewrite <- list_fmap_compose. }
  apply NoDup_fmap_2_strong.
  - intros [u1 v1] [u2 v2] H1 H2 Heq. simpl in Heq. subst v2.
    apply list_elem_of_fmap in H1 as ([? ?] & [= <-] & [_ ?]%elem_of_out_edges).
    apply list_elem_of_fmap in H2 as ([? ?] & [= <-] & [_ ?]%elem_of_out_edges).
    simpl in *. congruence.
  - apply NoDup_fmap_fst.
    + intros k d1 d2 H1%elem_of_out_edges H2%elem_of_out_edges. simpl in *.
      destruct H1 as [H1 _], H2 as [H2 _]. congruence.
    + apply NoDup_filter, NoDup_map_to_list.
Qed.

Lemma elem_of_successors g n s :
  s ∈ successors g n ↔ is_Some (edges g !! (n, s)).
Proof.
  unfold successors. rewrite list_elem_of_fmap. split.
  - intros ([[u' v'] d] & -> & [He Hv]%elem_of_out_edges). simpl in *.
    subst u'. eauto.
  - intros [d Hd]. exists (n, s, d). split; [done|].
    by apply elem_of_out_edges.
Qed.

(** The edges the loops of [get_predecessors] and [get_successors]
    keep. *)
Definition real_edge e : Prop := e.2 !! "jumpkind" ≠ Some Ijk_FakeRet.

#[local] Instance real_edge_dec e : Decision (real_edge e).
Proof. unfold real_edge. apply _. Defined.

Section loops.
Context {A : Type} (proj : CFGNode * CFGNode * gmap string attr → A).

Definition keep_real (acc : list A) e : result (list A) :=
  let* jumpkind := jumpkind_of e.2 in
  Ok (if bool_decide (jumpkind ≠ Ijk_FakeRet) then acc ++ [proj e] else acc).

Lemma keep_real_ok es acc :
  (∀ e, e ∈ es → is_Some (e.2 !! "jumpkind")) →
  foldM keep_real acc es = Ok (acc ++ (proj <$> filter real_edge es)).
Proof.
  revert acc. induction es as [|e es IH]; intros acc Hall; simpl.
  { by rewrite app_nil_r. }
  destruct (Hall e) as [j Hj]; [by left|].
  unfold keep_real at 1, jumpkind_of. rewrite Hj. simpl.
  rewrite IH by (intros e' He'; apply Hall; by right).
  rewrite filter_cons.
  assert (real_edge e ↔ j ≠ Ijk_FakeRet) as Hiff.
  { unfold real_edge. rewrite Hj. split; congruence. }
  case_bool_decide as Hne.
  - rewrite decide_True by (by apply Hiff). by rewrite <- (assoc_L (++)).
  - rewrite decide_False; [done|]. by intros Hc%Hiff.
Qed.

Lemma keep_real_raises es acc :
  (∃ e, e ∈ es ∧ e.2 !! "jumpkind" = None) →
  foldM keep_real acc es = Raise KeyError.
Proof.
  revert acc. induction es as [|e es IH]; intros acc (e0 & Hin & Hnone).
  { by apply elem_of_nil in Hin. }
  simpl. unfold keep_real at 1, jumpkind_of.
  destruct (e.2 !! "jumpkind") as [j|] eqn:Hj; [|done]. simpl.
  apply IH. apply elem_of_cons in Hin as [->|Hin]; [congruence|eauto].
Qed.

Lemma keep_real_cases (es : list (CFGNode * CFGNode * gmap string attr)) :
  (∀ e, e ∈ es → is_Some (e.2 !! "jumpkind"))
  ∨ (∃ e, e ∈ es ∧ e.2 !! "jumpkind" = None).
Proof.
  induction es as [|e es [IH|(e0 & Hin & Hnone)]].
  - left. by intros e ?%elem_of_nil.
  - destruct (e.2 !! "jumpkind") as [j|] eqn:Hj.
    + left. intros e' [->|?]%elem_of_cons; [eauto|by apply IH].
    + right. exists e. split; [by left|done].
  - right. exists e0. split; [by right|done].
Qed.

Lemma keep_real_raise_iff es :
  foldM keep_real [] es = Raise KeyError
  ↔ ∃ e, e ∈ es ∧ e.2 !! "jumpkind" = None.
Proof.
  split; [|apply keep_real_raises].
  destruct (keep_real_cases es) as [Hall|Hbad]; [|done].
  by rewrite keep_real_ok.
Qed.
End loops.

(** X7: [get_predecessors] without the fake returns raises [KeyError]
    exactly when an incoming edge has no jump kind; otherwise it lists,
    each once, the sources of the incoming edges whose jump kind is not
    ['Ijk_FakeRet']. *)
Theorem get_predecessors_excluding_fakeret g n :
  (get_predecessors g n true = Raise KeyError
   ↔ ∃ p d, edges g !! (p, n) = Some d ∧ d !! "jumpkind" = None)
  ∧ ((∀ p d, edges g !! (p, n) = Some d → is_Some (d !! "jumpkind")) →
     ∃ l, get_predecessors g n true = Ok l ∧ NoDup l
          ∧ ∀ p, p ∈ l ↔ ∃ d j, edges g !! (p, n) = Some d
                                 ∧ d !! "jumpkind" = Some j
                                 ∧ j ≠ Ijk_FakeRet).
Proof.
  unfold get_predecessors. simpl.
  change (foldM _ [] (in_edges g n))
    with (foldM (keep_real (λ e, e.1.1)) [] (in_edges g n)).
  split.
  - rewrite keep_real_raise_iff. split.
    + intros ([[p v] d] & [He Hv]%elem_of_in_edges & Hnone). simpl in *.
      subst v. eauto.
    + intros (p & d & He & Hnone). exists (p, n, d).
      split; [by apply elem_of_in_edges|done].
  - intros Hall. rewrite keep_real_ok; cycle 1.
    { intros [[p v] d] [He Hv]%elem_of_in_edges. simpl in *. subst v.
      by apply (Hall p d). }
    eexists. split; [done|]. simpl. split.
    + eapply sublist_NoDup; [apply (NoDup_in_edges_sources g n)|].
      apply fmap_sublist, sublist_filter.
    + intros p. rewrite list_elem_of_fmap. split.
      * intros ([[p' v] d] & -> & [Hreal [He Hv]%elem_of_in_edges]%list_elem_of_filter).
        simpl in *. subst v. destruct (Hall p' d He) as [j Hj].
        exists d, j. split; [done|]. split; [done|].
        intros ->. by apply Hreal.
      * intros (d & j & He & Hj & Hne). exists (p, n, d). split; [done|].
        apply list_elem_of_filter. split.
        -- unfold real_edge. simpl. rewrite Hj. congruence.
        -- by apply elem_of_in_edges.
Qed.

(** X8: [get_successors] without the fake returns raises [KeyError]
    exactly when an outgoing edge has no jump kind; otherwise it lists,
    each once, the targets of the outgoing edges whose jump kind is not
    ['Ijk_FakeRet']. *)
Theorem get_successors_excluding_fakeret g n :
  (get_successors g n true = Raise KeyError
   ↔ ∃ s d, edges g !! (n, s) = Some d ∧ d !! "jumpkind" = None)
  ∧ ((∀ s d, edges g !! (n, s) = Some d → is_Some (d !! "jumpkind")) →
     ∃ l, get_successors g n true = Ok l ∧ NoDup l
          ∧ ∀ s, s ∈ l ↔ ∃ d j, edges g !! (n, s) = Some d
                                 ∧ d !! "jumpkind" = Some j
                                 ∧ j ≠ Ijk_FakeRet).
Proof.
  unfold get_successors. simpl.
  change (foldM _ [] (out_edges g n))
    with (foldM (keep_real (λ e, e.1.2)) [] (out_edges g n)).
  split.
  - rewrite keep_real_raise_iff. split.
    + intros ([[u s] d] & [He Hu]%elem_of_out_edges & Hnone). simpl in *.
      subst u. eauto.
    + intros (s & d & He & Hnone). exists (n, s, d).
      split; [by apply elem_of_out_edges|done].
  - intros Hall. rewrite keep_real_ok; cycle 1.
    { intros [[u s] d] [He Hu]%elem_of_out_edges. simpl in *. subst u.
      by apply (Hall s d). }
    eexists. split; [done|]. simpl. split.
    + eapply sublist_NoDup; [apply (NoDup_out_edges_targets g n)|].
      apply fmap_sublist, sublist_filter.
    + intros s. rewrite list_elem_of_fmap. split.
      * intros ([[u s'] d] & -> & [Hreal [He Hu]%elem_of_out_edges]%list_elem_of_filter).
        simpl in *. subst u. destruct (Hall s' d He) as [j Hj].
        exists d, j. split; [done|]. split; [done|].
        intros ->. by apply Hreal.
      * intros (d & j & He & Hj & Hne). exists (n, s, d). split; [done|].
        apply list_elem_of_filter. split.
        -- unfold real_edge. simpl. rewrite Hj. congruence.
        -- by apply elem_of_out_edges.
Qed.

(** X9: With the fake returns, [get_predecessors] and [get_successors]
    look at no jump kind and raise nothing: they list the sources of
    the incoming edges and the targets of the outgoing edges, and
    nothing for a node that is not in the graph.  In a graph whose
    edges join nodes of the graph, what they list without the fake
    returns is a sublist of that. *)
Theorem neighbours_including_fakeret g n :
  (∃ l, get_predecessors g n false = Ok l
        ∧ ∀ p, p ∈ l ↔ n ∈ nodes g ∧ is_Some (edges g !! (p, n)))
  ∧ (∃ l, get_successors g n false = Ok l
          ∧ ∀ s, s ∈ l ↔ n ∈ nodes g ∧ is_Some (edges g !! (n, s)))
  ∧ (graph_wf g →
     (∀ l l', get_predecessors g n true = Ok l →
              get_predecessors g n false = Ok l' → l `sublist_of` l')
     ∧ (∀ l l', get_successors g n true = Ok l →
                get_successors g n false = Ok l' → l `sublist_of` l')).
Proof.
  split; [|split].
  - unfold get_predecessors. simpl. case_bool_decide as Hn.
    + eexists. split; [done|]. intros p. rewrite elem_of_predecessors. tauto.
    + eexists. split; [done|]. intros p. rewrite elem_of_nil. tauto.
  - unfold get_successors. simpl. case_bool_decide as Hn.
    + eexists. split; [done|]. intros s. rewrite elem_of_successors. tauto.
    + eexists. split; [done|]. intros s. rewrite elem_of_nil. tauto.
  - intros Hwf. split.
    + intros l l'. unfold get_predecessors. simpl.
      change (foldM _ [] (in_edges g n))
        with (foldM (keep_real (λ e, e.1.1)) [] (in_edges g n)).
      destruct (keep_real_cases (in_edges g n)) as [Hall|Hbad];
        [|by rewrite keep_real_raises].
      rewrite keep_real_ok by done. intros [= <-]. simpl.
      case_bool_decide as Hn; intros [= <-].
      * apply fmap_sublist, sublist_filter.
      * destruct (in_edges g n) as [|e es] eqn:He; [done|].
        exfalso. apply Hn.
        assert (e ∈ in_edges g n) as [Hin <-]%elem_of_in_edges
          by (rewrite He; left).
        destruct e as [[u v] d]. by apply (Hwf u v); eexists.
    + intros l l'. unfold get_successors. simpl.
      change (foldM _ [] (out_edges g n))
        with (foldM (keep_real (λ e, e.1.2)) [] (out_edges g n)).
      destruct (keep_real_cases (out_edges g n)) as [Hall|Hbad];
        [|by rewrite keep_real_raises].
      rewrite keep_real_ok by done. intros [= <-]. simpl.
      case_bool_decide as Hn; intros [= <-].
      * apply fmap_sublist, sublist_filter.
      * destruct (out_edges g n) as [|e es] eqn:He; [done|].
        exfalso. apply Hn.
        assert (e ∈ out_edges g n) as [Hin <-]%elem_of_out_edges
          by (rewrite He; left).
        destruct e as [[u v] d]. by apply (Hwf u v); eexists.
Qed.

(** *** [get_successors_and_jumpkind] *)

(** The pair one outgoing edge contributes. *)
Definition successor_and_jumpkind (excluding_fakeret : bool) e
  : option (CFGNode * attr) :=
  match e.2 !! "jumpkind" with
  | Some j =>
      if negb excluding_fakeret || bool_decide (j ≠ Ijk_FakeRet)
      then Some (e.1.2, j) else None
  | None => None
  end.

Definition keep_pair (excluding_fakeret : bool)
    (successors_ : list (CFGNode * attr)) e : result (list (CFGNode * attr)) :=
  let* keep :=
    if negb excluding_fakeret then Ok true
    else let* jumpkind := jumpkind_of e.2 in
         Ok (bool_decide (jumpkind ≠ Ijk_FakeRet)) in
  if keep : bool then
    let* jumpkind := jumpkind_of e.2 in
    Ok (successors_ ++ [(e.1.2, jumpkind)])
  else Ok successors_.

Lemma keep_pair_ok excl es acc :
  (∀ e, e ∈ es → is_Some (e.2 !! "jumpkind")) →
  foldM (keep_pair excl) acc es
  = Ok (acc ++ omap (successor_and_jumpkind excl) es).
Proof.
  revert acc. induction es as [|e es IH]; intros acc Hall; simpl.
  { by rewrite app_nil_r. }
  destruct (Hall e) as [j Hj]; [by left|].
  unfold keep_pair at 1, successor_and_jumpkind at 1, jumpkind_of.
  rewrite Hj. destruct excl; simpl.
  - case_bool_decide; simpl; rewrite IH by (intros e' He'; apply Hall; by right);
      [by rewrite <- (assoc_L (++))|done].
  - rewrite IH by (intros e' He'; apply Hall; by right).
    by rewrite <- (assoc_L (++)).
Qed.

Lemma keep_pair_raises excl es acc :
  (∃ e, e ∈ es ∧ e.2 !! "jumpkind" = None) →
  foldM (keep_pair excl) acc es = Raise KeyError.
Proof.
  revert acc. induction es as [|e es IH]; intros acc (e0 & Hin & Hnone).
  { by apply elem_of_nil in Hin. }
  simpl. unfold keep_pair at 1, jumpkind_of.
  destruct (e.2 !! "jumpkind") as [j|] eqn:Hj; [|by destruct excl].
  assert (∃ e, e ∈ es ∧ e.2 !! "jumpkind" = None) as Hrest.
  { apply elem_of_cons in Hin as [->|Hin]; [congruence|eauto]. }
  destruct excl; simpl; [case_bool_decide; simpl|]; by apply IH.
Qed.

Lemma omap_cons_Some {A B} (f : A → option B) x y l :
  f x = Some y → omap f (x :: l) = y :: omap f l.
Proof. intros Hf. simpl. by rewrite Hf. Qed.

Lemma omap_cons_None {A B} (f : A → option B) x l :
  f x = None → omap f (x :: l) = omap f l.
Proof. intros Hf. simpl. by rewrite Hf. Qed.

Lemma successor_and_jumpkind_fst es :
  (∀ e, e ∈ es → is_Some (e.2 !! "jumpkind")) →
  (omap (successor_and_jumpkind true) es).*1
  = (λ e, e.1.2) <$> filter real_edge es
  ∧ (omap (successor_and_jumpkind false) es).*1 = (λ e, e.1.2) <$> es.
Proof.
  induction es as [|e es IH]; intros Hall; [done|].
  destruct (Hall e) as [j Hj]; [by left|].
  destruct IH as [IH1 IH2]; [intros e' He'; apply Hall; by right|].
  assert (real_edge e ↔ j ≠ Ijk_FakeRet) as Hiff.
  { unfold real_edge. rewrite Hj. split; congruence. }
  split.
  - rewrite filter_cons. destruct (decide (real_edge e)) as [Hr|Hr].
    + rewrite (omap_cons_Some _ e (e.1.2, j)).
      * rewrite !fmap_cons. by rewrite IH1.
      * unfold successor_and_jumpkind. rewrite Hj. simpl.
        by rewrite bool_decide_eq_true_2 by (by apply Hiff).
    + rewrite omap_cons_None; [done|].
      unfold successor_and_jumpkind. rewrite Hj. simpl.
      rewrite bool_decide_eq_false_2; [done|]. by intros Hc%Hiff.
  - rewrite (omap_cons_Some _ e (e.1.2, j)).
    + rewrite !fmap_cons. by rewrite IH2.
    + unfold successor_and_jumpkind. by rewrite Hj.
Qed.

(** X10: [get_successors_and_jumpkind] raises [KeyError] exactly when an
    outgoing edge has no jump kind, with and without the fake returns.
    Otherwise it lists the targets of the outgoing edges with their
    jump kinds (without those of kind ['Ijk_FakeRet'], when they are
    excluded), and for a node of the graph its targets are what
    [get_successors] returns. *)
Theorem get_successors_and_jumpkind_spec g n excl :
  (get_successors_and_jumpkind g n excl = Raise KeyError
   ↔ ∃ s d, edges g !! (n, s) = Some d ∧ d !! "jumpkind" = None)
  ∧ ((∀ s d, edges g !! (n, s) = Some d → is_Some (d !! "jumpkind")) →
     ∃ l, get_successors_and_jumpkind g n excl = Ok l
          ∧ (∀ s j, (s, j) ∈ l ↔
                    ∃ d, edges g !! (n, s) = Some d
                         ∧ d !! "jumpkind" = Some j
                         ∧ (excl = true → j ≠ Ijk_FakeRet))
          ∧ (n ∈ nodes g → get_successors g n excl = Ok (l.*1))).
Proof.
  unfold get_successors_and_jumpkind.
  change (foldM _ [] (out_edges g n))
    with (foldM (keep_pair excl) [] (out_edges g n)).
  assert (Hgood : (∀ s d, edges g !! (n, s) = Some d →
                          is_Some (d !! "jumpkind")) →
                  ∀ e, e ∈ out_edges g n → is_Some (e.2 !! "jumpkind")).
  { intros Hall [[u s] d] [He Hu]%elem_of_out_edges. simpl in *. subst u.
    by apply (Hall s d). }
  split.
  - split.
    + destruct (keep_real_cases (out_edges g n)) as [Hall|Hbad].
      * by rewrite keep_pair_ok.
      * intros _. destruct Hbad as ([[u s] d] & [He Hu]%elem_of_out_edges & Hnone).
        simpl in *. subst u. eauto.
    + intros (s & d & He & Hnone). apply keep_pair_raises.
      exists (n, s, d). split; [by apply elem_of_out_edges|done].
  - intros Hall. specialize (Hgood Hall).
    rewrite keep_pair_ok by done. eexists. split; [done|]. simpl. split.
    + intros s j. rewrite list_elem_of_omap. split.
      * intros ([[u s'] d] & [He Hu]%elem_of_out_edges & Hsj). simpl in *.
        subst u. unfold successor_and_jumpkind in Hsj. simpl in Hsj.
        destruct (d !! "jumpkind") as [j'|] eqn:Hj; [|done].
        destruct (negb excl || bool_decide (j' ≠ Ijk_FakeRet)) eqn:Hk; [|done].
        injection Hsj as -> ->. exists d. split; [done|]. split; [done|].
        intros ->. simpl in Hk. by apply bool_decide_eq_true in Hk.
      * intros (d & He & Hj & Hne). exists (n, s, d).
        split; [by apply elem_of_out_edges|].
        unfold successor_and_jumpkind. simpl. rewrite Hj.
        destruct excl; simpl; [|done].
        by rewrite bool_decide_eq_true_2 by (by apply Hne).
    + intros Hn. unfold get_successors.
      destruct (successor_and_jumpkind_fst (out_edges g n) Hgood) as [H1 H2].
      destruct excl; simpl.
      * change (foldM _ [] (out_edges g n))
          with (foldM (keep_real (λ e, e.1.2)) [] (out_edges g n)).
        rewrite keep_real_ok by done. simpl. by rewrite H1.
      * rewrite bool_decide_eq_true_2 by done. by rewrite H2.
Qed.

(** *** [get_branching_nodes] *)

Lemma out_degree_two g n :
  (2 ≤ out_degree g n)%nat
  ↔ ∃ s1 s2, s1 ≠ s2 ∧ is_Some (edges g !! (n, s1))
             ∧ is_Some (edges g !! (n, s2)).
Proof.
  unfold out_degree.
  rewrite <- (length_fmap (λ e, e.1.2) (out_edges g n)).
  fold (successors g n).
  pose proof (NoDup_out_edges_targets g n) as Hnd. fold (successors g n) in Hnd.
  split.
  - intros Hlen. destruct (successors g n) as [|s1 [|s2 l]] eqn:Hs;
      simpl in Hlen; [lia|lia|].
    exists s1, s2. split.
    + apply NoDup_cons in Hnd as [Hnotin _]. intros ->. apply Hnotin. by left.
    + rewrite <- !elem_of_successors, Hs. split; [by left|by right; left].
  - intros (s1 & s2 & Hne & H1%elem_of_successors & H2%elem_of_successors).
    destruct (successors g n) as [|a [|b l]]; simpl; [|  |lia].
    + by apply elem_of_nil in H1.
    + apply list_elem_of_singleton in H1, H2. congruence.
Qed.

Lemma branching_fold g l (acc : gset CFGNode) x :
  x ∈ foldl (λ nodes_ n, if bool_decide (2 ≤ out_degree g n)%nat
                         then nodes_ ∪ {[ n ]} else nodes_) acc l
  ↔ x ∈ acc ∨ (x ∈ l ∧ (2 ≤ out_degree g x)%nat).
Proof.
  revert acc. induction l as [|n l IH]; intros acc; simpl.
  { rewrite elem_of_nil. tauto. }
  rewrite IH, elem_of_cons. case_bool_decide as Hd.
  - rewrite elem_of_union, elem_of_singleton. split.
    + intros [[?| ->]|[? ?]]; auto.
    + intros [?|[[->|?] ?]]; auto.
  - split.
    + intros [?|[? ?]]; auto.
    + intros [?|[[->|?] ?]]; [auto|done|auto].
Qed.

(** X11: [get_branching_nodes] returns the nodes of the graph that have two
    different successors or more, whatever the order in which the
    nodes are visited. *)
Theorem get_branching_nodes_spec enum g n :
  (∀ X x, x ∈ enum X ↔ x ∈ X) →
  n ∈ get_branching_nodes enum g
  ↔ n ∈ nodes g
    ∧ ∃ s1 s2, s1 ≠ s2 ∧ is_Some (edges g !! (n, s1))
               ∧ is_Some (edges g !! (n, s2)).
Proof.
  intros Henum. unfold get_branching_nodes.
  rewrite branching_fold, Henum, out_degree_two, elem_of_empty. tauto.
Qed.

Lemma get_branching_nodes_spec_witness :
  P ∈ get_branching_nodes enum0 g_call.
Proof.
  apply (get_branching_nodes_spec enum0 g_call P).
  - intros X x. apply elem_of_elements.
  - split; [by_computation|]. exists A, B.
    split; [discriminate|]. split; by_computation.
Defined.

Lemma jumpkinds_g_call :
  map_Forall (λ _ d, is_Some (d !! "jumpkind")) (edges g_call).
Proof. by_computation. Qed.

Lemma get_predecessors_excluding_fakeret_witness :
  ∃ l, get_predecessors g_call B true = Ok l ∧ NoDup l
       ∧ ∀ p, p ∈ l ↔ ∃ d j, edges g_call !! (p, B) = Some d
                              ∧ d !! "jumpkind" = Some j
                              ∧ j ≠ Ijk_FakeRet.
Proof.
  apply (proj2 (get_predecessors_excluding_fakeret g_call B)).
  intros p d He. exact (jumpkinds_g_call _ _ He).
Defined.

Lemma get_successors_excluding_fakeret_witness :
  ∃ l, get_successors g_call P true = Ok l ∧ NoDup l
       ∧ ∀ s, s ∈ l ↔ ∃ d j, edges g_call !! (P, s) = Some d
                              ∧ d !! "jumpkind" = Some j
                              ∧ j ≠ Ijk_FakeRet.
Proof.
  apply (proj2 (get_successors_excluding_fakeret g_call P)).
  intros s d He. exact (jumpkinds_g_call _ _ He).
Defined.

Lemma wf_g_call : graph_wf g_call.
Proof.
  assert (map_Forall (λ k _, k.1 ∈ nodes g_call ∧ k.2 ∈ nodes g_call)
            (edges g_call)) as Hwf by by_computation.
  intros u v [d Hd]. exact (Hwf (u, v) d Hd).
Qed.

Lemma neighbours_including_fakeret_witness :
  graph_wf g_call
  ∧ (∀ l l', get_successors g_call P true = Ok l →
             get_successors g_call P false = Ok l' → l `sublist_of` l').
Proof.
  split; [exact wf_g_call|].
  exact (proj2 (proj2 (proj2 (neighbours_including_fakeret g_call P)) wf_g_call)).
Defined.

Lemma get_successors_and_jumpkind_spec_witness :
  ∃ l, get_successors_and_jumpkind g_call P true = Ok l
       ∧ (∀ s j, (s, j) ∈ l ↔
                 ∃ d, edges g_call !! (P, s) = Some d
                      ∧ d !! "jumpkind" = Some j
                      ∧ (true = true → j ≠ Ijk_FakeRet))
       ∧ (P ∈ nodes g_call → get_successors g_call P true = Ok (l.*1)).
Proof.
  apply (proj2 (get_successors_and_jumpkind_spec g_call P true)).
  intros s d He. exact (jumpkinds_g_call _ _ He).
Defined.

End NeighbourFacts.

(** ** Looking a node up by address *)

Module LookupFacts.
Import CFG Examples MoreExamples QueryFacts.

(** What [get_any_node] looks for: a node in loop iteration zero that
    starts at the address (or, with [anyaddr], contains it, when the
    node has a size) and, when [is_syscall] is given, has that flag. *)
Definition found (a : Z) (is_sys : option bool) (anyaddr : bool)
    (n : CFGNode) : Prop :=
  looping_times n = 0
  ∧ match anyaddr, size n with
    | true, Some sz => addr n ≤ a < addr n + sz
    | _, _ => a = addr n
    end
  ∧ ∀ b, is_sys = Some b → is_syscall n = b.

(** X12: [get_any_node] returns a node of the graph that is as asked for,
    and returns [None] only when the graph has no such node; without
    [anyaddr], what it returns is among what [get_all_nodes] returns
    for the address. *)
Theorem get_any_node_spec enum g a is_sys anyaddr :
  (∀ X x, x ∈ enum X ↔ x ∈ X) →
  (∀ n, get_any_node enum g a is_sys anyaddr = Some n →
        n ∈ nodes g ∧ found a is_sys anyaddr n
        ∧ (anyaddr = false → ∀ s, n ∈ get_all_nodes enum g a s))
  ∧ (get_any_node enum g a is_sys anyaddr = None
     ↔ ∀ n, n ∈ nodes g → ¬ found a is_sys anyaddr n).
Proof.
  intros Henum. unfold get_any_node.
  match goal with
  | |- context [filter ?P (enum (nodes g))] => set (Pm := P)
  end.
  assert (Hm : ∀ n, Pm n ↔ found a is_sys anyaddr n).
  { intros n. unfold Pm, found.
    destruct anyaddr, (size n), is_sys as [b|];
      rewrite ?andb_true_iff, ?bool_decide_eq_true;
      (split;
       [intros H; repeat split; try tauto; try lia;
        try (by intros ? [= <-]; tauto); done
       |intros (? & ? & Hb); repeat split; try tauto; try lia;
        try (by apply Hb)]). }
  assert (Hin : ∀ n, n ∈ filter Pm (enum (nodes g))
                     ↔ found a is_sys anyaddr n ∧ n ∈ nodes g).
  { intros n. by rewrite list_elem_of_filter, Hm, Henum. }
  split.
  - intros n Hhead.
    assert (n ∈ filter Pm (enum (nodes g))) as [Hf Hn]%Hin.
    { destruct (filter _ _) as [|x l]; [done|]. injection Hhead as ->. left. }
    split; [done|]. split; [done|].
    intros -> s. rewrite get_all_nodes_unfiltered.
    apply list_elem_of_filter. split; [|by apply Henum].
    by destruct Hf as (_ & -> & _).
  - rewrite head_None. split.
    + intros Hnil n Hn Hf.
      assert (n ∈ filter Pm (enum (nodes g))) as Hc by (by apply Hin).
      rewrite Hnil in Hc. by apply elem_of_nil in Hc.
    + intros Hnone. destruct (filter Pm (enum (nodes g))) as [|x l] eqn:Hl;
        [done|].
      destruct (proj1 (Hin x)) as [Hf Hn]; [left|].
      by destruct (Hnone x Hn).
Qed.

Lemma get_any_node_spec_witness :
  get_any_node enum0 g_overlap 7 None true = None
  ↔ ∀ n, n ∈ nodes g_overlap → ¬ found 7 None true n.
Proof.
  apply (get_any_node_spec enum0 g_overlap 7 None true).
  intros X x. apply elem_of_elements.
Defined.

End LookupFacts.

(** ** What a pass of the return analysis reports *)

Module ReportFacts.
Import CFG Examples MoreExamples QueryFacts ReturnFacts.

(** The inference from the transition graph leaves the store as it is
    or sets the flag of the function once. *)
Lemma infer_cases enum cfg ch a func r :
  infer_from_transition_graph enum cfg ch a func = Ok r →
  r = (cfg, ch) ∨ ∃ b, r = mark cfg ch a b.
Proof.
  unfold infer_from_transition_graph. intros H.
  case_bind H etr. case_bind H tg.
  destruct (filter _ _) as [|le les]; [left; congruence|].
  case_bind H tes. case_bind H aer.
  destruct aer as [|x xs]; [left; simpl in H; congruence|].
  destruct (mapM unpack (x :: xs)) as [flags|] eqn:Hflags; simpl in H;
    [|discriminate H].
  destruct (forallb (λ i, bool_decide (i = Some false)) flags) eqn:Hfalse;
    simpl in H.
  - destruct (bool_decide (x = Pair (Some (AStr "transition")) (Some true)))
      eqn:Hx; simpl in H.
    + exfalso. apply bool_decide_eq_true in Hx. subst x. simpl in Hflags.
      destruct (mapM unpack xs); simpl in Hflags; [|discriminate Hflags].
      injection Hflags as <-. simpl in Hfalse. done.
    + right. exists false. by injection H as <-.
  - destruct (_ && _).
    + right. exists true. by injection H as <-.
    + left. by injection H as <-.
Qed.

(** One function is analysed: nothing changes, or the flag of the
    function, unknown so far, is set and the function is put on the
    list of [changes] for its new flag. *)
Lemma analyze_function_cases enum cfg ch a r :
  analyze_function enum cfg ch a = Ok r →
  r = (cfg, ch)
  ∨ ∃ f b, functions cfg !! a = Some f ∧ Knowledge.returning f = None
           ∧ r = mark cfg ch a b.
Proof.
  unfold analyze_function, function. intros H.
  destruct (functions cfg !! a) as [func|] eqn:Hf; [|discriminate H].
  destruct (Knowledge.returning func) as [b|] eqn:Hr; [left; congruence|].
  destruct (Knowledge.endpoints func).
  - destruct (hooks cfg !! Knowledge.addr func ≫= Knowledge.NO_RET) as [[]|].
    + right. exists func, false. split; [done|]. split; [done|congruence].
    + right. exists func, true. split; [done|]. split; [done|congruence].
    + apply infer_cases in H as [->|[b ->]]; [by left|].
      right. by exists func, b.
  - right. exists func, true. split; [done|]. split; [done|congruence].
Qed.

(** The list of [changes] for the flag [b]. *)
Definition listed (b : bool) (ch : changes) : list Z :=
  if b then functions_return ch else functions_do_not_return ch.

(** The flag of the function at [a] went from unknown to [b]. *)
Definition flag_set (cfg0 cfg : CFGBase) (a : Z) (b : bool) : Prop :=
  ∃ f, functions cfg0 !! a = Some f ∧ Knowledge.returning f = None
       ∧ functions cfg !! a = Some (Knowledge.set_returning b f).

(** The invariant of the loop over the functions: [changes] lists the
    functions whose flag has been set, each on the list for its flag;
    every other function is as it was; nothing else of the object has
    changed. *)
Record reported (cfg0 cfg : CFGBase) (ch : changes) : Prop := {
  rep_listed : ∀ b a, a ∈ listed b ch ↔ flag_set cfg0 cfg a b;
  rep_other : ∀ a, functions cfg !! a = functions cfg0 !! a
                   ∨ ∃ b, flag_set cfg0 cfg a b;
  rep_frame : cfg = with_functions cfg0 (functions cfg)
}.

Lemma reported_start cfg :
  reported cfg cfg {| functions_return := []; functions_do_not_return := [] |}.
Proof.
  split.
  - intros b a. split.
    + destruct b; simpl; by intros ?%elem_of_nil.
    + intros (f & Hf & Hr & Hf'). rewrite Hf in Hf'. injection Hf' as Hf'.
      apply (f_equal Knowledge.returning) in Hf'. simpl in Hf'. congruence.
  - by left.
  - by destruct cfg.
Qed.

Lemma reported_mark cfg0 cfg ch a f b :
  reported cfg0 cfg ch →
  functions cfg !! a = Some f → Knowledge.returning f = None →
  reported cfg0 (mark cfg ch a b).1 (mark cfg ch a b).2.
Proof.
  intros [Hl Ho Hfr] Hf Hr.
  assert (Hf0 : functions cfg0 !! a = Some f).
  { destruct (Ho a) as [<-|(b' & f0 & _ & _ & Hf')]; [done|].
    rewrite Hf in Hf'. injection Hf' as ->. done. }
  assert (Hnew : ∀ b', flag_set cfg0 (mark cfg ch a b).1 a b' ↔ b' = b).
  { intros b'. unfold flag_set. simpl. rewrite lookup_alter_eq, Hf, Hf0. simpl.
    split.
    - intros (f' & [= <-] & _ & [= Heq]). done.
    - intros ->. eauto. }
  assert (Hold : ∀ b' a', a' ≠ a →
            flag_set cfg0 (mark cfg ch a b).1 a' b' ↔ flag_set cfg0 cfg a' b').
  { intros b' a' Hne. unfold flag_set. simpl. by rewrite lookup_alter_ne. }
  assert (Hnot : ∀ b', a ∉ listed b' ch).
  { intros b' (f0 & Hf0' & _ & Hf')%Hl. rewrite Hf in Hf'.
    injection Hf' as ->. done. }
  split.
  - intros b' a'.
    assert (listed b' (mark cfg ch a b).2
            = if decide (b' = b) then listed b' ch ++ [a] else listed b' ch)
      as ->.
    { destruct b, b'; done. }
    destruct (decide (a' = a)) as [->|Hne].
    + rewrite Hnew. case_decide as Hb.
      * rewrite elem_of_app, list_elem_of_singleton. tauto.
      * split; [by intros ?%Hnot|done].
    + rewrite (Hold _ _ Hne), <- Hl. case_decide; [|done].
      rewrite elem_of_app, list_elem_of_singleton. tauto.
  - intros a'. destruct (decide (a' = a)) as [->|Hne].
    + right. exists b. by apply Hnew.
    + destruct (Ho a') as [Hsame|[b' Hset]].
      * left. simpl. by rewrite lookup_alter_ne.
      * right. exists b'. by apply Hold.
  - simpl. rewrite Hfr at 1. done.
Qed.

Lemma analyze_loop_reported enum l cfg0 cfg ch cfg' r :
  reported cfg0 cfg ch →
  analyze_loop enum cfg ch l = (cfg', r) →
  (∀ a, functions cfg' !! a = functions cfg0 !! a ∨ ∃ b, flag_set cfg0 cfg' a b)
  ∧ cfg' = with_functions cfg0 (functions cfg')
  ∧ ∀ ch', r = Ok ch' → reported cfg0 cfg' ch'.
Proof.
  revert cfg ch. induction l as [|a l IH]; intros cfg ch Hrep; simpl.
  { intros [= <- <-]. split; [apply Hrep|]. split; [apply Hrep|].
    by intros ch' [= <-]. }
  destruct (analyze_function enum cfg ch a) as [[cfg1 ch1]|e] eqn:Hs.
  - apply analyze_function_cases in Hs as [[= -> ->]|(f & b & Hf & Hr & Hm)].
    + by apply IH.
    + apply IH.
      assert (cfg1 = (mark cfg ch a b).1) as -> by (by rewrite <- Hm).
      assert (ch1 = (mark cfg ch a b).2) as -> by (by rewrite <- Hm).
      by apply (reported_mark _ _ _ _ f).
  - intros [= <- <-]. split; [apply Hrep|]. split; [apply Hrep|done].
Qed.

(** X13: A pass of the return analysis only sets flags that were unknown,
    and changes nothing else of the object but the set
    [_changed_functions] it extends with the callers.  When it returns,
    [functions_return] lists exactly the functions whose flag it set
    to true and [functions_do_not_return] exactly those whose flag it
    set to false. *)
Theorem pass_reports_its_changes enum enum_addrs cfg :
  let cfg' := (_analyze_function_features enum enum_addrs cfg).1 in
  (∀ a, functions cfg' !! a = functions cfg !! a
        ∨ ∃ f b, functions cfg !! a = Some f ∧ Knowledge.returning f = None
                 ∧ functions cfg' !! a = Some (Knowledge.set_returning b f))
  ∧ _graph cfg' = _graph cfg ∧ _nodes cfg' = _nodes cfg
  ∧ hooks cfg' = hooks cfg ∧ callgraph cfg' = callgraph cfg
  ∧ ∀ ch, (_analyze_function_features enum enum_addrs cfg).2 = Ok ch →
      ∀ a b, a ∈ (if b : bool then functions_return ch
                  else functions_do_not_return ch)
             ↔ ∃ f, functions cfg !! a = Some f
                    ∧ Knowledge.returning f = None
                    ∧ functions cfg' !! a = Some (Knowledge.set_returning b f).
Proof.
  intros cfg'. subst cfg'. unfold _analyze_function_features.
  set (all := all_functions enum_addrs cfg).
  set (cfg0 := match _changed_functions cfg with
               | Some _ => with_changed_functions cfg (Some all)
               | None => cfg
               end).
  assert (H0 : functions cfg0 = functions cfg ∧ _graph cfg0 = _graph cfg
               ∧ _nodes cfg0 = _nodes cfg ∧ hooks cfg0 = hooks cfg
               ∧ callgraph cfg0 = callgraph cfg).
  { unfold cfg0. by destruct (_changed_functions cfg). }
  destruct H0 as (Hfs & Hg & Hn & Hh & Hc).
  destruct (analyze_loop enum cfg0 _ (enum_addrs all)) as [cfg' r] eqn:Hloop.
  destruct (analyze_loop_reported _ _ _ _ _ _ _ (reported_start cfg0) Hloop)
    as (Hother & Hframe & Hrep).
  simpl. rewrite <- Hfs, <- Hg, <- Hn, <- Hh, <- Hc.
  split; [|split; [|split; [|split; [|split]]]].
  - intros a. destruct (Hother a) as [?|(b & f & ? & ? & ?)]; [by left|].
    right. eauto.
  - by rewrite Hframe.
  - by rewrite Hframe.
  - by rewrite Hframe.
  - by rewrite Hframe.
  - intros ch' -> a b. destruct (Hrep ch' eq_refl) as [Hl _ _].
    destruct b; [apply (Hl true a)|apply (Hl false a)].
Qed.

Lemma pass_reports_its_changes_witness :
  ∃ ch, (_analyze_function_features enum0 enum_addrs0 store_single).2 = Ok ch
        ∧ (4096 ∈ functions_return ch
           ↔ ∃ f, functions store_single !! 4096 = Some f
                  ∧ Knowledge.returning f = None
                  ∧ functions
                      (_analyze_function_features enum0 enum_addrs0 store_single).1
                      !! 4096
                    = Some (Knowledge.set_returning true f)).
Proof.
  destruct ((_analyze_function_features enum0 enum_addrs0 store_single).2)
    as [ch|] eqn:Hch; [|by vm_compute in Hch].
  exists ch. split; [done|].
  destruct (pass_reports_its_changes enum0 enum_addrs0 store_single)
    as (_ & _ & _ & _ & _ & Hrep).
  exact (Hrep ch Hch 4096 true).
Defined.

End ReportFacts.

(** ** More on the dependencies of actions *)

Module ActionMore.
Import Action ActionFacts.

(** The dependencies an operand brings: those of the object it is or is
    wrapped into; a raw value brings none. *)
Definition operand_deps (sel : SimActionObject → gset Z) (v : option arg)
  : gset Z :=
  match _make_object v with
  | Some o => sel o
  | None => ∅
  end.

(** X14: The dependencies of a [SimActionExit] are those of its target and
    of its condition; asking for them raises [TypeError] exactly when
    the action was given neither. *)
Theorem SimActionExit_deps state tgt cond et :
  let act_ := SimActionExit_init state tgt cond et in
  (exit_tmp_deps act_ = Raise TypeError ↔ tgt = None ∧ cond = None)
  ∧ (exit_reg_deps act_ = Raise TypeError ↔ tgt = None ∧ cond = None)
  ∧ (tgt ≠ None ∨ cond ≠ None →
     exit_tmp_deps act_
     = Ok (operand_deps tmp_deps tgt ∪ operand_deps tmp_deps cond)
     ∧ exit_reg_deps act_
       = Ok (operand_deps reg_deps tgt ∪ operand_deps reg_deps cond)).
Proof.
  intros act_. subst act_.
  unfold exit_tmp_deps, exit_reg_deps, base_tmp_deps, base_reg_deps,
    exit_all_objects, operand_deps. simpl.
  destruct tgt as [[r|o]|], cond as [[r'|o']|]; simpl;
    (split; [|split]);
    first [ by split; [done|intros [? ?]]
          | by split
          | intros _; split; f_equal; set_solver
          | by intros [?|?] ].
Qed.

(** X15: Asking a [SimActionData] for its dependencies raises [TypeError]
    exactly when it was given none of its six operands, whether or not
    it was given a temporary slot. *)
Theorem SimActionData_deps_raise state region act tmp_ a s d c f fd_ :
  let act_ := SimActionData_init state region act tmp_ a s d c f fd_ in
  let no_operand := a = None ∧ s = None ∧ d = None ∧ c = None ∧ f = None
                    ∧ fd_ = None in
  (data_tmp_deps act_ = Raise TypeError ↔ no_operand)
  ∧ (data_reg_deps act_ = Raise TypeError ↔ no_operand)
  ∧ (¬ no_operand →
     ∃ ts rs, data_tmp_deps act_ = Ok ts ∧ data_reg_deps act_ = Ok rs).
Proof.
  intros act_ no_operand.
  assert (Hobj : all_objects act_ = [] ↔ no_operand).
  { subst act_ no_operand. unfold all_objects. simpl.
    destruct a as [[]|], s as [[]|], d as [[]|], c as [[]|], f as [[]|],
      fd_ as [[]|]; simpl; split; try done; intros (? & ? & ? & ? & ? & ?);
      congruence. }
  destruct (decide (all_objects act_ = [])) as [Hnil|Hne].
  - unfold data_tmp_deps, data_reg_deps, base_tmp_deps, base_reg_deps.
    rewrite Hnil. simpl. rewrite <- Hobj. tauto.
  - destruct (data_deps_nonempty act_ Hne) as [-> ->].
    rewrite <- Hobj. repeat split; try done; eauto.
Qed.

(** X16: [offset] is set exactly for an action on the register file that is
    given an integer as its address; when such an action is a read, the
    offset is among the register dependencies it reports. *)
Theorem register_offset_is_a_dependency state region act tmp_ a s d c f fd_ z :
  let act_ := SimActionData_init state region act tmp_ a s d c f fd_ in
  (offset act_ = Some z ↔ region = REG ∧ a = Some (Raw (RInt z)))
  ∧ (offset act_ = Some z → act = READ →
     ∃ rs, data_reg_deps act_ = Ok rs ∧ z ∈ rs).
Proof.
  intros act_.
  assert (Hoff : offset act_ = Some z ↔ region = REG ∧ a = Some (Raw (RInt z))).
  { subst act_. simpl. unfold REG.
    destruct a as [[[z'|]|]|]; simpl; try (split; [done|by intros [_ ?]]).
    case_bool_decide; split; try done.
    - by intros [= ->].
    - by intros [_ [= ->]].
    - by intros [? _]. }
  split; [done|].
  intros [-> ->]%Hoff ->.
  destruct (data_deps_nonempty act_) as [_ ->]; [done|].
  eexists. split; [done|]. subst act_.
  rewrite _reg_dep_init. unfold own_reg_dep. simpl.
  rewrite ?bool_decide_eq_true_2 by done. set_solver.
Qed.

End ActionMore.

(** ** The traversal of make_functions *)

Module TraversalFacts.
Import CFG Examples MoreExamples Traversal QueryFacts NeighbourFacts.

(** An edge whose jump kind is a string other than a call or a
    syscall: the traversal goes on behind it. *)
Definition follows (data : gmap string attr) : Prop :=
  is_call_or_syscall (jumpkind_or_empty data) = Ok false.

#[local] Instance result_eq_dec {A} `{EqDecision A} : EqDecision (result A).
Proof. solve_decision. Defined.

#[local] Instance follows_dec data : Decision (follows data).
Proof. unfold follows. apply _. Defined.

Section bfs.
Context {St : Type}.
Variable callback :
  St → CFGNode → option CFGNode → option (gmap string attr) → result St.
Variable g : DiGraph CFGNode.

(** What the loop over the outgoing edges of [n] appends to the
    stack. *)
Lemma visit_edges_stack traversed n es st stack st' stack' :
  foldM (visit_edge callback g traversed n) (st, stack) es = Ok (st', stack') →
  ∃ ext, stack' = stack ++ ext
    ∧ (∀ x, x ∈ ext → x ∈ successors g n ∧ x ∉ traversed
                      ∧ ∃ e, e ∈ es ∧ follows e.2)
    ∧ ((∃ e, e ∈ es ∧ follows e.2) →
       ∀ x, x ∈ successors g n → x ∉ traversed → x ∈ ext)
    ∧ (length ext ≤ length es * length (successors g n))%nat.
Proof.
  revert st stack. induction es as [|e es IH]; intros st stack; simpl.
  { intros [= <- <-]. exists []. rewrite app_nil_r. split; [done|].
    split; [by intros x ?%elem_of_nil|].
    split; [by intros (e & ?%elem_of_nil & _)|done]. }
  unfold visit_edge at 1. simpl.
  destruct (callback st e.1.1 (Some e.1.2) (Some e.2)) as [st1|]; [|done].
  simpl. destruct (is_call_or_syscall (jumpkind_or_empty e.2)) as [call|] eqn:Hc;
    [|done].
  simpl. destruct call.
  - intros (ext & -> & Hsub & Hall & Hlen)%IH. exists ext.
    split; [done|]. split; [|split].
    + intros x (? & ? & e' & ? & ?)%Hsub. split; [done|]. split; [done|].
      exists e'. split; [by right|done].
    + intros (e' & [->|Hin]%elem_of_cons & Hf).
      * unfold follows in Hf. congruence.
      * apply Hall. eauto.
    + lia.
  - intros (ext & -> & Hsub & Hall & Hlen)%IH.
    exists (filter (λ m, m ∉ traversed) (successors g n) ++ ext).
    split; [by rewrite (assoc_L (++))|]. split; [|split].
    + intros x [[Hnt Hs]%list_elem_of_filter|(? & ? & e' & ? & ?)%Hsub]%elem_of_app.
      * split; [done|]. split; [done|]. exists e. split; [by left|done].
      * split; [done|]. split; [done|]. exists e'. split; [by right|done].
    + intros _ x Hs Hnt. apply elem_of_app. left.
      by apply list_elem_of_filter.
    + rewrite length_app.
      pose proof (length_filter (λ m, m ∉ traversed) (successors g n)). lia.
Qed.

(** The traversal goes from [u] on to [v]: [u] is no returning node
    and [v] is one of its successors, and some edge that leaves [u] is
    neither a call nor a syscall. *)
Definition expands (u v : CFGNode) : Prop :=
  has_return u = false ∧ is_Some (edges g !! (u, v))
  ∧ ∃ w d, edges g !! (u, w) = Some d ∧ follows d.

Lemma visit_stack traversed n stack st st' stack' :
  visit callback g traversed stack st n = Ok (st', stack') →
  ∃ ext, stack' = stack ++ ext
    ∧ (∀ x, x ∈ ext → expands n x ∧ x ∉ traversed)
    ∧ (∀ x, expands n x → x ∉ traversed → x ∈ ext)
    ∧ (length ext ≤ out_degree g n * out_degree g n)%nat.
Proof.
  unfold visit. destruct (has_return n) eqn:Hret.
  { destruct (callback st n None (Some Ijk_Ret)); [|done]. simpl.
    intros [= <- <-]. exists []. rewrite app_nil_r. split; [done|].
    split; [by intros x ?%elem_of_nil|].
    split; [|simpl; lia]. intros x (? & _). congruence. }
  case_bool_decide as Hn; [|done].
  case_bool_decide as Hdeg.
  { destruct (callback st n None None); [|done]. simpl.
    intros [= <- <-]. exists []. rewrite app_nil_r. split; [done|].
    split; [by intros x ?%elem_of_nil|].
    split; [|simpl; lia].
    intros x (_ & Hx%elem_of_successors & _). unfold successors in Hx.
    unfold out_degree in Hdeg. apply nil_length_inv in Hdeg.
    rewrite Hdeg in Hx. by apply elem_of_nil in Hx. }
  intros (ext & -> & Hsub & Hall & Hlen)%visit_edges_stack.
  assert (Hf : (∃ e, e ∈ out_edges g n ∧ follows e.2)
               ↔ ∃ w d, edges g !! (n, w) = Some d ∧ follows d).
  { split.
    - intros ([[u w] d] & [He Hu]%elem_of_out_edges & Hfo). simpl in *.
      subst u. eauto.
    - intros (w & d & He & Hfo). exists (n, w, d).
      split; [by apply elem_of_out_edges|done]. }
  exists ext. split; [done|]. split; [|split].
  - intros x (Hs & Hnt & He)%Hsub. split; [|done].
    split; [done|]. split; [by apply elem_of_successors|by apply Hf].
  - intros x (_ & Hs & He) Hnt. apply Hall; [by apply Hf| |done].
    by apply elem_of_successors.
  - unfold successors in Hlen. rewrite length_fmap in Hlen. done.
Qed.

(** *** What is traversed *)

Lemma bfs_loop_traversed fuel stack traversed st st' traversed' :
  bfs_loop callback fuel g stack traversed st = Some (Ok (st', traversed')) →
  (∀ x, x ∈ traversed ∨ x ∈ stack → x ∈ traversed')
  ∧ (∀ x, x ∈ traversed' →
          x ∈ traversed ∨ ∃ s, s ∈ stack ∧ rtc expands s x)
  ∧ ((∀ u v, u ∈ traversed → expands u v → v ∈ traversed ∨ v ∈ stack) →
     ∀ u v, u ∈ traversed' → expands u v → v ∈ traversed').
Proof.
  revert stack traversed st.
  induction fuel as [|fuel IH]; intros stack traversed st.
  { destruct stack as [|n stack]; [|done]. simpl. intros [= <- <-].
    split; [by intros x [?|?%elem_of_nil]|]. split; [by left|].
    intros Hcl u v Hu He. by destruct (Hcl u v Hu He) as [?|?%elem_of_nil]. }
  destruct stack as [|n stack].
  { simpl. intros [= <- <-].
    split; [by intros x [?|?%elem_of_nil]|]. split; [by left|].
    intros Hcl u v Hu He. by destruct (Hcl u v Hu He) as [?|?%elem_of_nil]. }
  simpl. case_bool_decide as Hn.
  - intros (Hin & Hout & Hclosed)%IH. split; [|split].
    + intros x [?|[->|?]%elem_of_cons]; apply Hin; auto.
    + intros x [?|(s & Hs & Hr)]%Hout; [by left|].
      right. exists s. split; [by right|done].
    + intros Hcl. apply Hclosed. intros u v Hu He.
      destruct (Hcl u v Hu He) as [?|[->|?]%elem_of_cons]; auto.
  - destruct (visit callback g (traversed ∪ {[ n ]}) stack st n)
      as [[st1 stack1]|] eqn:Hv; [|done].
    apply visit_stack in Hv as (ext & -> & Hsub & Hall & _).
    intros (Hin & Hout & Hclosed)%IH. split; [|split].
    + intros x [?|[->|?]%elem_of_cons]; apply Hin.
      * left. set_solver.
      * left. set_solver.
      * right. apply elem_of_app. by left.
    + intros x [[?| ->%elem_of_singleton]%elem_of_union|(s & Hs & Hr)]%Hout.
      * by left.
      * right. exists n. split; [by left|done].
      * right. apply elem_of_app in Hs as [Hs|Hs].
        -- exists s. split; [by right|done].
        -- exists n. split; [by left|]. eapply rtc_l; [|done].
           by apply Hsub.
    + intros Hcl. apply Hclosed. intros u v Hu He.
      destruct (decide (v ∈ traversed ∪ {[ n ]})) as [?|Hnt]; [by left|].
      right. apply elem_of_app.
      apply elem_of_union in Hu as [Hu| ->%elem_of_singleton].
      * destruct (Hcl u v Hu He) as [?|[->|?]%elem_of_cons];
          [set_solver|set_solver|by left].
      * right. by apply Hall.
Qed.

(** X17: When the traversal returns, it has met exactly the nodes that can
    be reached from the start nodes by going from a node that does not
    return to any of its successors, as long as some edge that leaves
    the node is neither a call nor a syscall: behind such a node the
    targets of its call edges are met as well. *)
Theorem bfs_traverses_reachable fuel starts st st' traversed :
  _graph_bfs_custom callback fuel g starts st = Some (Ok (st', traversed)) →
  ∀ n, n ∈ traversed ↔ ∃ s, s ∈ starts ∧ rtc expands s n.
Proof.
  unfold _graph_bfs_custom.
  intros (Hin & Hout & Hclosed)%bfs_loop_traversed n. split.
  - intros [?%elem_of_empty|?]%Hout; done.
  - intros (s & Hs & Hr).
    assert (Hcl : ∀ u v, u ∈ traversed → expands u v → v ∈ traversed).
    { apply Hclosed. by intros u v ?%elem_of_empty. }
    assert (Hst : s ∈ traversed) by (apply Hin; by right). clear Hs.
    induction Hr as [x|x y z Hxy Hyz IHr]; [done|].
    apply IHr. by apply (Hcl x y).
Qed.

(** *** Termination *)

(** Enough fuel for the loop: what is on the stack, and for every node
    still to be met what its visit can put on the stack, plus one. *)
Definition bfs_fuel (stack : list CFGNode) (traversed : gset CFGNode) : nat :=
  length stack
  + base.size (nodes g ∖ traversed)
    * (length (edge_list g) * length (edge_list g) + 1).

Lemma out_degree_le n : (out_degree g n ≤ length (edge_list g))%nat.
Proof. unfold out_degree, out_edges. apply length_filter. Qed.

Lemma bfs_loop_total fuel stack traversed st :
  graph_wf g →
  (∀ x, x ∈ stack → x ∈ nodes g) →
  (bfs_fuel stack traversed ≤ fuel)%nat →
  ∃ r, bfs_loop callback fuel g stack traversed st = Some r.
Proof.
  intros Hwf. revert stack traversed st.
  induction fuel as [|fuel IH]; intros stack traversed st Hstack Hfuel.
  { destruct stack as [|n stack]; [by eexists|].
    unfold bfs_fuel in Hfuel. simpl in Hfuel. lia. }
  destruct stack as [|n stack]; [by eexists|].
  simpl. unfold bfs_fuel in Hfuel. simpl in Hfuel.
  case_bool_decide as Hn.
  - apply IH.
    + intros x Hx. apply Hstack. by right.
    + unfold bfs_fuel. lia.
  - destruct (visit callback g (traversed ∪ {[ n ]}) stack st n)
      as [[st1 stack1]|] eqn:Hv; [|by eexists].
    apply visit_stack in Hv as (ext & -> & Hsub & _ & Hlen).
    assert (Hng : n ∈ nodes g) by (apply Hstack; by left).
    assert (Hsz : base.size (nodes g ∖ traversed)
                  = S (base.size (nodes g ∖ (traversed ∪ {[ n ]})))).
    { assert (nodes g ∖ traversed
              = {[ n ]} ∪ nodes g ∖ (traversed ∪ {[ n ]})) as ->.
      { apply set_eq. intros x.
        rewrite elem_of_union, !elem_of_difference, elem_of_union,
          elem_of_singleton.
        destruct (decide (x = n)) as [->|]; tauto. }
      rewrite size_union by set_solver. by rewrite size_singleton. }
    pose proof (out_degree_le n) as Hdeg.
    apply IH.
    + intros x [Hx|Hx]%elem_of_app; [apply Hstack; by right|].
      destruct (Hsub x Hx) as [(_ & He & _) _]. by apply (Hwf n x).
    + unfold bfs_fuel. rewrite length_app. rewrite Hsz in Hfuel.
      set (D := length (edge_list g)) in *.
      set (u := base.size (nodes g ∖ (traversed ∪ {[ n ]}))) in *.
      assert (length ext ≤ D * D)%nat by nia.
      nia.
Qed.

(** X18: The traversal returns (a result or an exception of the callback):
    in a graph whose edges join nodes of the graph, started from nodes
    of the graph, its [while] loop runs at most
    [len(starts) + |nodes| * (|edges|^2 + 1)] times. *)
Theorem bfs_terminates fuel starts st :
  graph_wf g →
  (∀ n, n ∈ starts → n ∈ nodes g) →
  (length starts
   + base.size (nodes g) * (length (edge_list g) * length (edge_list g) + 1)
   ≤ fuel)%nat →
  ∃ r, _graph_bfs_custom callback fuel g starts st = Some r.
Proof.
  intros Hwf Hstarts Hfuel. apply bfs_loop_total; [done|done|].
  unfold bfs_fuel. by rewrite difference_empty_L.
Qed.

(** *** What the callback keeps *)

Section kept.
(** A preorder [R] on the states of the callback that every call
    follows, and a property [Q] of a node that its call establishes
    and later calls keep. *)
Variable R : St → St → Prop.
Variable Q : CFGNode → St → Prop.
Hypothesis R_refl : ∀ st, R st st.
Hypothesis R_trans : ∀ st1 st2 st3, R st1 st2 → R st2 st3 → R st1 st3.
Hypothesis Q_mono : ∀ n st st', Q n st → R st st' → Q n st'.
Hypothesis callback_ok :
  ∀ st src dst data st', callback st src dst data = Ok st' →
                         R st st' ∧ Q src st'.

Lemma visit_edges_kept traversed n es st stack st' stack' :
  (∀ e, e ∈ es → e.1.1 = n) →
  foldM (visit_edge callback g traversed n) (st, stack) es = Ok (st', stack') →
  R st st' ∧ (es ≠ [] → Q n st').
Proof.
  revert st stack. induction es as [|e es IH]; intros st stack Hsrc; simpl.
  { by intros [= <- <-]. }
  unfold visit_edge at 1. simpl.
  destruct (callback st e.1.1 (Some e.1.2) (Some e.2)) as [st1|] eqn:Hcb;
    [|done].
  apply callback_ok in Hcb as [HR HQ]. rewrite (Hsrc e) in HQ by (by left).
  simpl. destruct (is_call_or_syscall (jumpkind_or_empty e.2)) as [call|];
    [|done].
  simpl.
  assert (∀ stack1, foldM (visit_edge callback g traversed n) (st1, stack1) es
                    = Ok (st', stack') → R st st' ∧ (e :: es ≠ [] → Q n st'))
    as Hrest.
  { intros stack1 [HR' _]%IH; [|intros e' He'; apply Hsrc; by right].
    split; [by eapply R_trans|]. intros _. by eapply Q_mono. }
  destruct call; apply Hrest.
Qed.

Lemma visit_kept traversed n stack st st' stack' :
  visit callback g traversed stack st n = Ok (st', stack') →
  R st st' ∧ Q n st'.
Proof.
  unfold visit. destruct (has_return n).
  { destruct (callback st n None (Some Ijk_Ret)) as [st1|] eqn:Hcb; [|done].
    simpl. intros [= <- <-]. by apply callback_ok in Hcb. }
  case_bool_decide as Hn; [|done].
  case_bool_decide as Hdeg.
  { destruct (callback st n None None) as [st1|] eqn:Hcb; [|done].
    simpl. intros [= <- <-]. by apply callback_ok in Hcb. }
  intros [HR HQ]%visit_edges_kept.
  - split; [done|]. apply HQ. intros Hnil. apply Hdeg.
    unfold out_degree. by rewrite Hnil.
  - by intros e [_ ?]%elem_of_out_edges.
Qed.

Lemma bfs_loop_kept fuel stack traversed st st' traversed' :
  bfs_loop callback fuel g stack traversed st = Some (Ok (st', traversed')) →
  R st st' ∧ ∀ n, n ∈ traversed' → n ∈ traversed ∨ Q n st'.
Proof.
  revert stack traversed st.
  induction fuel as [|fuel IH]; intros stack traversed st.
  { destruct stack as [|n stack]; [|done]. simpl. intros [= <- <-]. auto. }
  destruct stack as [|n stack].
  { simpl. intros [= <- <-]. auto. }
  simpl. case_bool_decide as Hn; [apply IH|].
  destruct (visit callback g (traversed ∪ {[ n ]}) stack st n)
    as [[st1 stack1]|] eqn:Hv; [|done].
  apply visit_kept in Hv as [HR HQ].
  intros [HR' Hall]%IH. split; [by eapply R_trans|].
  intros x [[?| ->%elem_of_singleton]%elem_of_union|?]%Hall; auto.
  right. by eapply Q_mono.
Qed.
End kept.

End bfs.

(** *** The calls of the callback *)

Section calls.
Variable g : DiGraph CFGNode.

(** The arguments the callback gets for a node [src] that is met: one
    call for a returning node, one for a node without successors, and
    otherwise one call for each outgoing edge. *)
Definition called_with (src : CFGNode) (dst : option CFGNode)
    (data : option (gmap string attr)) : Prop :=
  if has_return src then dst = None ∧ data = Some Ijk_Ret
  else if decide (out_degree g src = 0%nat) then dst = None ∧ data = None
  else ∃ v d, dst = Some v ∧ data = Some d ∧ edges g !! (src, v) = Some d.

Definition edge_event (e : CFGNode * CFGNode * gmap string attr) : event :=
  (e.1.1, Some e.1.2, Some e.2).

Lemma visit_edges_events traversed n es evs stack evs' stack' :
  foldM (visit_edge record_call g traversed n) (evs, stack) es
  = Ok (evs', stack') →
  evs' = evs ++ (edge_event <$> es).
Proof.
  revert evs stack. induction es as [|e es IH]; intros evs stack; simpl.
  { intros [= <- <-]. by rewrite app_nil_r. }
  unfold visit_edge at 1. simpl.
  destruct (is_call_or_syscall (jumpkind_or_empty e.2)) as [[]|]; [| |done];
    simpl; intros ->%IH; by rewrite <- (assoc_L (++)).
Qed.

Lemma visit_events traversed n stack evs evs' stack' :
  visit record_call g traversed stack evs n = Ok (evs', stack') →
  ∃ new, evs' = evs ++ new ∧ NoDup new
    ∧ ∀ src dst data, (src, dst, data) ∈ new ↔ src = n ∧ called_with n dst data.
Proof.
  unfold visit, called_with. destruct (has_return n).
  { simpl. intros [= <- <-]. eexists. split; [done|].
    split; [apply NoDup_singleton|]. intros src dst data.
    rewrite list_elem_of_singleton. split; [by intros [= -> -> ->]|].
    by intros (-> & -> & ->). }
  case_bool_decide as Hn; [|done].
  case_bool_decide as Hdeg.
  { simpl. intros [= <- <-]. eexists. split; [done|].
    split; [apply NoDup_singleton|]. intros src dst data.
    rewrite list_elem_of_singleton, decide_True by done.
    split; [by intros [= -> -> ->]|]. by intros (-> & -> & ->). }
  intros ->%visit_edges_events. eexists. split; [done|]. split.
  - apply NoDup_fmap_2.
    + intros [[u1 v1] d1] [[u2 v2] d2] [= -> -> ->]. done.
    + unfold out_edges, edge_list. apply NoDup_filter, NoDup_map_to_list.
  - intros src dst data. rewrite decide_False by done.
    rewrite list_elem_of_fmap. split.
    + intros ([[u v] d] & [= -> -> ->] & [He Hu]%elem_of_out_edges).
      simpl in *. subst u. split; [done|]. eauto.
    + intros (-> & v & d & -> & -> & He). exists (n, v, d).
      split; [done|]. by apply elem_of_out_edges.
Qed.

Lemma bfs_loop_events fuel stack traversed evs evs' traversed' :
  bfs_loop record_call fuel g stack traversed evs = Some (Ok (evs', traversed')) →
  ∃ new, evs' = evs ++ new ∧ NoDup new
    ∧ ∀ src dst data, (src, dst, data) ∈ new
        ↔ (src ∈ traversed' ∧ src ∉ traversed) ∧ called_with src dst data.
Proof.
  revert stack traversed evs.
  induction fuel as [|fuel IH]; intros stack traversed evs.
  { destruct stack as [|n stack]; [|done]. simpl. intros [= <- <-].
    exists []. rewrite app_nil_r. split; [done|]. split; [apply NoDup_nil_2|].
    intros src dst data. rewrite elem_of_nil. tauto. }
  destruct stack as [|n stack].
  { simpl. intros [= <- <-].
    exists []. rewrite app_nil_r. split; [done|]. split; [apply NoDup_nil_2|].
    intros src dst data. rewrite elem_of_nil. tauto. }
  simpl. case_bool_decide as Hn; [apply IH|].
  destruct (visit record_call g (traversed ∪ {[ n ]}) stack evs n)
    as [[evs1 stack1]|] eqn:Hv; [|done].
  apply visit_events in Hv as (vis & -> & Hnd & Hvis).
  intros Hloop.
  destruct (bfs_loop_traversed _ _ _ _ _ _ _ _ Hloop) as (Hin & _ & _).
  apply IH in Hloop as (new & -> & Hnd' & Hnew).
  exists (vis ++ new). split; [by rewrite (assoc_L (++))|]. split.
  - apply NoDup_app. split; [done|]. split; [|done].
    intros [[src dst] data] [-> _]%Hvis [[_ Hnot] _]%Hnew. set_solver.
  - intros src dst data. rewrite elem_of_app, Hvis, Hnew.
    assert (n ∈ traversed') by (apply Hin; left; set_solver).
    destruct (decide (src = n)) as [->|Hne]; [set_solver|].
    rewrite not_elem_of_union, not_elem_of_singleton. tauto.
Qed.

(** X19: With a callback that records its arguments: when the traversal
    returns, the callback has been called for the nodes that were met
    and for no other, for each of them once if it returns or has no
    successor, and else once for each of its outgoing edges; it has not
    been called twice with the same arguments. *)
Theorem bfs_calls_once fuel starts evs traversed :
  _graph_bfs_custom record_call fuel g starts [] = Some (Ok (evs, traversed)) →
  NoDup evs
  ∧ ∀ src dst data, (src, dst, data) ∈ evs
      ↔ src ∈ traversed ∧ called_with src dst data.
Proof.
  unfold _graph_bfs_custom.
  intros (new & -> & Hnd & Hnew)%bfs_loop_events. simpl. split; [done|].
  intros src dst data. rewrite Hnew. set_solver.
Qed.

End calls.

Lemma bfs_from_P_run :
  _graph_bfs_custom record_call 16 g_call [P] [] = Some (Ok bfs_from_P).
Proof.
  assert (returns (_graph_bfs_custom record_call 16 g_call [P] []) = true)
    as Hok by (vm_compute; reflexivity).
  unfold bfs_from_P.
  by destruct (_graph_bfs_custom record_call 16 g_call [P] []) as [[]|].
Qed.

Lemma bfs_traverses_reachable_witness :
  A ∈ bfs_from_P.2 ↔ ∃ s, s ∈ [P] ∧ rtc (expands g_call) s A.
Proof.
  assert (Hrun : _graph_bfs_custom record_call 16 g_call [P] []
                 = Some (Ok (bfs_from_P.1, bfs_from_P.2))).
  { rewrite bfs_from_P_run. by destruct bfs_from_P. }
  exact (bfs_traverses_reachable record_call g_call 16 [P] [] _ _ Hrun A).
Defined.

Lemma bfs_terminates_witness :
  ∃ r, _graph_bfs_custom record_call 16 g_call [P] [] = Some r.
Proof.
  apply (bfs_terminates record_call g_call 16 [P] [] wf_g_call).
  - intros n ->%list_elem_of_singleton. by_computation.
  - by_computation.
Defined.

Lemma bfs_calls_once_witness :
  NoDup bfs_from_P.1
  ∧ ∀ src dst data, (src, dst, data) ∈ bfs_from_P.1
      ↔ src ∈ bfs_from_P.2 ∧ called_with g_call src dst data.
Proof.
  assert (Hrun : _graph_bfs_custom record_call 16 g_call [P] []
                 = Some (Ok (bfs_from_P.1, bfs_from_P.2))).
  { rewrite bfs_from_P_run. by destruct bfs_from_P. }
  exact (bfs_calls_once g_call 16 [P] _ _ Hrun).
Defined.

End TraversalFacts.

(** ** Executable memory regions *)

Module RegionFacts.
Import Regions MoreExamples.


Lemma insert_by_start_perm x l : insert_by_start x l ≡ₚ x :: l.
Proof.
  induction l as [|y l IH]; simpl; [done|].
  case_bool_decide; [done|]. by rewrite IH, Permutation_swap.
Qed.

Lemma sort_by_start_perm l : sort_by_start l ≡ₚ l.
Proof.
  induction l as [|x l IH]; simpl; [done|].
  by rewrite insert_by_start_perm, IH.
Qed.




(** The regions found before they are sorted: those of the binaries,
    or those of the memory backers when the binaries give none. *)
Definition collected (loader : Loader) (binary : option Binary)
    (force_segment : bool) : list (Z * Z) :=
  let found :=
    match binary with
    | None => all_objects loader
    | Some b => [b]
    end ≫= regions_of force_segment in
  if decide (found = []) then
    (λ c : Z * Z, (rebase_addr (main_bin loader) + c.1,
                   rebase_addr (main_bin loader) + c.1 + c.2))
      <$> cbackers loader
  else found.

Lemma _executable_memory_regions_unfold loader binary force_segment :
  _executable_memory_regions loader binary force_segment
  = sort_by_start (collected loader binary force_segment).
Proof.
  unfold _executable_memory_regions, collected.
  destruct (_ ≫= regions_of force_segment); done.
Qed.


Lemma _addr_in_exec_memory_regions_true regions addr :
  _addr_in_exec_memory_regions regions addr = true
  ↔ ∃ r, r ∈ regions ∧ r.1 ≤ addr < r.2.
Proof.
  induction regions as [|[s e] rs IH]; simpl.
  { split; [done|]. by intros (r & ?%elem_of_nil & _). }
  destruct (bool_decide (s ≤ addr) && bool_decide (addr < e)) eqn:Hin.
  - split; [|done]. intros _. exists (s, e). split; [by left|].
    apply andb_true_iff in Hin as [?%bool_decide_eq_true ?%bool_decide_eq_true].
    done.
  - rewrite IH. split.
    + intros (r & ? & ?). exists r. split; [by right|done].
    + intros (r & [->|?]%elem_of_cons & Hr); [|eauto].
      simpl in Hr. apply andb_false_iff in Hin
        as [?%bool_decide_eq_false|?%bool_decide_eq_false]; lia.
Qed.

(** X21: An address is in executable memory exactly when one of the regions
    found contains it, the start included and the end not: sorting the
    regions does not change the answer. *)
Theorem _addr_in_exec_memory_regions_spec loader binary force_segment addr :
  _addr_in_exec_memory_regions
    (_executable_memory_regions loader binary force_segment) addr = true
  ↔ ∃ r, r ∈ collected loader binary force_segment ∧ r.1 ≤ addr < r.2.
Proof.
  rewrite _addr_in_exec_memory_regions_true.
  pose proof (sort_by_start_perm (collected loader binary force_segment)) as Hp.
  rewrite _executable_memory_regions_unfold.
  split; intros (r & Hr & ?); exists r; split; try done.
  - by rewrite <- Hp.
  - by rewrite Hp.
Qed.

(** The first region of a list that contains the address. *)
Lemma first_region_at_spec rebase rs addr :
  match first_region_at rebase rs addr with
  | Some r =>
      ∃ before after, rs = before ++ r :: after
        ∧ vaddr r + rebase ≤ addr < vaddr r + memsize r + rebase
        ∧ ∀ r', r' ∈ before →
                ¬ (vaddr r' + rebase ≤ addr < vaddr r' + memsize r' + rebase)
  | None =>
      ∀ r', r' ∈ rs →
            ¬ (vaddr r' + rebase ≤ addr < vaddr r' + memsize r' + rebase)
  end.
Proof.
  induction rs as [|r rs IH]; simpl.
  { by intros r' ?%elem_of_nil. }
  destruct (bool_decide (vaddr r + rebase ≤ addr)
            && bool_decide (addr < vaddr r + memsize r + rebase)) eqn:Hin.
  - apply andb_true_iff in Hin as [?%bool_decide_eq_true ?%bool_decide_eq_true].
    exists [], rs. split; [done|]. split; [done|]. by intros r' ?%elem_of_nil.
  - assert (¬ (vaddr r + rebase ≤ addr < vaddr r + memsize r + rebase)) as Hr.
    { apply andb_false_iff in Hin
        as [?%bool_decide_eq_false|?%bool_decide_eq_false]; lia. }
    destruct (first_region_at rebase rs addr) as [r0|].
    + destruct IH as (before & after & -> & Hr0 & Hbefore).
      exists (r :: before), after. split; [done|]. split; [done|].
      intros r' [->|?]%elem_of_cons; [done|by apply Hbefore].
    + intros r' [->|?]%elem_of_cons; [done|by apply IH].
Qed.

(** X22: [_addr_belongs_to_section] and [_addr_belongs_to_segment] return
    the first section (segment) of the object whose range
    [[vaddr + rebase, vaddr + memsize + rebase)] contains the address,
    and [None] exactly when there is no object or no section (segment)
    of the object contains the address; so a section (segment) is
    returned whenever one contains the address. *)
Theorem _addr_belongs_to_section_spec obj addr :
  (∀ r, _addr_belongs_to_section obj addr = Some r →
        ∃ o before after, obj = Some o ∧ sections o = before ++ r :: after
          ∧ vaddr r + rebase_addr o ≤ addr < vaddr r + memsize r + rebase_addr o
          ∧ ∀ r', r' ∈ before →
                  ¬ (vaddr r' + rebase_addr o ≤ addr
                     < vaddr r' + memsize r' + rebase_addr o))
  ∧ (_addr_belongs_to_section obj addr = None
     ↔ ∀ o, obj = Some o →
            ∀ r', r' ∈ sections o →
                  ¬ (vaddr r' + rebase_addr o ≤ addr
                     < vaddr r' + memsize r' + rebase_addr o))
  ∧ (∀ r, _addr_belongs_to_segment obj addr = Some r →
          ∃ o before after, obj = Some o ∧ segments o = before ++ r :: after
            ∧ vaddr r + rebase_addr o ≤ addr < vaddr r + memsize r + rebase_addr o
            ∧ ∀ r', r' ∈ before →
                    ¬ (vaddr r' + rebase_addr o ≤ addr
                       < vaddr r' + memsize r' + rebase_addr o))
  ∧ (_addr_belongs_to_segment obj addr = None
     ↔ ∀ o, obj = Some o →
            ∀ r', r' ∈ segments o →
                  ¬ (vaddr r' + rebase_addr o ≤ addr
                     < vaddr r' + memsize r' + rebase_addr o)).
Proof.
  unfold _addr_belongs_to_section, _addr_belongs_to_segment.
  destruct obj as [o|]; cycle 1.
  { split; [done|]. split; [done|]. split; [done|]. done. }
  pose proof (first_region_at_spec (rebase_addr o) (sections o) addr) as Hs.
  pose proof (first_region_at_spec (rebase_addr o) (segments o) addr) as Hg.
  split; [|split; [|split]].
  - intros r Hr. rewrite Hr in Hs.
    destruct Hs as (before & after & ? & ? & ?). by exists o, before, after.
  - destruct (first_region_at (rebase_addr o) (sections o) addr) as [r|].
    + split; [done|]. intros Hnone.
      destruct Hs as (before & after & Hsec & Hr & _).
      destruct (Hnone o eq_refl r); [|done].
      rewrite Hsec. apply elem_of_app. right. by left.
    + split; [|done]. by intros _ o' [= <-].
  - intros r Hr. rewrite Hr in Hg.
    destruct Hg as (before & after & ? & ? & ?). by exists o, before, after.
  - destruct (first_region_at (rebase_addr o) (segments o) addr) as [r|].
    + split; [done|]. intros Hnone.
      destruct Hg as (before & after & Hseg & Hr & _).
      destruct (Hnone o eq_refl r); [|done].
      rewrite Hseg. apply elem_of_app. right. by left.
    + split; [|done]. by intros _ o' [= <-].
Qed.

(** The executable sections of the example binary, in order. *)
Example elf_regions :
  _executable_memory_regions elf_loader None false
  = [(4096, 4351); (4608, 4863)]
  ∧ _addr_in_exec_memory_regions
      (_executable_memory_regions elf_loader None false) 4400 = false.
Proof. done. Qed.

End RegionFacts.

(** ** The handler of the traversal *)

Module BuilderFacts.
Import CFG Examples MoreExamples Neighbours Traversal Builder QueryFacts
  NeighbourFacts TraversalFacts.

Section handler.
Context {KB : Type}.
Variable hooked_by_syscall : Z → bool.
Variable _add_node : KB → Z → Z → bool → KB.
Variable returning : KB → Z → option bool.
Variable set_returning : KB → Z → option bool → KB.
Variable _add_return_from : KB → Z → Z → KB.
Variable _add_call_to : KB → Z → Z → Z → bool → KB.
Variable _add_fakeret_to : KB → Z → Z → Z → bool → KB.
Variable _add_transition_to : KB → Z → Z → Z → KB.
Variable _add_outside_transition_to : KB → Z → Z → Z → KB.
Variable known_functions : gmap Z (option bool).

Local Abbreviation to_function :=
  (_addr_to_function hooked_by_syscall _add_node set_returning known_functions).
Local Abbreviation handler :=
  (_graph_traversal_handler hooked_by_syscall _add_node returning
     set_returning _add_return_from _add_call_to _add_fakeret_to
     _add_transition_to _add_outside_transition_to known_functions).

Implicit Types (st : bstate (KB := KB)) (m : gmap Z Z).

Lemma to_function_spec st a :
  st.2 ⊆ (to_function st a).1.2
  ∧ (to_function st a).1.2 !! a = Some (to_function st a).2.
Proof.
  unfold _addr_to_function. destruct (st.2 !! a) as [f|] eqn:Ha; simpl.
  - done.
  - split; [by apply insert_subseteq|by rewrite lookup_insert_eq].
Qed.

Lemma claim_spec m a f :
  m ⊆ claim m a f ∧ is_Some (claim m a f !! a).
Proof.
  unfold claim. destruct (m !! a) as [f'|] eqn:Ha.
  - split; [done|]. by rewrite Ha.
  - split; [by apply insert_subseteq|]. by rewrite lookup_insert_eq.
Qed.

(** X23: One call of the handler keeps every entry of
    [blockaddr_to_function] and gives [src] one; the target of a call,
    syscall, boring or fake-return edge has one afterwards too. *)
Theorem handler_claims st src dst data st' :
  _graph_traversal_handler hooked_by_syscall _add_node returning
    set_returning _add_return_from _add_call_to _add_fakeret_to
    _add_transition_to _add_outside_transition_to known_functions
    st src dst data = Ok st' →
  st.2 ⊆ st'.2
  ∧ is_Some (st'.2 !! addr src)
  ∧ ∀ v d j, dst = Some v → data = Some d →
             d !! "jumpkind" = Some (AStr j) →
             j = "Ijk_Call" ∨ String.prefix "Ijk_Sys" j = true
             ∨ j = "Ijk_Boring" ∨ j = "Ijk_FakeRet" →
             is_Some (st'.2 !! addr v).
Proof.
  unfold _graph_traversal_handler.
  destruct (to_function_spec st (addr src)) as [Hsub Hsrc].
  destruct (to_function st (addr src)) as [st1 fsrc]. simpl in Hsub, Hsrc.
  assert (Hgoal : st1.2 ⊆ st'.2 →
            (∀ v d j, dst = Some v → data = Some d →
                      d !! "jumpkind" = Some (AStr j) →
                      j = "Ijk_Call" ∨ String.prefix "Ijk_Sys" j = true
                      ∨ j = "Ijk_Boring" ∨ j = "Ijk_FakeRet" →
                      is_Some (st'.2 !! addr v)) →
            st.2 ⊆ st'.2 ∧ is_Some (st'.2 !! addr src)
            ∧ ∀ v d j, dst = Some v → data = Some d →
                       d !! "jumpkind" = Some (AStr j) →
                       j = "Ijk_Call" ∨ String.prefix "Ijk_Sys" j = true
                       ∨ j = "Ijk_Boring" ∨ j = "Ijk_FakeRet" →
                       is_Some (st'.2 !! addr v)).
  { intros H1 H2. split; [by etrans|]. split; [|done].
    exists fsrc. by eapply lookup_weaken. }
  destruct data as [d|]; [|by intros [= <-]; apply Hgoal].
  unfold jumpkind_of. destruct (d !! "jumpkind") as [jk|] eqn:Hjk; [|done].
  simpl.
  set (st2 := if bool_decide (jk = AStr "Ijk_Ret")
              then (_add_return_from st1.1 fsrc (addr src), st1.2) else st1).
  assert (Hst2 : st2.2 = st1.2) by (unfold st2; by case_bool_decide).
  destruct dst as [v|]; [|intros [= <-]; apply Hgoal; [by rewrite Hst2|done]].
  destruct (is_call_or_syscall jk) as [call|] eqn:Hcall; [|done]. simpl.
  destruct call.
  - destruct (to_function_spec st2 (addr v)) as [Hsub3 Hdst].
    destruct (to_function st2 (addr v)) as [st3 fdst]. simpl in Hsub3, Hdst.
    rewrite Hst2 in Hsub3.
    case_bool_decide.
    + destruct (end_addr_of src) as [rt|]; [|done]. simpl. intros [= <-].
      destruct (claim_spec st3.2 rt fsrc) as [Hc _]. simpl.
      apply Hgoal; [by do 2 etrans|].
      intros v' d' j [= <-] _ _ _. exists fdst.
      eapply lookup_weaken; [exact Hdst|done].
    + intros [= <-]. simpl. apply Hgoal; [done|].
      intros v' d' j [= <-] _ _ _. by exists fdst.
  - case_bool_decide as Hboring.
    + destruct (_ || _).
      * intros [= <-].
        destruct (to_function_spec
                    (_add_outside_transition_to st2.1 fsrc (addr src) (addr v),
                     st2.2) (addr v)) as [Hsub3 Hdst].
        apply Hgoal; [|intros v' d' j [= <-] _ _ _; eauto].
        etrans; [|exact Hsub3]. simpl. by rewrite Hst2.
      * intros [= <-]. simpl.
        destruct (claim_spec st2.2 (addr v) fsrc) as [Hc Hv].
        rewrite Hst2 in Hc at 1.
        apply Hgoal; [done|]. by intros v' d' j [= <-] _ _ _.
    + case_bool_decide as Hfake.
      * intros [= <-]. simpl.
        destruct (claim_spec st2.2 (addr v) fsrc) as [Hc Hv].
        rewrite Hst2 in Hc at 1.
        apply Hgoal; [done|]. by intros v' d' j [= <-] _ _ _.
      * intros [= <-]. apply Hgoal; [by rewrite Hst2|].
        intros v' d' j [= <-] [= <-] Hj Hcases. exfalso.
        rewrite Hjk in Hj. injection Hj as ->.
        simpl in Hcall. injection Hcall as Hcall.
        apply orb_false_iff in Hcall as [Hc1 Hc2].
        apply bool_decide_eq_false in Hc1.
        destruct Hcases as [ -> | [ ? | [ -> | -> ] ] ]; [done|congruence|done|done].
Qed.

(** X24: The handler raises nothing for a single node; for an edge it
    raises [KeyError] exactly when the edge data have no jump kind, and
    nothing when the jump kind is a string and the source has a size (or
    there is no target); a jump kind that is no string makes it raise
    [AttributeError] when there is a target. *)
Theorem handler_raises st src dst :
  let run :=
    _graph_traversal_handler hooked_by_syscall _add_node returning
      set_returning _add_return_from _add_call_to _add_fakeret_to
      _add_transition_to _add_outside_transition_to known_functions
      st src dst in
  (∃ st', run None = Ok st')
  ∧ (∀ d, run (Some d) = Raise KeyError ↔ d !! "jumpkind" = None)
  ∧ (∀ d j, d !! "jumpkind" = Some (AStr j) →
            dst = None ∨ is_Some (size src) →
            ∃ st', run (Some d) = Ok st')
  ∧ (∀ d z, d !! "jumpkind" = Some (AInt z) → is_Some dst →
            run (Some d) = Raise AttributeError).
Proof.
  intros run. subst run. unfold _graph_traversal_handler.
  destruct (to_function st (addr src)) as [st1 fsrc].
  split; [by eexists|].
  split; [|split].
  - intros d. split.
    + destruct (d !! "jumpkind") as [[j|z]|] eqn:Hj; [| |done].
      * destruct dst as [v|]; [|by unfold jumpkind_of; rewrite Hj].
        unfold jumpkind_of. rewrite Hj. simpl.
        destruct (bool_decide (j = "Ijk_Call") || String.prefix "Ijk_Sys" j).
        -- destruct (to_function _ (addr v)) as [st2 fdst].
           case_bool_decide; [|done].
           unfold end_addr_of. by destruct (size src).
        -- repeat case_bool_decide; try destruct (_ || _); done.
      * unfold jumpkind_of. rewrite Hj. simpl. by destruct dst.
    + intros Hj. unfold jumpkind_of. by rewrite Hj.
  - intros d j Hj Hsz. unfold jumpkind_of. rewrite Hj. simpl.
    destruct dst as [v|]; [|by eexists].
    destruct Hsz as [?|[z Hz]]; [done|].
    destruct (bool_decide (j = "Ijk_Call") || String.prefix "Ijk_Sys" j).
    + destruct (to_function _ (addr v)) as [st2 fdst].
      case_bool_decide; [|by eexists].
      unfold end_addr_of. rewrite Hz. simpl. by eexists.
    + repeat case_bool_decide; try destruct (_ || _); by eexists.
  - intros d z Hj [v ->]. unfold jumpkind_of. by rewrite Hj.
Qed.

(** X25: The traversal with this handler keeps every entry that
    [blockaddr_to_function] had and gives every node it meets an
    entry: a block that belongs to a function is not given to another,
    and no block that is met is left without a function. *)
Theorem traversal_assigns_blocks g fuel starts st st' traversed :
  _graph_bfs_custom handler fuel g starts st = Some (Ok (st', traversed)) →
  st.2 ⊆ st'.2 ∧ ∀ n, n ∈ traversed → is_Some (st'.2 !! addr n).
Proof.
  unfold _graph_bfs_custom. intros Hrun.
  apply (bfs_loop_kept handler g (λ a b, a.2 ⊆ b.2)
           (λ n s, is_Some (s.2 !! addr n))) in Hrun as [Hsub Hall].
  - split; [done|]. intros n [?%elem_of_empty|?]%Hall; done.
  - done.
  - intros st1 st2 st3 ? ?. by etrans.
  - intros n st1 st2 [f Hf] Hsub. exists f. by eapply lookup_weaken.
  - intros st1 src dst data st2 (? & ? & _)%handler_claims. done.
Qed.

End handler.

Lemma handler_claims_witness :
  ∃ st', plain_handler (tt, ∅) P (Some A) (Some (edge_data "Ijk_Call" 3)) = Ok st'
         ∧ is_Some (st'.2 !! addr P) ∧ is_Some (st'.2 !! addr A).
Proof.
  destruct (plain_handler (tt, ∅) P (Some A) (Some (edge_data "Ijk_Call" 3)))
    as [st'|] eqn:Hrun; [|by vm_compute in Hrun].
  exists st'. split; [done|].
  destruct (handler_claims _ _ _ _ _ _ _ _ _ _ _ _ _ _ _ Hrun)
    as (_ & Hsrc & Hdst).
  split; [done|].
  apply (Hdst A (edge_data "Ijk_Call" 3) "Ijk_Call"); try done. by left.
Defined.

Lemma functions_from_P_run :
  _graph_bfs_custom plain_handler 16 g_call [P] (tt, ∅)
  = Some (Ok functions_from_P).
Proof.
  assert (returns (_graph_bfs_custom plain_handler 16 g_call [P] (tt, ∅)) = true)
    as Hok by (vm_compute; reflexivity).
  unfold functions_from_P.
  by destruct (_graph_bfs_custom plain_handler 16 g_call [P] (tt, ∅)) as [[]|].
Qed.

Lemma traversal_assigns_blocks_witness :
  ∅ ⊆ functions_from_P.1.2
  ∧ ∀ n, n ∈ functions_from_P.2 → is_Some (functions_from_P.1.2 !! addr n).
Proof.
  assert (Hrun : _graph_bfs_custom plain_handler 16 g_call [P] (tt, ∅)
                 = Some (Ok (functions_from_P.1, functions_from_P.2))).
  { rewrite functions_from_P_run. by destruct functions_from_P. }
  exact (traversal_assigns_blocks _ _ _ _ _ _ _ _ _ _ _ _ _ _ _ _ Hrun).
Defined.

End BuilderFacts.

(** ** The PLT stubs of make_functions *)

Module StubFacts.
Import CFG Examples MoreExamples Stubs QueryFacts.

Section stubs.
Variable is_plt : Knowledge.Function → bool.

(** A function that lies behind a PLT entry: its address is not a
    multiple of 16 and, rounded down to one, is the address of a
    function flagged as PLT. *)
Definition behind_plt (fs : gmap Z Knowledge.Function) (a : Z) : Prop :=
  a `mod` 16 ≠ 0 ∧ is_plt <$> fs !! (a - a `mod` 16) = Some true.

#[local] Instance behind_plt_dec fs a : Decision (behind_plt fs a).
Proof. unfold behind_plt. apply _. Defined.

Lemma to_remove_fold (fs : gmap Z Knowledge.Function) l (acc : gset Z) a :
  a ∈ foldl (λ to_remove_ fn,
               let addr_ := Knowledge.addr fn - Knowledge.addr fn `mod` 16 in
               if bool_decide (addr_ ≠ Knowledge.addr fn)
                  && match fs !! addr_ with
                     | Some f => is_plt f
                     | None => false
                     end
               then to_remove_ ∪ {[ Knowledge.addr fn ]} else to_remove_)
            acc l
  ↔ a ∈ acc ∨ ∃ fn, fn ∈ l ∧ Knowledge.addr fn = a ∧ behind_plt fs a.
Proof.
  revert acc. induction l as [|fn l IH]; intros acc; simpl.
  { split; [by left|]. by intros [?|(fn & ?%elem_of_nil & _)]. }
  rewrite IH. clear IH.
  assert (bool_decide (Knowledge.addr fn - Knowledge.addr fn `mod` 16
                       ≠ Knowledge.addr fn)
          && match fs !! (Knowledge.addr fn - Knowledge.addr fn `mod` 16) with
             | Some f => is_plt f
             | None => false
             end = true
          ↔ behind_plt fs (Knowledge.addr fn)) as Hcond.
  { unfold behind_plt. rewrite andb_true_iff, bool_decide_eq_true.
    destruct (fs !! _) as [f|]; simpl.
    - split.
      + intros [? ->]. split; [lia|done].
      + intros [? [= ->]]. split; [lia|done].
    - split; [by intros [_ ?]|by intros [_ ?]]. }
  destruct (_ && _).
  - assert (behind_plt fs (Knowledge.addr fn)) as Hb by (by apply Hcond).
    rewrite elem_of_union, elem_of_singleton. split.
    + intros [[?| ->]|(fn' & ? & ? & ?)]; [by left| |].
      * right. exists fn. split; [by left|done].
      * right. exists fn'. split; [by right|done].
    + intros [?|(fn' & [->|?]%elem_of_cons & ? & ?)]; [by left; left| |].
      * left. by right.
      * right. by exists fn'.
  - assert (¬ behind_plt fs (Knowledge.addr fn)) as Hb
      by (by intros ?%Hcond).
    split.
    + intros [?|(fn' & ? & ? & ?)]; [by left|].
      right. exists fn'. split; [by right|done].
    + intros [?|(fn' & [->|?]%elem_of_cons & Ha & ?)]; [by left| |].
      * exfalso. by rewrite Ha in Hb.
      * right. by exists fn'.
Qed.

(** The functions are kept under their own addresses. *)
Definition well_keyed (fs : gmap Z Knowledge.Function) : Prop :=
  ∀ a f, fs !! a = Some f → Knowledge.addr f = a.

Lemma elem_of_to_remove fs a :
  well_keyed fs →
  a ∈ to_remove is_plt fs ↔ is_Some (fs !! a) ∧ behind_plt fs a.
Proof.
  intros Hk. unfold to_remove. rewrite to_remove_fold, elem_of_empty. split.
  - intros [[]|(fn & Hin & Ha & Hb)]. split; [|done].
    apply list_elem_of_fmap in Hin as ([k f] & -> & Hkf%elem_of_map_to_list).
    simpl in *. rewrite <- Ha, (Hk _ _ Hkf). eauto.
  - intros [[f Hf] Hb]. right. exists f. split; [|split; [by apply Hk|done]].
    apply list_elem_of_fmap. exists (a, f). split; [done|].
    by apply elem_of_map_to_list.
Qed.

Lemma delete_fold (fs : gmap Z Knowledge.Function) l :
  NoDup l → (∀ a, a ∈ l → is_Some (fs !! a)) →
  ∃ fs', foldM (λ fs a, if bool_decide (is_Some (fs !! a))
                        then Ok (delete a fs) else Raise KeyError) fs l
         = Ok fs'
         ∧ ∀ a, fs' !! a = if decide (a ∈ l) then None else fs !! a.
Proof.
  revert fs. induction l as [|x l IH]; intros fs Hnd Hl; cbn [foldM].
  { exists fs. split; [done|]. intros a.
    by rewrite decide_False by apply not_elem_of_nil. }
  apply NoDup_cons in Hnd as [Hx Hnd].
  rewrite bool_decide_eq_true_2 by (apply Hl; by left). cbn [bind].
  destruct (IH (delete x fs) Hnd) as (fs' & -> & Hfs').
  { intros a Ha. rewrite lookup_delete_ne by (by intros ->).
    apply Hl. by right. }
  exists fs'. split; [done|]. intros a. rewrite Hfs'.
  destruct (decide (a = x)) as [->|Hne].
  - rewrite lookup_delete_eq.
    rewrite (decide_True (P := x ∈ x :: l)) by (by left). by case_decide.
  - rewrite lookup_delete_ne by done.
    destruct (decide (a ∈ l)).
    + by rewrite (decide_True (P := a ∈ x :: l)) by (by right).
    + rewrite (decide_False (P := a ∈ x :: l)); [done|].
      by intros [?|?]%elem_of_cons.
Qed.

(** X26: The last step of [make_functions] raises nothing and removes
    exactly the functions that lie behind a PLT entry: a function at a
    multiple of 16 stays, so the PLT entries stay, and running the step
    again removes nothing. *)
Theorem remove_stubs_spec enum_addrs fs :
  (∀ X, enum_addrs X ≡ₚ elements X) →
  well_keyed fs →
  ∃ fs', remove_stubs is_plt enum_addrs fs = Ok fs'
    ∧ (∀ a, fs' !! a = if decide (behind_plt fs a) then None else fs !! a)
    ∧ (∀ a, a `mod` 16 = 0 → fs' !! a = fs !! a)
    ∧ to_remove is_plt fs' = ∅.
Proof.
  intros Henum Hk. unfold remove_stubs.
  destruct (delete_fold fs (enum_addrs (to_remove is_plt fs)))
    as (fs' & -> & Hfs').
  { rewrite Henum. apply NoDup_elements. }
  { intros a. rewrite Henum, elem_of_elements, elem_of_to_remove by done.
    tauto. }
  assert (Hlook : ∀ a, fs' !! a
                       = if decide (behind_plt fs a) then None else fs !! a).
  { intros a. rewrite Hfs'.
    destruct (decide (a ∈ enum_addrs (to_remove is_plt fs))) as [Hin|Hnin].
    - rewrite Henum, elem_of_elements, elem_of_to_remove in Hin by done.
      by rewrite decide_True by tauto.
    - rewrite Henum, elem_of_elements, elem_of_to_remove in Hnin by done.
      case_decide as Hb; [|done].
      destruct (fs !! a) eqn:Hfa; [|done]. destruct Hnin. eauto. }
  exists fs'. split; [done|]. split; [done|]. split.
  - intros a Ha. rewrite Hlook. rewrite decide_False; [done|].
    by intros [? _].
  - assert (Hk' : well_keyed fs').
    { intros a f. rewrite Hlook. case_decide; [done|]. apply Hk. }
    apply set_eq. intros a. rewrite elem_of_to_remove by done.
    split; [|by intros ?%elem_of_empty].
    intros [[f Hf] (Hna & Hplt)]. exfalso.
    rewrite Hlook in Hf. case_decide as Hb; [done|]. apply Hb.
    split; [done|]. rewrite Hlook in Hplt. by case_decide.
Qed.

End stubs.

Lemma remove_stubs_spec_witness :
  ∃ fs', remove_stubs (λ f, bool_decide (Knowledge.addr f = 4096)) enum_addrs0
           plt_functions = Ok fs'
         ∧ fs' !! 4096 = plt_functions !! 4096.
Proof.
  destruct (remove_stubs_spec (λ f, bool_decide (Knowledge.addr f = 4096))
              enum_addrs0 plt_functions) as (fs' & Hrun & _ & Hkept & _).
  - done.
  - intros a f Hf.
    assert (map_Forall (λ k f, Knowledge.addr f = k) plt_functions) as Hall.
    { intros k f'. unfold plt_functions.
      rewrite lookup_insert_Some, lookup_singleton_Some.
      intros [[<- <-]|[_ [<- <-]]]; done. }
    by apply Hall.
  - exists fs'. split; [done|]. by apply Hkept.
Defined.

End StubFacts.
